(** * The request-governance core of the Crypto MCP server

    A shallow embedding of [crypto_mcp_server/rate_limiter.py] and
    [crypto_mcp_server/cache.py]: the sliding-window [RateLimiter], the
    [CacheManager] with its hit/miss/error counters, [build_key] and the
    [cached] decorator; and of what is built on them: the connector of
    [exchange.py], [validate_exchange] of [validators.py] and the cache
    tool of [server.py].

    Conventions of the embedding:
    - Python [int] is [Z]; a clock reading ([time.time()], the cache timer)
      is a [Z] number of ticks.  The code only compares readings and adds or
      subtracts [time_window] / [ttl], so nothing else of the float is used.
      Every call of the clock is an explicit argument of the operation that
      makes it.
    - The hit rate of [get_stats] is a Python [float]: a finite IEEE 754
      double, written as the rational it denotes and rounded by [binary64]
      after each operation.
    - A method is a computation [M S A]: a function from the object state [S]
      to an outcome (a returned value or a raised exception) and the new
      state.  A raised exception keeps the mutations made before it.
    - [dict] is [gmap], [deque] and [OrderedDict] are lists in their order. *)

From Stdlib Require Import ZArith QArith Qround Qabs Qpower Lia Lqa Ascii.
From Stdlib Require OrderedTypeEx.
From stdpp Require Import base decidable option list gmap strings pretty sorting.

Local Open Scope string_scope.
Local Open Scope list_scope.
Local Open Scope Z_scope.

(** ** Python values and exceptions *)

Module Py.

(** The values that flow through the cache and the key builder. *)
Inductive value : Type :=
| VNone
| VBool (b : bool)
| VInt (n : Z)
| VStr (s : string).

#[global] Instance value_eq_dec : EqDecision value.
Proof. solve_decision. Defined.

(** [v is not None] *)
Definition is_not_None (v : value) : bool :=
  match v with VNone => false | _ => true end.

(** [str(v)], also what an f-string replacement field renders. *)
Definition str (v : value) : string :=
  match v with
  | VNone => "None"
  | VBool true => "True"
  | VBool false => "False"
  | VInt n => pretty n
  | VStr s => s
  end.

(** The exceptions of [exceptions.py] that the core raises, the built-in
    ones the TTL store raises, and the opaque errors of a wrapped function.
    [CacheError op key cause] stands for
    [CacheError(f"Failed to {op} cache key {key}: {cause}")]. *)
Inductive exn : Type :=
| KeyError (key : string)
| ValueError (msg : string)
| RateLimitError (msg : string)
| CacheError (op key : string) (cause : exn)
| ProviderError (tag : string).

(** Outcome of running a method: it returns, it raises, or the model's
    loop budget ran out ([Diverge], shown below never to happen). *)
Inductive result (A : Type) : Type :=
| Ok (a : A)
| Raise (e : exn)
| Diverge.
Arguments Ok {A} a.
Arguments Raise {A} e.
Arguments Diverge {A}.

Definition M (S A : Type) : Type := S -> result A * S.

Definition ret {S A} (a : A) : M S A := fun s => (Ok a, s).
Definition raise {S A} (e : exn) : M S A := fun s => (Raise e, s).
Definition bind {S A B} (m : M S A) (k : A -> M S B) : M S B :=
  fun s =>
    match m s with
    | (Ok a, s') => k a s'
    | (Raise e, s') => (Raise e, s')
    | (Diverge, s') => (Diverge, s')
    end.
Definition gets {S A} (f : S -> A) : M S A := fun s => (Ok (f s), s).
Definition modify {S} (f : S -> S) : M S unit := fun s => (Ok tt, f s).

(** [try: body  except Exception as e: handler(e)] *)
Definition try_except {S A} (body : M S A) (handler : exn -> M S A) : M S A :=
  fun s =>
    match body s with
    | (Raise e, s') => handler e s'
    | r => r
    end.

(** Run a method of a component object stored in a field of [S]. *)
Definition on_field {S T A} (proj : S -> T) (upd : T -> S -> S)
    (m : M T A) : M S A :=
  fun s => let '(r, t') := m (proj s) in (r, upd t' s).

End Py.

Import Py.

Declare Scope py_scope.
Delimit Scope py_scope with py.
Notation "x <- m ;; k" := (bind m (fun x => k))
  (at level 100, m at next level, right associativity) : py_scope.
Notation "m ;;; k" := (bind m (fun _ => k))
  (at level 100, right associativity) : py_scope.
Local Open Scope py_scope.

(** ** rate_limiter.py *)

Module RateLimiterModel.

(** [RateLimiter]: the two configuration attributes and [_requests], one
    deque of timestamps per key, oldest at the left. *)
Record RateLimiter : Type := mkRateLimiter {
  max_requests : Z;
  time_window : Z;
  _requests : gmap string (list Z)
}.

Definition set_requests (f : gmap string (list Z) -> gmap string (list Z))
    (rl : RateLimiter) : RateLimiter :=
  mkRateLimiter (max_requests rl) (time_window rl) (f (_requests rl)).

(** [RateLimiter(max_requests, time_window)] *)
Definition init (max_requests time_window : Z) : RateLimiter :=
  mkRateLimiter max_requests time_window ∅.

(** The [while] loop of [_clean_old_requests]: pop from the left as long as
    the deque is not empty and its first timestamp is older than the
    window. *)
Fixpoint popleft_while (bound : Z) (dq : list Z) : list Z :=
  match dq with
  | [] => []
  | t :: rest => if bool_decide (t < bound) then popleft_while bound rest else dq
  end.

Definition _clean_old_requests (key : string) (current_time : Z)
    : M RateLimiter unit :=
  rl <- gets id ;;
  match _requests rl !! key with
  | Some dq =>
      modify (set_requests
        <[key := popleft_while (current_time - time_window rl) dq]>)
  | None => ret tt
  end.

(** [self._requests[key]], a [KeyError] when the key is missing. *)
Definition requests_getitem (key : string) : M RateLimiter (list Z) :=
  rl <- gets id ;;
  match _requests rl !! key with
  | Some dq => ret dq
  | None => raise (KeyError key)
  end.

(** [if key not in self._requests: self._requests[key] = deque()] *)
Definition ensure_key (key : string) : M RateLimiter unit :=
  rl <- gets id ;;
  match _requests rl !! key with
  | Some _ => ret tt
  | None => modify (set_requests <[key := []]>)
  end.

(** [check_limit(key)]; [current_time] is its reading of the clock. *)
Definition check_limit (key : string) (current_time : Z) : M RateLimiter bool :=
  ensure_key key ;;;
  _clean_old_requests key current_time ;;;
  dq <- requests_getitem key ;;
  rl <- gets id ;;
  ret (bool_decide (Z.of_nat (length dq) < max_requests rl)).

(** The text of the [RateLimitError] raised by [record_request]. *)
Definition rate_limit_message (key : string) (rl : RateLimiter) : string :=
  "Rate limit exceeded for " +:+ key +:+ ". " +:+
  "Maximum " +:+ pretty (max_requests rl) +:+ " requests per " +:+
  pretty (time_window rl) +:+ "s".

(** [record_request(key)]; [t_check] is the clock reading made inside
    [check_limit], [current_time] the one made after an admitted check. *)
Definition record_request (key : string) (t_check current_time : Z)
    : M RateLimiter unit :=
  within <- check_limit key t_check ;;
  if negb within then
    rl <- gets id ;;
    raise (RateLimitError (rate_limit_message key rl))
  else
    ensure_key key ;;;
    dq <- requests_getitem key ;;
    modify (set_requests <[key := dq ++ [current_time]]>).

(** [get_remaining_requests(key)] *)
Definition get_remaining_requests (key : string) (current_time : Z)
    : M RateLimiter Z :=
  rl <- gets id ;;
  match _requests rl !! key with
  | None => ret (max_requests rl)
  | Some _ =>
      _clean_old_requests key current_time ;;;
      dq <- requests_getitem key ;;
      ret (Z.max 0 (max_requests rl - Z.of_nat (length dq)))
  end.

(** [reset(key)] *)
Definition reset (key : string) : M RateLimiter unit :=
  rl <- gets id ;;
  match _requests rl !! key with
  | Some _ => modify (set_requests <[key := []]>)
  | None => ret tt
  end.

(** [reset_all()] *)
Definition reset_all : M RateLimiter unit :=
  modify (set_requests (fun _ => ∅)).

(** The window of a key as a list; a key never seen has no timestamps. *)
Definition window (key : string) (rl : RateLimiter) : list Z :=
  default [] (_requests rl !! key).

(** *** Histories of calls

    A history lists the calls made on one limiter, each with the clock
    readings it makes, in program order. *)
Inductive call : Type :=
| CallCheckLimit (key : string) (current_time : Z)
| CallRecordRequest (key : string) (t_check current_time : Z)
| CallGetRemainingRequests (key : string) (current_time : Z)
| CallReset (key : string)
| CallResetAll.

(** The limiter after a call, whatever the call returned or raised. *)
Definition after_call (c : call) (rl : RateLimiter) : RateLimiter :=
  match c with
  | CallCheckLimit key t => (check_limit key t rl).2
  | CallRecordRequest key t1 t2 => (record_request key t1 t2 rl).2
  | CallGetRemainingRequests key t => (get_remaining_requests key t rl).2
  | CallReset key => (reset key rl).2
  | CallResetAll => (reset_all rl).2
  end.

Definition after_calls (h : list call) (rl : RateLimiter) : RateLimiter :=
  foldl (fun rl c => after_call c rl) rl h.

(** The clock readings of a call, in the order they are made. *)
Definition readings (c : call) : list Z :=
  match c with
  | CallCheckLimit _ t | CallGetRemainingRequests _ t => [t]
  | CallRecordRequest _ t1 t2 => [t1; t2]
  | CallReset _ | CallResetAll => []
  end.

(** The clock never runs backwards: the readings of a history, starting
    from [t0], do not decrease. *)
Fixpoint monotonic_from (t0 : Z) (ts : list Z) : Prop :=
  match ts with
  | [] => True
  | t :: rest => t0 ≤ t ∧ monotonic_from t rest
  end.

Definition clock_monotonic (t0 : Z) (h : list call) : Prop :=
  monotonic_from t0 (mjoin (readings <$> h)).

(** The last reading of a history that starts at [t0]. *)
Definition last_reading (t0 : Z) (h : list call) : Z :=
  List.last (mjoin (readings <$> h)) t0.

End RateLimiterModel.

(** ** cache.py *)

Module CacheModel.

(** *** The TTL store

    Modelled from the spec: the store behind [CacheManager] is
    [cachetools.TTLCache], a library class whose code is not among the
    sources.  The model realises the CacheStore contract of the
    specification (a bounded key/value store with per-entry expiry, lookups
    that treat an expired entry as absent, [set] resetting the expiry to
    [now + ttl] and evicting oldest-first when a new key would exceed
    [max_size]) with the structure of the library class: the value dict
    [data] and the entry count [currsize] of [Cache]; [links], the
    [OrderedDict] from key to link in least-recently-used order; and
    [ring], the same links in the order of the expiry ring from
    [root.next].  A link is written as its key with its [expires]; the unit
    [getsizeof] makes every value count 1. *)
Record TTLCache : Type := mkTTLCache {
  maxsize : Z;
  ttl : Z;
  data : gmap string value;
  currsize : Z;
  links : list (string * Z);
  ring : list (string * Z)
}.

Definition with_data (f : gmap string value -> gmap string value)
    (c : TTLCache) : TTLCache :=
  mkTTLCache (maxsize c) (ttl c) (f (data c)) (currsize c) (links c) (ring c).
Definition with_currsize (f : Z -> Z) (c : TTLCache) : TTLCache :=
  mkTTLCache (maxsize c) (ttl c) (data c) (f (currsize c)) (links c) (ring c).
Definition with_links (f : list (string * Z) -> list (string * Z))
    (c : TTLCache) : TTLCache :=
  mkTTLCache (maxsize c) (ttl c) (data c) (currsize c) (f (links c)) (ring c).
Definition with_ring (f : list (string * Z) -> list (string * Z))
    (c : TTLCache) : TTLCache :=
  mkTTLCache (maxsize c) (ttl c) (data c) (currsize c) (links c) (f (ring c)).

(** Modelled from the spec: the constructor [TTLCache(maxsize, ttl)] of
    the library store, an empty store. *)
Definition TTLCache_init (maxsize ttl : Z) : TTLCache :=
  mkTTLCache maxsize ttl ∅ 0 [] [].

(** The link stored under [key], by its [expires]. *)
Fixpoint assoc (key : string) (l : list (string * Z)) : option Z :=
  match l with
  | [] => None
  | (k, e) :: rest => if decide (k = key) then Some e else assoc key rest
  end.

(** Removal of the link of [key] from an ordered collection of links. *)
Definition drop_key (key : string) (l : list (string * Z)) : list (string * Z) :=
  filter (fun p => p.1 ≠ key) l.

(** [link.expires = e] seen through the collection that holds the link. *)
Definition set_expires (key : string) (e : Z) (l : list (string * Z))
    : list (string * Z) :=
  (fun p : string * Z => if decide (p.1 = key) then (key, e) else p) <$> l.

(** [Cache.__getitem__]: the value, or [__missing__] raising [KeyError]. *)
Definition cache_getitem (key : string) : M TTLCache value :=
  c <- gets id ;;
  match data c !! key with
  | Some v => ret v
  | None => raise (KeyError key)
  end.

(** [Cache.__delitem__] *)
Definition cache_delitem (key : string) : M TTLCache unit :=
  c <- gets id ;;
  match data c !! key with
  | Some _ =>
      modify (with_data (delete key)) ;;;
      modify (with_currsize (fun n => n - 1))
  | None => raise (KeyError key)
  end.

(** [del self.__links[key]] / [self.__links.pop(key)], returning the link. *)
Definition links_pop (key : string) : M TTLCache Z :=
  c <- gets id ;;
  match assoc key (links c) with
  | Some e => modify (with_links (drop_key key)) ;;; ret e
  | None => raise (KeyError key)
  end.

(** [self.__links.move_to_end(key)], for the link [e] stored under [key]. *)
Definition move_to_end (key : string) (e : Z) (c : TTLCache) : TTLCache :=
  with_links (fun l => drop_key key l ++ [(key, e)]) c.

(** [TTLCache.__getlink]: look the link up and move it to the end of the
    least-recently-used order. *)
Definition getlink (key : string) : M TTLCache Z :=
  c <- gets id ;;
  match assoc key (links c) with
  | Some e => modify (move_to_end key e) ;;; ret e
  | None => raise (KeyError key)
  end.

(** [TTLCache.__contains__], under the timer reading [time]. *)
Definition contains (time : Z) (key : string) : M TTLCache bool :=
  c <- gets id ;;
  match assoc key (links c) with
  | Some e => ret (bool_decide (time < e))
  | None => ret false
  end.

(** [TTLCache.__getitem__] *)
Definition getitem (time : Z) (key : string) : M TTLCache value :=
  expired <- try_except
               (e <- getlink key ;; ret (negb (bool_decide (time < e))))
               (fun _ => ret false) ;;
  if (expired : bool) then raise (KeyError key) else cache_getitem key.

(** Modelled from the spec: [TTLCache.get(key)] of the library store,
    with the default [None]: the value if the key is present and has not
    expired, [None] otherwise. *)
Definition TTLCache_get (time : Z) (key : string) : M TTLCache value :=
  present <- contains time key ;;
  if (present : bool) then getitem time key else ret VNone.

(** The loop of [TTLCache.expire(time)]: from [root.next], remove every
    link that has expired, stopping at the first one that has not. *)
Fixpoint expire_from (time : Z) (r : list (string * Z)) : M TTLCache unit :=
  match r with
  | [] => ret tt
  | (k, e) :: next =>
      if bool_decide (time < e) then ret tt
      else
        cache_delitem k ;;;
        links_pop k ;;;
        modify (with_ring (fun _ => next)) ;;;
        expire_from time next
  end.

Definition expire (time : Z) : M TTLCache unit :=
  c <- gets id ;;
  expire_from time (ring c).

(** [TTLCache.__delitem__] *)
Definition delitem (time : Z) (key : string) : M TTLCache unit :=
  cache_delitem key ;;;
  e <- links_pop key ;;
  modify (with_ring (drop_key key)) ;;;
  if bool_decide (time < e) then ret tt else raise (KeyError key).

(** [Cache.pop(key)] without a default. *)
Definition pop (time : Z) (key : string) : M TTLCache value :=
  present <- contains time key ;;
  if (present : bool) then
    v <- getitem time key ;;
    delitem time key ;;;
    ret v
  else raise (KeyError key).

(** [TTLCache.popitem()]: the least recently used item that has not
    expired. *)
Definition popitem (time : Z) : M TTLCache (string * value) :=
  expire time ;;;
  c <- gets id ;;
  match links c with
  | [] => raise (KeyError "TTLCache is empty")
  | (key, _) :: _ => v <- pop time key ;; ret (key, v)
  end.

(** [while self.__currsize + size > maxsize: self.popitem()] with
    [size = 1].  [fuel] bounds the number of iterations of the model. *)
Fixpoint evict_while (fuel : nat) (time : Z) : M TTLCache unit :=
  c <- gets id ;;
  if bool_decide (currsize c + 1 > maxsize c) then
    match fuel with
    | O => fun s => (Diverge, s)
    | S fuel' => popitem time ;;; evict_while fuel' time
    end
  else ret tt.

(** [Cache.__setitem__].  An iteration of the loop that does not raise
    lowers [currsize], so [currsize + 1 - maxsize] iterations are enough. *)
Definition cache_setitem (time : Z) (key : string) (v : value)
    : M TTLCache unit :=
  c <- gets id ;;
  if bool_decide (1 > maxsize c) then raise (ValueError "value too large")
  else
    (if bool_decide (data c !! key = None)
     then evict_while (Z.to_nat (currsize c + 1 - maxsize c)) time
     else ret tt) ;;;
    c' <- gets id ;;
    let diffsize := if bool_decide (data c' !! key = None) then 1 else 0 in
    modify (with_data <[key := v]>) ;;;
    modify (with_currsize (fun n => n + diffsize)).

(** Modelled from the spec: [TTLCache.__setitem__] of the library store,
    with one timer reading [time] for the whole call: purge what has
    expired, make room and store the value, then give the key the expiry
    [time + ttl]. *)
Definition setitem (time : Z) (key : string) (v : value) : M TTLCache unit :=
  expire time ;;;
  cache_setitem time key v ;;;
  c <- gets id ;;
  try_except
    (getlink key ;;; modify (with_ring (drop_key key)))
    (fun _ => modify (with_links (fun l => l ++ [(key, time + ttl c)]))) ;;;
  modify (with_links (set_expires key (time + ttl c))) ;;;
  modify (with_ring (fun r => r ++ [(key, time + ttl c)])).

(** Modelled from the spec: [TTLCache.__len__] of the library store, the
    number of values left after the purge of what has expired. *)
Definition len (time : Z) : M TTLCache Z :=
  expire time ;;;
  c <- gets id ;;
  ret (Z.of_nat (size (data c))).

(** *** CacheManager *)

(** The [_stats] dict: its three keys are fixed at construction. *)
Record Stats : Type := mkStats {
  hits : Z;
  misses : Z;
  errors : Z
}.

Record CacheManager : Type := mkCacheManager {
  _cache : TTLCache;
  _stats : Stats
}.

(** [CacheManager(maxsize, ttl)] *)
Definition init (maxsize ttl : Z) : CacheManager :=
  mkCacheManager (TTLCache_init maxsize ttl) (mkStats 0 0 0).

Definition with_stats (f : Stats -> Stats) (m : CacheManager) : CacheManager :=
  mkCacheManager (_cache m) (f (_stats m)).

(** Calls into [self._cache]. *)
Definition on_cache {A} (op : M TTLCache A) : M CacheManager A :=
  on_field _cache (fun c m => mkCacheManager c (_stats m)) op.

Definition incr_hits (s : Stats) : Stats :=
  mkStats (hits s + 1) (misses s) (errors s).
Definition incr_misses (s : Stats) : Stats :=
  mkStats (hits s) (misses s + 1) (errors s).
Definition incr_errors (s : Stats) : Stats :=
  mkStats (hits s) (misses s) (errors s + 1).

(** [CacheManager.get(key)]; [time] is the timer reading of the store. *)
Definition get (key : string) (time : Z) : M CacheManager value :=
  try_except
    (v <- on_cache (TTLCache_get time key) ;;
     (if is_not_None v
      then modify (with_stats incr_hits)
      else modify (with_stats incr_misses)) ;;;
     ret v)
    (fun e =>
       modify (with_stats incr_errors) ;;;
       raise (CacheError "get" key e)).

(** [CacheManager.set(key, value)] *)
Definition set (key : string) (v : value) (time : Z) : M CacheManager unit :=
  try_except
    (on_cache (setitem time key v))
    (fun e =>
       modify (with_stats incr_errors) ;;;
       raise (CacheError "set" key e)).

(** [round(x)] to the nearest integer, ties to the even one. *)
Definition round_half_even (x : Q) : Z :=
  let f := Qfloor x in
  match (x - inject_Z f ?= 1 # 2)%Q with
  | Lt => f
  | Gt => f + 1
  | Eq => if Z.even f then f else f + 1
  end.

(** *** Python floats

    A finite [float] is the rational it denotes.  The counters only grow
    from zero, so the quotient of [get_stats] is in [[0, 1]] and its
    product in [[0, 100]]: overflow, infinities and NaN do not arise and
    are not modelled; gradual underflow is. *)

(** The [k] with [2^k <= q < 2^(k+1)], for [q > 0]. *)
Definition floor_log2 (q : Q) : Z :=
  let k := Z.log2 (Qnum q) - Z.log2 (Zpos (Qden q)) in
  if Qle_bool (2 ^ k) q then k else k - 1.

(** The IEEE 754 binary64 number nearest to [q], ties to the even
    significand: 53 significant bits, least exponent [-1074]. *)
Definition binary64 (q : Q) : Q :=
  if Qeq_bool q 0 then 0%Q else
  let e := Z.max (floor_log2 (Qabs q) - 52) (-1074) in
  (inject_Z (round_half_even (q / 2 ^ e)) * 2 ^ e)%Q.

(** [a / b] on two [int]: the float nearest to the quotient. *)
Definition true_divide (a b : Z) : Q :=
  binary64 (inject_Z a / inject_Z b).

(** [x * y] on floats. *)
Definition float_mul (x y : Q) : Q := binary64 (x * y).

(** [round(x, 2)] on a float [x]: the value of [x] rounded to a whole
    number of hundredths, ties to the even one, and then the float
    nearest to that decimal. *)
Definition round2 (x : Q) : Q :=
  binary64 (inject_Z (round_half_even (x * 100)) / 100).

(** The dict returned by [get_stats]. *)
Record StatsReport : Type := mkStatsReport {
  r_hits : Z;
  r_misses : Z;
  r_errors : Z;
  total_requests : Z;
  hit_rate_percent : Q;
  current_size : Z;
  max_size : Z
}.

(** [CacheManager.get_stats()]; [time] is the timer reading that
    [len(self._cache)] makes. *)
Definition get_stats (time : Z) : M CacheManager StatsReport :=
  m <- gets id ;;
  let s := _stats m in
  let total := hits s + misses s in
  let hit_rate :=
    if bool_decide (total > 0)
    then float_mul (true_divide (hits s) total) 100
    else 0%Q in
  n <- on_cache (len time) ;;
  m' <- gets id ;;
  ret (mkStatsReport (hits s) (misses s) (errors s) total
         (round2 hit_rate) n (maxsize (_cache m'))).

(** *** build_key *)

(** The order [sorted] puts the items of [kwargs] in.  The names of a dict
    are distinct, so comparing two [(name, value)] tuples is decided by
    the names and never reaches the values. *)
Definition item_le (p q : string * value) : Prop :=
  String.leb p.1 q.1 = true.

#[global] Instance item_le_dec : RelDecision item_le.
Proof. intros p q. unfold item_le. apply _. Defined.

(** [sorted(kwargs.items())] *)
Definition sorted_items (kwargs : list (string * value))
    : list (string * value) :=
  merge_sort item_le kwargs.

(** [f"{k}={v}"] *)
Definition render_item (p : string * value) : string :=
  p.1 +:+ "=" +:+ str p.2.

(** The list [parts] that [build_key] joins. *)
Definition key_parts (args : list value) (kwargs : list (string * value))
    : list string :=
  (str <$> args) ++ (render_item <$> sorted_items kwargs).

(** [CacheManager.build_key( *args, **kwargs )]; [kwargs] lists the named
    arguments in the order the caller supplied them. *)
Definition build_key (args : list value) (kwargs : list (string * value))
    : string :=
  String.concat ":" (key_parts args kwargs).

(** *** The [cached] decorator *)

(** A decorated function: its [__name__], whether it is a coroutine
    function, and its body acting on a state [F] of its own. *)
Record pyfunc (F : Type) : Type := mkFunc {
  __name__ : string;
  iscoroutinefunction : bool;
  body : list value -> list (string * value) -> M F value
}.
Arguments __name__ {F} _.
Arguments iscoroutinefunction {F} _.
Arguments body {F} _ _ _.

(** What a wrapper runs in: the global [cache_manager], the state of the
    wrapped function, and a counter of the invocations of the wrapped
    function (instrumentation of the model, not read by the code). *)
Record World (F : Type) : Type := mkWorld {
  cache_manager : CacheManager;
  func_state : F;
  invocations : nat
}.
Arguments mkWorld {F} _ _ _.
Arguments cache_manager {F} _.
Arguments func_state {F} _.
Arguments invocations {F} _.

Definition on_manager {F A} (op : M CacheManager A) : M (World F) A :=
  on_field cache_manager
    (fun m w => mkWorld m (func_state w) (invocations w)) op.

(** [func( *args, **kwargs )] *)
Definition invoke {F} (func : pyfunc F) (args : list value)
    (kwargs : list (string * value)) : M (World F) value :=
  modify (fun w => mkWorld (cache_manager w) (func_state w)
                     (S (invocations w))) ;;;
  on_field func_state
    (fun f w => mkWorld (cache_manager w) f (invocations w))
    (body func args kwargs).

(** The key both wrappers compute:
    [f"{key_prefix}:{func.__name__}:{cache_manager.build_key(...)}"] *)
Definition cache_key_of {F} (key_prefix : string) (func : pyfunc F)
    (args : list value) (kwargs : list (string * value)) : string :=
  key_prefix +:+ ":" +:+ __name__ func +:+ ":" +:+ build_key args kwargs.

(** [sync_wrapper( *args, **kwargs )]; [t_get] and [t_set] are the timer
    readings of the lookup and of the store. *)
Definition sync_wrapper {F} (key_prefix : string) (func : pyfunc F)
    (args : list value) (kwargs : list (string * value))
    (t_get t_set : Z) : M (World F) value :=
  let cache_key := cache_key_of key_prefix func args kwargs in
  cached_value <- on_manager (get cache_key t_get) ;;
  if is_not_None cached_value then ret cached_value
  else
    result <- invoke func args kwargs ;;
    on_manager (set cache_key result t_set) ;;;
    ret result.

(** [async_wrapper( *args, **kwargs )]: the same steps, the function being
    awaited to completion where the synchronous wrapper calls it. *)
Definition async_wrapper {F} (key_prefix : string) (func : pyfunc F)
    (args : list value) (kwargs : list (string * value))
    (t_get t_set : Z) : M (World F) value :=
  let cache_key := cache_key_of key_prefix func args kwargs in
  cached_value <- on_manager (get cache_key t_get) ;;
  if is_not_None cached_value then ret cached_value
  else
    result <- invoke func args kwargs ;;
    on_manager (set cache_key result t_set) ;;;
    ret result.

(** [cached(ttl, key_prefix)(func)]: the wrapper chosen by
    [asyncio.iscoroutinefunction(func)].  The [ttl] argument of the
    decorator is not used by either wrapper. *)
Definition cached {F} (ttl : option Z) (key_prefix : string)
    (func : pyfunc F) :=
  if iscoroutinefunction func
  then async_wrapper key_prefix func
  else sync_wrapper key_prefix func.

(** *** Histories of calls on a manager *)

Inductive call : Type :=
| CallGet (key : string) (time : Z)
| CallSet (key : string) (v : value) (time : Z)
| CallGetStats (time : Z).

(** Whether a call returned normally, raised, or ran out of budget. *)
Definition outcome {A} (r : result A) : result unit :=
  match r with
  | Ok _ => Ok tt
  | Raise e => Raise e
  | Diverge => Diverge
  end.

(** A call on a manager: how it ended and the manager after it. *)
Definition do_call (c : call) (m : CacheManager) : result unit * CacheManager :=
  match c with
  | CallGet key t => let '(r, m') := get key t m in (outcome r, m')
  | CallSet key v t => let '(r, m') := set key v t m in (outcome r, m')
  | CallGetStats t => let '(r, m') := get_stats t m in (outcome r, m')
  end.

Definition after_calls (h : list call) (m : CacheManager) : CacheManager :=
  foldl (fun m c => (do_call c m).2) m h.



(** The timer reading of each call. *)
Definition reading (c : call) : Z :=
  match c with CallGet _ t | CallSet _ _ t | CallGetStats t => t end.

(** The store's timer is monotonic: the readings of a history, starting
    from [t0], never decrease. *)
Fixpoint timer_monotonic (t0 : Z) (h : list call) : Prop :=
  match h with
  | [] => True
  | c :: rest => t0 ≤ reading c ∧ timer_monotonic (reading c) rest
  end.

Definition last_reading (t0 : Z) (h : list call) : Z :=
  List.last (reading <$> h) t0.

(** A wrapper called once for each pair of timer readings in [times]. *)
Definition repeat_wrapper {F} (key_prefix : string) (func : pyfunc F)
    (args : list value) (kwargs : list (string * value))
    (times : list (Z * Z)) (w : World F) : World F :=
  foldl (fun w t => (sync_wrapper key_prefix func args kwargs t.1 t.2 w).2)
    w times.

End CacheModel.

(** * Invariants *)

Module Invariants.
Import RateLimiterModel.

(** What holds of every window of a limiter whose clock has been read up
    to [T]: it has at most [max_requests] timestamps, they are in the
    order they were recorded, and none is later than [T]. *)
Definition window_inv (T : Z) (rl : RateLimiter) : Prop :=
  ∀ key dq, _requests rl !! key = Some dq →
    Z.of_nat (length dq) ≤ max_requests rl ∧
    Sorted Z.le dq ∧
    Forall (fun t => t ≤ T) dq.

(** A Hoare triple for a method: from a state satisfying [P], the outcome
    and the final state satisfy [Q]. *)
Definition hoare {S A} (P : S → Prop) (m : M S A)
    (Q : result A → S → Prop) : Prop :=
  ∀ s, P s → Q (m s).1 (m s).2.

(** [P] holds after the method whenever it held before, however the
    method ends. *)
Definition preserves {S A} (P : S → Prop) (m : M S A) : Prop :=
  hoare P m (fun _ => P).

(** The configuration of a store. *)
Definition has_config (mx tl : Z) (c : CacheModel.TTLCache) : Prop :=
  CacheModel.maxsize c = mx ∧ CacheModel.ttl c = tl.

(** The entry count of the store is the number of stored values and does
    not exceed [maxsize]. *)
Definition within_capacity (c : CacheModel.TTLCache) : Prop :=
  CacheModel.currsize c = Z.of_nat (size (CacheModel.data c)) ∧
  CacheModel.currsize c ≤ CacheModel.maxsize c.

(** The representation invariant of the store when its timer has been
    read up to [T]: every key has one link, the least-recently-used order
    and the expiry ring hold the same links, the keys with a link are the
    keys with a value, [currsize] counts them, the ring is in order of
    expiry and no link expires later than [T + ttl]. *)
Definition wf (T : Z) (c : CacheModel.TTLCache) : Prop :=
  NoDup (CacheModel.ring c).*1 ∧
  CacheModel.links c ≡ₚ CacheModel.ring c ∧
  (∀ k, is_Some (CacheModel.data c !! k) ↔ k ∈ (CacheModel.ring c).*1) ∧
  CacheModel.currsize c = Z.of_nat (size (CacheModel.data c)) ∧
  StronglySorted (fun p q : string * Z => p.2 ≤ q.2) (CacheModel.ring c) ∧
  Forall (fun p : string * Z => p.2 ≤ T + CacheModel.ttl c) (CacheModel.ring c).

(** The store holds at most [n] values for a capacity [mx]. *)
Definition bounded (mx n : Z) (c : CacheModel.TTLCache) : Prop :=
  CacheModel.currsize c ≤ n ∧ CacheModel.maxsize c = mx.

(** The method ends (it returns or raises) with the store bounded by [n]. *)
Definition ends_bounded {A} (mx n : Z) (r : result A) (c : CacheModel.TTLCache)
    : Prop :=
  r ≠ Diverge ∧ bounded mx n c.

(** The method ends with the store bounded by [n], and by [n - 1] when it
    returns. *)
Definition ends_lowered {A} (mx n : Z) (r : result A) (c : CacheModel.TTLCache)
    : Prop :=
  r ≠ Diverge ∧ bounded mx n c ∧ (∀ a, r = Ok a → bounded mx (n - 1) c).

(** The store without the key [k]: its value, its link in both orders,
    and one less in [currsize]. *)
Definition removed (k : string) (c : CacheModel.TTLCache) : CacheModel.TTLCache :=
  CacheModel.with_ring (CacheModel.drop_key k)
    (CacheModel.with_links (CacheModel.drop_key k)
       (CacheModel.with_currsize (fun n => n - 1)
          (CacheModel.with_data (delete k) c))).

(** The store after the last two statements of [Cache.__setitem__]. *)
Definition stored (key : string) (v : value) (c : CacheModel.TTLCache)
    : CacheModel.TTLCache :=
  CacheModel.with_currsize
    (fun n => n + (if bool_decide (CacheModel.data c !! key = None) then 1 else 0))
    (CacheModel.with_data <[key := v]> c).

(** The store after the part of [TTLCache.__setitem__] that follows
    [cache_setitem]: the link of [key] is found or made, given the expiry
    [time + ttl] and put at the end of the ring. *)
Definition linked (time : Z) (key : string) (c : CacheModel.TTLCache)
    : CacheModel.TTLCache :=
  let E := time + CacheModel.ttl c in
  CacheModel.with_ring (fun r => r ++ [(key, E)])
    (CacheModel.with_links (CacheModel.set_expires key E)
       (match CacheModel.assoc key (CacheModel.links c) with
        | Some e =>
            CacheModel.with_ring (CacheModel.drop_key key)
              (CacheModel.move_to_end key e c)
        | None => CacheModel.with_links (fun l => l ++ [(key, E)]) c
        end)).

(** No link of the store has expired at [time]. *)
Definition all_live (time : Z) (c : CacheModel.TTLCache) : Prop :=
  Forall (fun p : string * Z => time < p.2) (CacheModel.ring c).

(** The store can only answer [None] for [key]: if the key has a link,
    the value stored under it is [None]. *)
Definition holds_none (key : string) (c : CacheModel.TTLCache) : Prop :=
  is_Some (CacheModel.assoc key (CacheModel.links c)) →
  CacheModel.data c !! key = Some VNone.

(** Whether the character [c] occurs in [s]. *)
Fixpoint occurs (c : ascii) (s : string) : bool :=
  match s with
  | EmptyString => false
  | String a rest => if decide (a = c) then true else occurs c rest
  end.

(** A rendered part in which the separator of [build_key] does not occur. *)
Definition sep_free (s : string) : Prop := occurs ":"%char s = false.

End Invariants.

(** * cache.py: [delete], [clear] and histories with them *)

Module CacheOps.
Import CacheModel.

(** [CacheManager.delete(key)]; [t_in] is the timer reading of
    [key in self._cache], [t_del] the one of [del self._cache[key]]. *)
Definition delete (key : string) (t_in t_del : Z) : M CacheManager unit :=
  try_except
    (present <- on_cache (contains t_in key) ;;
     if (present : bool) then on_cache (delitem t_del key) else ret tt)
    (fun e =>
       modify (with_stats incr_errors) ;;;
       raise (CacheError "delete" key e)).

(** Modelled from the spec: the loop [while True: self.popitem()] of
    [MutableMapping.clear], which the library store runs for [clear()].
    [clock i] is the timer reading of the [i]-th [popitem] (all equal when
    the store holds its timer for the whole call) and [fuel] bounds the
    number of iterations of the model. *)
Fixpoint popitem_loop (fuel : nat) (clock : nat -> Z) (i : nat)
    : M TTLCache unit :=
  match fuel with
  | O => fun s => (Diverge, s)
  | S fuel' => popitem (clock i) ;;; popitem_loop fuel' clock (S i)
  end.

(** Modelled from the spec: [clear()] of the library store, which
    removes all entries: [popitem()] until it raises [KeyError], which is
    swallowed.  A [popitem] that returns removes a link, so one iteration
    more than there are links is enough. *)
Definition TTLCache_clear (clock : nat -> Z) : M TTLCache unit :=
  c <- gets id ;;
  try_except
    (popitem_loop (S (length (links c))) clock 0)
    (fun e => match e with KeyError _ => ret tt | _ => raise e end).

(** [CacheManager.clear()].  Its [CacheError] names no key:
    [CacheError(f"Failed to clear cache: {e}")]. *)
Definition clear (clock : nat -> Z) : M CacheManager unit :=
  try_except
    (on_cache (TTLCache_clear clock))
    (fun e =>
       modify (with_stats incr_errors) ;;;
       raise (CacheError "clear" "" e)).

(** [_handle_clear_cache] of server.py, up to the JSON rendering: the two
    reports it puts under ["before"] and ["after"].  [t_before] and
    [t_after] are the timer readings of the two [get_stats] calls. *)
Definition _handle_clear_cache (t_before : Z) (clock : nat -> Z) (t_after : Z)
    : M CacheManager (StatsReport * StatsReport) :=
  stats_before <- get_stats t_before ;;
  clear clock ;;;
  stats_after <- get_stats t_after ;;
  ret (stats_before, stats_after).

(** *** Histories of all five operations *)

Inductive op : Type :=
| OpBase (c : call)
| OpDelete (key : string) (t_in t_del : Z)
| OpClear (clock : nat -> Z).

(** An operation on a manager: how it ended and the manager after it. *)
Definition do_op (o : op) (m : CacheManager) : result unit * CacheManager :=
  match o with
  | OpBase c => do_call c m
  | OpDelete key t_in t_del => delete key t_in t_del m
  | OpClear clock => clear clock m
  end.

Definition after_ops (h : list op) (m : CacheManager) : CacheManager :=
  foldl (fun m o => (do_op o m).2) m h.

(** How each operation of a history ended, in order. *)
Fixpoint outcomes (h : list op) (m : CacheManager) : list (result unit) :=
  match h with
  | [] => []
  | o :: rest => (do_op o m).1 :: outcomes rest (do_op o m).2
  end.

(** The number of operations that raised. *)
Fixpoint count_raised (rs : list (result unit)) : Z :=
  match rs with
  | [] => 0
  | Raise _ :: rest => 1 + count_raised rest
  | _ :: rest => count_raised rest
  end.

(** The timer readings that later readings are compared with.  [clear]
    leaves no entry behind, so its readings constrain nothing. *)
Definition op_readings (o : op) : list Z :=
  match o with
  | OpBase c => [reading c]
  | OpDelete _ t_in t_del => [t_in; t_del]
  | OpClear _ => []
  end.

Definition ops_monotonic (t0 : Z) (h : list op) : Prop :=
  RateLimiterModel.monotonic_from t0 (mjoin (op_readings <$> h)).

Definition ops_last_reading (t0 : Z) (h : list op) : Z :=
  List.last (mjoin (op_readings <$> h)) t0.

(** How an operation may end on a manager with room for at least one
    value: it returns, or it is a [delete] that raises the [CacheError]
    wrapping the store's [KeyError]. *)
Definition ends_well (o : op) (r : result unit) : Prop :=
  r = Ok tt ∨
  ∃ key t_in t_del, o = OpDelete key t_in t_del ∧
                    r = Raise (CacheError "delete" key (KeyError key)).

End CacheOps.

(** * exchange.py and validators.py

    The connector talks to the exchange library.  What the library does is
    left open: the library calls are parameters of the model, each a
    function of the state of the outside world that returns a value or
    raises.  What the connector does around them is the code's. *)

Module ExchangeModel.
Import RateLimiterModel.

(** The exceptions that reach this layer, by the class the [except]
    clauses tell apart, each with its message.  [CoreError] is an
    exception of the core (the limiter raises [RateLimitError]);
    [LibraryError] is any exception of the exchange library other than
    [AttributeError] and [ccxt.BadSymbol]. *)
Inductive error : Type :=
| CoreError (e : exn)
| AttributeError (msg : string)
| BadSymbol (msg : string)
| LibraryError (msg : string)
| ExchangeNotSupportedError (msg : string)
| ExchangeConnectionError (msg : string)
| InvalidSymbolError (msg : string)
| DataFetchError (msg : string)
| ValidationError (msg : string).

(** [str(e)] for an exception of the core. *)
Fixpoint core_message (e : exn) : string :=
  match e with
  | KeyError key => "'" +:+ key +:+ "'"
  | ValueError msg | RateLimitError msg | ProviderError msg => msg
  | CacheError op key cause =>
      "Failed to " +:+ op +:+ " cache key " +:+ key +:+ ": " +:+
      core_message cause
  end.

(** [str(e)] *)
Definition message (e : error) : string :=
  match e with
  | CoreError e => core_message e
  | AttributeError msg | BadSymbol msg | LibraryError msg
  | ExchangeNotSupportedError msg | ExchangeConnectionError msg
  | InvalidSymbolError msg | DataFetchError msg | ValidationError msg => msg
  end.

(** Outcome of a method of this layer; [Stuck] is the [Diverge] of the
    core, which the limiter never produces. *)
Inductive res (A : Type) : Type :=
| Return (a : A)
| Throw (e : error)
| Stuck.
Arguments Return {A} a.
Arguments Throw {A} e.
Arguments Stuck {A}.

Definition X (S A : Type) : Type := S -> res A * S.

Definition xret {S A} (a : A) : X S A := fun s => (Return a, s).
Definition xthrow {S A} (e : error) : X S A := fun s => (Throw e, s).
Definition xbind {S A B} (m : X S A) (k : A -> X S B) : X S B :=
  fun s =>
    match m s with
    | (Return a, s') => k a s'
    | (Throw e, s') => (Throw e, s')
    | (Stuck, s') => (Stuck, s')
    end.
Definition xgets {S A} (f : S -> A) : X S A := fun s => (Return (f s), s).
Definition xmodify {S} (f : S -> S) : X S unit := fun s => (Return tt, f s).

(** [try: body  except ...: handler(e)] *)
Definition xtry {S A} (body : X S A) (handler : error -> X S A) : X S A :=
  fun s =>
    match body s with
    | (Throw e, s') => handler e s'
    | r => r
    end.

(** A call into the core. *)
Definition of_core {A} (r : result A) : res A :=
  match r with
  | Ok a => Return a
  | Raise e => Throw (CoreError e)
  | Diverge => Stuck
  end.

(** What a library call gives back. *)
Definition of_library {A} (r : error + A) : res A :=
  match r with
  | inr a => Return a
  | inl e => Throw e
  end.

(** [config.SUPPORTED_EXCHANGES] *)
Definition SUPPORTED_EXCHANGES : list string :=
  ["binance"; "coinbase"; "kraken"; "bitfinex"; "bitstamp"; "gemini";
   "kucoin"; "okx"; "bybit"; "gate"].

(** The API keys that [Config] reads from the environment, each a string
    or [None]. *)
Record Config : Type := mkConfig {
  BINANCE_API_KEY : value;
  BINANCE_API_SECRET : value;
  COINBASE_API_KEY : value;
  COINBASE_API_SECRET : value
}.

Section Library.

(** The state of the outside world, the exchange classes of the library
    and their instances. *)
Variables W Class Exchange : Type.

(** [str.lower] *)
Variable lower : string -> string.

(** [getattr(ccxt, name)]: the class, or [None] for [AttributeError]. *)
Variable getattr_ccxt : string -> option Class.

(** [exchange_class(options)], [exchange.load_markets()] and
    [exchange.fetch_ticker(symbol)]. *)
Variable new_exchange :
  Class -> list (string * value) -> W -> (error + Exchange) * W.
Variable load_markets : Exchange -> W -> (error + unit) * W.
Variable fetch_ticker :
  Exchange -> string -> W -> (error + gmap string value) * W.

Variable config : Config.

(** [Config.get_exchange_credentials(exchange)] *)
Definition get_exchange_credentials (exchange : string)
    : list (string * value) :=
  let exchange := lower exchange in
  if decide (exchange = "binance") then
    [("apiKey", BINANCE_API_KEY config); ("secret", BINANCE_API_SECRET config)]
  else if decide (exchange = "coinbase") then
    [("apiKey", COINBASE_API_KEY config); ("secret", COINBASE_API_SECRET config)]
  else [].

(** The process: the global [rate_limiter], the [_exchanges] dict of the
    global [exchange_connector], and the outside world. *)
Record App : Type := mkApp {
  rate_limiter : RateLimiter;
  _exchanges : gmap string Exchange;
  world : W
}.

Definition on_limiter {A} (m : M RateLimiter A) : X App A :=
  fun app =>
    let '(r, rl) := m (rate_limiter app) in
    (of_core r, mkApp rl (_exchanges app) (world app)).

Definition on_world {A} (f : W -> (error + A) * W) : X App A :=
  fun app =>
    let '(r, w) := f (world app) in
    (of_library r, mkApp (rate_limiter app) (_exchanges app) w).

Definition set_exchanges
    (f : gmap string Exchange -> gmap string Exchange) (app : App) : App :=
  mkApp (rate_limiter app) (f (_exchanges app)) (world app).

(** [ExchangeConnector._get_exchange(exchange_name)] *)
Definition _get_exchange (exchange_name : string) : X App Exchange :=
  let exchange_name := lower exchange_name in
  if bool_decide (exchange_name ∉ SUPPORTED_EXCHANGES) then
    xthrow (ExchangeNotSupportedError
              ("Exchange '" +:+ exchange_name +:+ "' not supported. " +:+
               "Supported: " +:+ String.concat ", " SUPPORTED_EXCHANGES))
  else
    xbind (xgets id) (fun app =>
    match _exchanges app !! exchange_name with
    | Some exchange => xret exchange
    | None =>
        xtry
          (xbind
             (match getattr_ccxt exchange_name with
              | Some c => xret c
              | None =>
                  xthrow (AttributeError
                            ("module 'ccxt' has no attribute '" +:+
                             exchange_name +:+ "'"))
              end) (fun exchange_class =>
           let credentials := get_exchange_credentials exchange_name in
           xbind
             (on_world
                (new_exchange exchange_class
                   ([("enableRateLimit", VBool true); ("timeout", VInt 30000)]
                    ++ credentials))) (fun exchange =>
           xbind (on_world (load_markets exchange)) (fun _ =>
           xbind (xmodify (set_exchanges <[exchange_name := exchange]>))
             (fun _ =>
           xret exchange)))))
          (fun e =>
             match e with
             | AttributeError _ =>
                 xthrow (ExchangeNotSupportedError
                           ("Exchange '" +:+ exchange_name +:+
                            "' not found in CCXT"))
             | _ =>
                 xthrow (ExchangeConnectionError
                           ("Failed to connect to " +:+ exchange_name +:+
                            ": " +:+ message e))
             end)
    end).

(** [ticker.get(k)] *)
Definition dict_get (d : gmap string value) (k : string) : value :=
  default VNone (d !! k).

(** The dict that [get_ticker_sync] returns, in the order it is written. *)
Definition ticker_dict (symbol exchange_name : string)
    (ticker : gmap string value) : list (string * value) :=
  [("symbol", default (VStr symbol) (ticker !! "symbol"));
   ("exchange", VStr exchange_name);
   ("timestamp", dict_get ticker "timestamp");
   ("datetime", dict_get ticker "datetime");
   ("last", dict_get ticker "last");
   ("bid", dict_get ticker "bid");
   ("ask", dict_get ticker "ask");
   ("high", dict_get ticker "high");
   ("low", dict_get ticker "low");
   ("volume", dict_get ticker "baseVolume");
   ("quote_volume", dict_get ticker "quoteVolume");
   ("change", dict_get ticker "change");
   ("percentage", dict_get ticker "percentage")].

(** The exception that the two [except] clauses of [get_ticker_sync]
    raise for the exception [e] they catch. *)
Definition ticker_error (symbol exchange_name : string) (e : error) : error :=
  match e with
  | BadSymbol _ =>
      InvalidSymbolError
        ("Invalid symbol '" +:+ symbol +:+ "' on " +:+ exchange_name +:+
         ": " +:+ message e)
  | _ => DataFetchError ("Failed to fetch ticker: " +:+ message e)
  end.

(** [ExchangeConnector.get_ticker_sync(symbol, exchange_name)];
    [t_check] and [now] are the two clock readings of
    [rate_limiter.record_request]. *)
Definition get_ticker_sync (symbol exchange_name : string) (t_check now : Z)
    : X App (list (string * value)) :=
  xtry
    (xbind (on_limiter (record_request exchange_name t_check now)) (fun _ =>
     xbind (_get_exchange exchange_name) (fun exchange =>
     xbind (on_world (fetch_ticker exchange symbol)) (fun ticker =>
     xret (ticker_dict symbol exchange_name ticker)))))
    (fun e => xthrow (ticker_error symbol exchange_name e)).

(** [ExchangeConnector.close(exchange_name)]; [None] and the empty string
    are falsy. *)
Definition close (exchange_name : option string) : X App unit :=
  match exchange_name with
  | Some name =>
      if decide (name = "") then xmodify (set_exchanges (fun _ => ∅))
      else
        xbind (xgets id) (fun app =>
        match _exchanges app !! name with
        | Some _ => xmodify (set_exchanges (delete name))
        | None => xret tt
        end)
  | None => xmodify (set_exchanges (fun _ => ∅))
  end.

(** [validate_exchange(exchange, supported_exchanges)] of validators.py *)
Definition validate_exchange (exchange : string)
    (supported_exchanges : list string) : res string :=
  let exchange_lower := lower exchange in
  if bool_decide (exchange_lower ∉ supported_exchanges) then
    Throw (ValidationError
             ("Exchange '" +:+ exchange +:+ "' not supported. " +:+
              "Supported exchanges: " +:+
              String.concat ", " supported_exchanges))
  else Return exchange_lower.

(** *** Histories of calls on the connector *)

Inductive call : Type :=
| CallGetExchange (exchange_name : string)
| CallGetTickerSync (symbol exchange_name : string) (t_check now : Z)
| CallClose (exchange_name : option string).

(** The process after a call, however the call ended. *)
Definition after_call (c : call) (app : App) : App :=
  match c with
  | CallGetExchange name => (_get_exchange name app).2
  | CallGetTickerSync symbol name t_check now =>
      (get_ticker_sync symbol name t_check now app).2
  | CallClose name => (close name app).2
  end.

Definition after_calls (h : list call) (app : App) : App :=
  foldl (fun app c => after_call c app) app h.

(** The process at start-up: the limiter as configured, no connection. *)
Definition start (max_requests time_window : Z) (w : W) : App :=
  mkApp (init max_requests time_window) ∅ w.

End Library.

Arguments rate_limiter {W Exchange} _.
Arguments _exchanges {W Exchange} _.
Arguments world {W Exchange} _.
Arguments mkApp {W Exchange} _ _ _.

(** A lowercase for the letters of ASCII, for use in examples. *)
Definition ascii_lower_char (c : ascii) : ascii :=
  let n := nat_of_ascii c in
  if bool_decide (65 ≤ n ≤ 90)%nat then ascii_of_nat (n + 32) else c.

Fixpoint ascii_lower (s : string) : string :=
  match s with
  | EmptyString => EmptyString
  | String c rest => String (ascii_lower_char c) (ascii_lower rest)
  end.

(** A library for examples.  The world counts the library calls made;
    every exchange class exists but [gate]; [kraken] does not answer;
    no exchange has the symbol [BAD]. *)
Definition demo_getattr (name : string) : option string :=
  if decide (name = "gate") then None else Some name.

Definition demo_new (c : string) (options : list (string * value)) (w : nat)
    : (error + string) * nat :=
  (inr c, S w).

Definition demo_load (exchange : string) (w : nat) : (error + unit) * nat :=
  if decide (exchange = "kraken")
  then (inl (LibraryError "kraken request timed out"), S w)
  else (inr tt, S w).

Definition demo_fetch (exchange symbol : string) (w : nat)
    : (error + gmap string value) * nat :=
  if decide (symbol = "BAD")
  then (inl (BadSymbol (exchange +:+ " does not have market symbol BAD")), S w)
  else (inr {[ "last" := VInt 42 ]}, S w).

Definition demo_config : Config := mkConfig VNone VNone VNone VNone.

Definition demo_get_exchange :=
  _get_exchange nat string string ascii_lower demo_getattr demo_new demo_load
    demo_config.

Definition demo_ticker_sync :=
  get_ticker_sync nat string string ascii_lower demo_getattr demo_new
    demo_load demo_fetch demo_config.

Definition demo_after_calls :=
  after_calls nat string string ascii_lower demo_getattr demo_new demo_load
    demo_fetch demo_config.

Definition demo_start (max_requests time_window : Z) : App nat string :=
  start nat string max_requests time_window 0%nat.

End ExchangeModel.

(** * Histories of admitted requests *)

Module RateLimiterHistory.
Import RateLimiterModel.

(** The key a call is about; [reset_all] is about every key. *)
Definition call_key (c : call) : option string :=
  match c with
  | CallCheckLimit key _ | CallRecordRequest key _ _
  | CallGetRemainingRequests key _ | CallReset key => Some key
  | CallResetAll => None
  end.

(** A call about one key, and not about [key]. *)
Definition on_other_key (key : string) (c : call) : Prop :=
  ∃ k, call_key c = Some k ∧ k ≠ key.

(** The timestamps recorded for [key] since its last reset, after one more
    call [c] on the limiter [rl]: a [record_request] on the key that returns
    adds its timestamp, a reset of the key forgets them. *)
Definition admitted_step (key : string) (c : call) (rl : RateLimiter)
    (acc : list Z) : list Z :=
  match c with
  | CallRecordRequest k t_check now =>
      if decide (k = key) then
        match (record_request k t_check now rl).1 with
        | Ok _ => acc ++ [now]
        | _ => acc
        end
      else acc
  | CallReset k => if decide (k = key) then [] else acc
  | CallResetAll => []
  | _ => acc
  end.

(** The timestamps recorded for [key] since its last reset in the course
    of a history, oldest first. *)
Fixpoint admitted (key : string) (h : list call) (rl : RateLimiter)
    (acc : list Z) : list Z :=
  match h with
  | [] => acc
  | c :: rest => admitted key rest (after_call c rl) (admitted_step key c rl acc)
  end.

(** How the recorded timestamps relate to the limiter when the clock has
    been read up to [T]: they are the window of the key preceded by the
    timestamps the purges dropped, all of them older than the window that
    ends at [T]; and no interval of length [time_window] holds more than
    [max_requests] of them. *)
Definition admission_inv (key : string) (T : Z) (rl : RateLimiter)
    (acc : list Z) : Prop :=
  (∃ dropped, acc = dropped ++ window key rl ∧
     Forall (fun t => t < T - time_window rl) dropped) ∧
  ∀ a, Z.of_nat (length (filter (fun t => a ≤ t ≤ a + time_window rl) acc))
         ≤ max_requests rl.

End RateLimiterHistory.

(** * List facts used by several components *)

Module ListFacts.

Lemma filter_Forall_id {A} (P : A → Prop) `{∀ x, Decision (P x)} (l : list A) :
  Forall P l → filter P l = l.
Proof.
  induction 1 as [|x l Hx Hl IH]; [done|].
  by rewrite filter_cons_True, IH.
Qed.

Lemma StronglySorted_filter {A} (R : relation A) (P : A → Prop)
    `{∀ x, Decision (P x)} (l : list A) :
  StronglySorted R l → StronglySorted R (filter P l).
Proof.
  induction 1 as [|x l Hs IH Hall]; [constructor|].
  destruct (decide (P x)).
  - rewrite filter_cons_True by done. constructor; [done|].
    apply Forall_forall. intros y [_ Hy]%list_elem_of_filter.
    rewrite Forall_forall in Hall. by apply Hall.
  - by rewrite filter_cons_False.
Qed.

Lemma Forall_filter_weak {A} (Q P : A → Prop) `{∀ x, Decision (P x)} (l : list A) :
  Forall Q l → Forall Q (filter P l).
Proof.
  rewrite !Forall_forall. intros Hall y [_ Hy]%list_elem_of_filter. by apply Hall.
Qed.

Lemma last_cons_default {A} (l : list A) a d :
  List.last (a :: l) d = List.last l a.
Proof.
  revert a d. induction l as [|b l IH]; intros a d; [done|].
  change (List.last (a :: b :: l) d) with (List.last (b :: l) d).
  by rewrite !IH.
Qed.

Lemma last_app_default {A} (l1 l2 : list A) d :
  List.last (l1 ++ l2) d = List.last l2 (List.last l1 d).
Proof.
  revert d. induction l1 as [|a l1 IH]; intros d; [done|].
  rewrite <- app_comm_cons, !last_cons_default. apply IH.
Qed.

End ListFacts.

(** * Properties of the rate limiter *)

Module RateLimiterProps.
Import RateLimiterModel ListFacts.

Ltac run_m :=
  unfold bind, ret, raise, gets, modify, try_except, on_field, id; simpl.

Lemma popleft_while_suffix bound dq : popleft_while bound dq `suffix_of` dq.
Proof.
  induction dq as [|t dq IH]; simpl; [done|].
  case_bool_decide; [|done].
  by apply suffix_cons_r.
Qed.

Lemma popleft_while_split bound dq :
  ∃ stale, dq = stale ++ popleft_while bound dq ∧ Forall (fun t => t < bound) stale.
Proof.
  induction dq as [|t dq (stale & Hdq & Hst)]; simpl.
  - by exists [].
  - case_bool_decide.
    + exists (t :: stale). split; [by rewrite Hdq at 1|by constructor].
    + by exists [].
Qed.

Lemma popleft_while_head bound dq t rest :
  popleft_while bound dq = t :: rest → bound ≤ t.
Proof.
  induction dq as [|t' dq IH]; simpl; [done|].
  case_bool_decide; [done|]. intros [= -> ->]. lia.
Qed.

Lemma popleft_while_length bound dq :
  (length (popleft_while bound dq) ≤ length dq)%nat.
Proof. apply suffix_length, popleft_while_suffix. Qed.

Lemma check_limit_eq key now rl :
  let purged := popleft_while (now - time_window rl) (window key rl) in
  check_limit key now rl =
    (Ok (bool_decide (Z.of_nat (length purged) < max_requests rl)),
     set_requests <[key := purged]> rl).
Proof.
  destruct rl as [mx tw reqs]. unfold window, check_limit, ensure_key,
    _clean_old_requests, requests_getitem. run_m.
  destruct (reqs !! key) as [dq|] eqn:E; run_m.
  - rewrite E. run_m. rewrite lookup_insert_eq. done.
  - rewrite lookup_insert_eq. run_m. rewrite lookup_insert_eq.
    unfold set_requests; simpl. by rewrite insert_insert_eq.
Qed.

Lemma get_remaining_requests_eq key now rl :
  get_remaining_requests key now rl =
    match _requests rl !! key with
    | None => (Ok (max_requests rl), rl)
    | Some dq =>
        let purged := popleft_while (now - time_window rl) dq in
        (Ok (Z.max 0 (max_requests rl - Z.of_nat (length purged))),
         set_requests <[key := purged]> rl)
    end.
Proof.
  destruct rl as [mx tw reqs]. unfold get_remaining_requests,
    _clean_old_requests, requests_getitem. run_m.
  destruct (reqs !! key) as [dq|] eqn:E; run_m; [|done].
  rewrite E. run_m. by rewrite lookup_insert_eq.
Qed.

Lemma record_request_eq key t_check now rl :
  let purged := popleft_while (t_check - time_window rl) (window key rl) in
  record_request key t_check now rl =
    if bool_decide (Z.of_nat (length purged) < max_requests rl)
    then (Ok tt, set_requests <[key := purged ++ [now]]> rl)
    else (Raise (RateLimitError (rate_limit_message key rl)),
          set_requests <[key := purged]> rl).
Proof.
  intros purged. unfold record_request, bind at 1.
  rewrite check_limit_eq. fold purged.
  destruct rl as [mx tw reqs]. simpl in *.
  case_bool_decide; simpl; [|done].
  unfold ensure_key, requests_getitem. run_m.
  rewrite lookup_insert_eq. run_m. rewrite lookup_insert_eq.
  unfold set_requests; simpl. by rewrite insert_insert_eq.
Qed.

Lemma window_set_requests_eq key w rl :
  window key (set_requests <[key := w]> rl) = w.
Proof. unfold window, set_requests; simpl. by rewrite lookup_insert_eq. Qed.

Lemma window_set_requests_ne key key' w rl :
  key ≠ key' → window key' (set_requests <[key := w]> rl) = window key' rl.
Proof.
  intros. unfold window, set_requests; simpl. by rewrite lookup_insert_ne.
Qed.

Lemma popleft_while_mono b1 b2 dq :
  b1 ≤ b2 → popleft_while b2 (popleft_while b1 dq) = popleft_while b2 dq.
Proof.
  intros Hb. induction dq as [|t dq IH]; simpl; [done|].
  case_bool_decide as H1.
  - rewrite IH. rewrite bool_decide_true by lia. done.
  - done.
Qed.

Lemma popleft_while_sorted bound dq :
  Sorted Z.le dq →
  popleft_while bound dq = filter (fun t => bound ≤ t) dq.
Proof.
  intros Hs. apply Sorted_StronglySorted in Hs; [|intros ???; lia].
  induction Hs as [|t dq Hs IH Hall]; simpl; [done|].
  case_bool_decide.
  - rewrite filter_cons_False by lia. done.
  - rewrite filter_cons_True by lia. f_equal.
    symmetry. apply filter_Forall_id.
    eapply Forall_impl; [exact Hall|]. simpl. lia.
Qed.

Lemma clean_old_requests_window key now rl :
  window key (_clean_old_requests key now rl).2 =
    popleft_while (now - time_window rl) (window key rl).
Proof.
  destruct rl as [mx tw reqs]. unfold _clean_old_requests, window. run_m.
  destruct (reqs !! key) as [dq|] eqn:E; run_m.
  - by rewrite lookup_insert_eq.
  - by rewrite E.
Qed.



(** C1, as stated, fails: on a limiter built with a negative
    [max_requests], [record_request] on a key never seen raises, and
    [get_remaining_requests] returns [max_requests] before the rejected
    call and 0 after it. *)
Lemma negative_limit_never_seen_key :
  let rl := init (-1) 60 in
  (get_remaining_requests "k" 5 rl).1 = Ok (-1) ∧
  (record_request "k" 5 5 rl).1 =
    Raise (RateLimitError
             "Rate limit exceeded for k. Maximum -1 requests per 60s") ∧
  (get_remaining_requests "k" 5 (record_request "k" 5 5 rl).2).1 = Ok 0.
Proof. split_and!; reflexivity. Qed.

(** C1, amended: when [record_request] raises, the exception is the
    [RateLimitError] whose message is built from the key, [max_requests]
    and [time_window]; the key's window is the purged window, a suffix of
    what it was, with no timestamp appended; and
    [get_remaining_requests], read at the instant of the rejected call,
    returns what it returned before the call, unless [max_requests] is
    negative and the key had never been seen: then it returned
    [max_requests] before the call and returns 0 after it. *)
Theorem record_request_rejected_no_append
    (key : string) (t_before t_check now r_before : Z)
    (rl0 rl rl' : RateLimiter) (e : exn) :
  get_remaining_requests key t_before rl0 = (Ok r_before, rl) →
  record_request key t_check now rl = (Raise e, rl') →
  e = RateLimitError
        ("Rate limit exceeded for " +:+ key +:+ ". Maximum " +:+
         pretty (max_requests rl) +:+ " requests per " +:+
         pretty (time_window rl) +:+ "s") ∧
  window key rl' = popleft_while (t_check - time_window rl) (window key rl) ∧
  window key rl' `suffix_of` window key rl ∧
  (0 ≤ max_requests rl0 ∨ is_Some (_requests rl0 !! key) →
   get_remaining_requests key t_check rl' = (Ok r_before, rl')) ∧
  (max_requests rl0 < 0 → _requests rl0 !! key = None →
   r_before = max_requests rl0 ∧
   get_remaining_requests key t_check rl' = (Ok 0, rl')).
Proof.
  intros Hbefore Hrec.
  rewrite record_request_eq in Hrec.
  case_bool_decide as Hlen; [done|]. simplify_eq.
  split; [done|]. rewrite window_set_requests_eq.
  split; [done|]. split; [apply popleft_while_suffix|].
  rewrite get_remaining_requests_eq in Hbefore |- *.
  destruct rl0 as [mx tw reqs]. unfold window in *. simpl in *.
  destruct (reqs !! key) as [dq|] eqn:E; simplify_eq/=.
  - rewrite !lookup_insert_eq in *. simpl in *.
    set (kept := popleft_while (t_before - tw) dq) in *.
    rewrite (popleft_while_mono (t_check - tw) (t_check - tw)) by lia.
    unfold set_requests; simpl. rewrite !insert_insert_eq.
    pose proof (popleft_while_length (t_check - tw) kept).
    split; [|done]. intros _. do 2 f_equal. lia.
  - rewrite E in *. simpl in *. rewrite lookup_insert_eq. simpl.
    unfold set_requests; simpl. rewrite insert_insert_eq.
    split.
    + intros [Hmx|[? [=]]]. do 2 f_equal. lia.
    + intros Hmx _. split; [done|]. do 2 f_equal. lia.
Qed.

Lemma record_request_rejected_no_append_witness :
  let rl0 := mkRateLimiter 1 60 {[ "kraken" := [10] ]} in
  let rl := (get_remaining_requests "kraken" 20 rl0).2 in
  let rl' := (record_request "kraken" 25 25 rl).2 in
  window "kraken" rl' = [10] ∧
  get_remaining_requests "kraken" 25 rl' = (Ok 0, rl').
Proof.
  intros rl0 rl rl'.
  destruct (record_request_rejected_no_append "kraken" 20 25 25 0 rl0 rl rl'
              (RateLimitError (rate_limit_message "kraken" rl)))
    as (_ & Hw & _ & Hr & _).
  - reflexivity.
  - reflexivity.
  - split; [rewrite Hw; reflexivity|]. apply Hr. left. simpl. lia.
Defined.

Import Invariants.

Lemma popleft_while_Sorted bound dq :
  Sorted Z.le dq → Sorted Z.le (popleft_while bound dq).
Proof.
  induction dq as [|t dq IH]; simpl; [done|].
  intros Hs. case_bool_decide; [|done].
  apply IH. by inversion Hs.
Qed.

Lemma popleft_while_Forall (P : Z → Prop) bound dq :
  Forall P dq → Forall P (popleft_while bound dq).
Proof.
  induction 1 as [|t dq Ht Hdq IH]; simpl; [done|].
  case_bool_decide; [done|by constructor].
Qed.

Lemma Sorted_le_snoc (l : list Z) (x : Z) :
  Sorted Z.le l → Forall (fun t => t ≤ x) l → Sorted Z.le (l ++ [x]).
Proof.
  induction l as [|a l IH]; simpl; intros Hs Hall.
  - repeat constructor.
  - inversion Hs as [|?? Hs' Hhd]; inversion Hall as [|?? Ha Hall']; subst.
    constructor; [by apply IH|].
    destruct l as [|b l]; simpl; constructor; [done|].
    by inversion Hhd.
Qed.

Lemma window_inv_mono T T' rl :
  T ≤ T' → window_inv T rl → window_inv T' rl.
Proof.
  intros HT Hinv key dq Hdq. destruct (Hinv key dq Hdq) as (? & ? & Hall).
  repeat split; [done..|]. eapply Forall_impl; [exact Hall|]. simpl. lia.
Qed.

Lemma window_inv_window T rl key :
  0 ≤ max_requests rl → window_inv T rl →
  Z.of_nat (length (window key rl)) ≤ max_requests rl ∧
  Sorted Z.le (window key rl) ∧
  Forall (fun t => t ≤ T) (window key rl).
Proof.
  intros Hmx Hinv. unfold window.
  destruct (_requests rl !! key) as [dq|] eqn:E; simpl.
  - by apply (Hinv key).
  - repeat split; [simpl; lia|constructor|constructor].
Qed.

Lemma window_inv_insert T rl key w :
  window_inv T rl →
  Z.of_nat (length w) ≤ max_requests rl →
  Sorted Z.le w →
  Forall (fun t => t ≤ T) w →
  window_inv T (set_requests <[key := w]> rl).
Proof.
  intros Hinv Hlen Hs Hall k dq. unfold set_requests; simpl.
  rewrite lookup_insert. case_decide; [|by apply Hinv].
  by intros [= <-].
Qed.

Lemma window_inv_purge T now rl key :
  0 ≤ max_requests rl → T ≤ now → window_inv T rl →
  window_inv now
    (set_requests
       <[key := popleft_while (now - time_window rl) (window key rl)]> rl).
Proof.
  intros Hmx HT Hinv.
  destruct (window_inv_window T rl key Hmx Hinv) as (Hlen & Hs & Hall).
  apply window_inv_insert.
  - by eapply window_inv_mono.
  - pose proof (popleft_while_length (now - time_window rl) (window key rl)).
    lia.
  - by apply popleft_while_Sorted.
  - apply popleft_while_Forall. eapply Forall_impl; [exact Hall|].
    simpl; lia.
Qed.

Lemma after_call_config c rl :
  max_requests (after_call c rl) = max_requests rl ∧
  time_window (after_call c rl) = time_window rl.
Proof.
  destruct c as [key t|key t1 t2|key t|key|]; simpl.
  - by rewrite check_limit_eq.
  - rewrite record_request_eq. by case_bool_decide.
  - rewrite get_remaining_requests_eq. by destruct (_requests rl !! key).
  - unfold reset. run_m. by destruct (_requests rl !! key).
  - done.
Qed.

Lemma after_call_inv T c rl :
  0 ≤ max_requests rl →
  window_inv T rl →
  monotonic_from T (readings c) →
  window_inv (List.last (readings c) T) (after_call c rl).
Proof.
  intros Hmx Hinv Hmono.
  destruct c as [key t|key t1 t2|key t|key|]; simpl in *.
  - destruct Hmono as [H1 _]. rewrite check_limit_eq. simpl.
    by apply (window_inv_purge T).
  - destruct Hmono as (H1 & H2 & _).
    rewrite record_request_eq.
    pose proof (window_inv_purge T t1 rl key Hmx H1 Hinv) as Hp.
    set (purged := popleft_while (t1 - time_window rl) (window key rl)) in *.
    pose proof (Hp key purged) as Hk. unfold set_requests in Hk; simpl in Hk.
    rewrite lookup_insert_eq in Hk. destruct (Hk eq_refl) as (Hlen & Hs & Hall).
    case_bool_decide as Hlt; simpl.
    + apply window_inv_insert.
      * apply (window_inv_mono T); [lia|done].
      * rewrite length_app. simpl. lia.
      * apply Sorted_le_snoc; [done|].
        eapply Forall_impl; [exact Hall|]. simpl; lia.
      * apply Forall_app. split; [|by repeat constructor].
        eapply Forall_impl; [exact Hall|]. simpl; lia.
    + by apply (window_inv_mono t1).
  - rewrite get_remaining_requests_eq.
    destruct Hmono as (H1 & _).
    destruct (_requests rl !! key) as [dq|] eqn:E; simpl.
    + replace dq with (window key rl) by (unfold window; by rewrite E).
      by apply (window_inv_purge T).
    + by apply (window_inv_mono T).
  - unfold reset. run_m.
    destruct (_requests rl !! key) as [dq|] eqn:E; simpl; [|done].
    apply window_inv_insert; [done|simpl; lia|constructor|constructor].
  - intros key dq. unfold reset_all. run_m. by rewrite lookup_empty.
Qed.

Lemma monotonic_from_app t0 l1 l2 :
  monotonic_from t0 (l1 ++ l2) ↔
  monotonic_from t0 l1 ∧ monotonic_from (List.last l1 t0) l2.
Proof.
  revert t0. induction l1 as [|t l1 IH]; intros t0.
  - simpl. tauto.
  - rewrite last_cons_default. simpl. rewrite IH. tauto.
Qed.

Lemma after_calls_inv h : ∀ T rl,
  0 ≤ max_requests rl →
  window_inv T rl →
  clock_monotonic T h →
  window_inv (last_reading T h) (after_calls h rl) ∧
  max_requests (after_calls h rl) = max_requests rl ∧
  time_window (after_calls h rl) = time_window rl.
Proof.
  induction h as [|c h IH]; intros T rl Hmx Hinv Hmono; [done|].
  unfold clock_monotonic, last_reading in *. simpl in *.
  apply monotonic_from_app in Hmono as [Hc Hh].
  rewrite last_app_default.
  destruct (after_call_config c rl) as [Hm Ht].
  destruct (IH (List.last (readings c) T) (after_call c rl)) as (? & ? & ?).
  { lia. }
  { by apply after_call_inv. }
  { exact Hh. }
  split; [assumption|split; congruence].
Qed.

Lemma window_inv_init T mx tw : window_inv T (init mx tw).
Proof. intros key dq. unfold init; simpl. by rewrite lookup_empty. Qed.

(** ** What holds without a monotonic clock, and with a negative limit *)

Lemma after_call_length c rl :
  0 ≤ max_requests rl →
  (∀ key dq, _requests rl !! key = Some dq →
     Z.of_nat (length dq) ≤ max_requests rl) →
  ∀ key dq, _requests (after_call c rl) !! key = Some dq →
    Z.of_nat (length dq) ≤ max_requests rl.
Proof.
  intros Hmx Hinv.
  assert (∀ k b, Z.of_nat (length (popleft_while b (window k rl)))
                 ≤ max_requests rl) as Hp.
  { intros k b. pose proof (popleft_while_length b (window k rl)) as Hl.
    unfold window in *. destruct (_requests rl !! k) as [dq|] eqn:E; simpl in *.
    - specialize (Hinv k dq E). lia.
    - lia. }
  destruct c as [k t|k t1 t2|k t|k|]; simpl; intros key dq.
  - rewrite check_limit_eq. simpl. rewrite lookup_insert.
    case_decide; [intros [= <-]; apply Hp|apply Hinv].
  - rewrite record_request_eq. case_bool_decide as Hlt; simpl;
      rewrite lookup_insert; (case_decide; [intros [= <-]|apply Hinv]).
    + rewrite length_app. simpl. lia.
    + apply Hp.
  - rewrite get_remaining_requests_eq.
    destruct (_requests rl !! k) as [dq0|] eqn:E; simpl; [|apply Hinv].
    rewrite lookup_insert. case_decide; [intros [= <-]|apply Hinv].
    specialize (Hp k (t - time_window rl)). unfold window in Hp.
    by rewrite E in Hp.
  - unfold reset. run_m.
    destruct (_requests rl !! k) as [dq0|] eqn:E; simpl; [|apply Hinv].
    rewrite lookup_insert. case_decide; [intros [= <-]; simpl; lia|apply Hinv].
  - unfold reset_all. run_m. by rewrite lookup_empty.
Qed.

Lemma after_calls_length h : ∀ rl,
  0 ≤ max_requests rl →
  (∀ key dq, _requests rl !! key = Some dq →
     Z.of_nat (length dq) ≤ max_requests rl) →
  ∀ key dq, _requests (after_calls h rl) !! key = Some dq →
    Z.of_nat (length dq) ≤ max_requests rl.
Proof.
  induction h as [|c h IH]; intros rl Hmx Hinv; [done|]. simpl.
  destruct (after_call_config c rl) as [Hm _].
  intros key dq Hdq. rewrite <- Hm.
  apply (IH (after_call c rl)) with key; [lia| |done].
  intros k d Hd. rewrite Hm. by apply (after_call_length c rl Hmx Hinv k).
Qed.

Lemma after_call_closed c rl :
  max_requests rl < 0 →
  (∀ key, window key rl = []) →
  ∀ key, window key (after_call c rl) = [].
Proof.
  intros Hmx Hinv.
  assert (∀ k w key, window key (set_requests <[k := w]> rl)
                     = if decide (k = key) then w else []) as Hset.
  { intros k w key. case_decide as Hk.
    - subst. apply window_set_requests_eq.
    - rewrite window_set_requests_ne by done. apply Hinv. }
  destruct c as [k t|k t1 t2|k t|k|]; simpl; intros key.
  - rewrite check_limit_eq. simpl. rewrite Hset, Hinv. by case_decide.
  - rewrite record_request_eq, Hinv. simpl.
    rewrite bool_decide_false by lia. simpl. rewrite Hset. by case_decide.
  - rewrite get_remaining_requests_eq.
    destruct (_requests rl !! k) as [dq0|] eqn:E; simpl; [|apply Hinv].
    rewrite Hset. case_decide; [|done].
    pose proof (Hinv k) as Hk. unfold window in Hk. rewrite E in Hk.
    simpl in Hk. by subst.
  - unfold reset. run_m.
    destruct (_requests rl !! k) as [dq0|] eqn:E; simpl; [|apply Hinv].
    fold (set_requests <[k := []]> rl). rewrite Hset. by case_decide.
  - unfold reset_all, window. run_m. by rewrite lookup_empty.
Qed.

Lemma after_calls_closed h : ∀ rl,
  max_requests rl < 0 →
  (∀ key, window key rl = []) →
  ∀ key, window key (after_calls h rl) = [].
Proof.
  induction h as [|c h IH]; intros rl Hmx Hinv; [done|]. simpl.
  destruct (after_call_config c rl) as [Hm _].
  apply IH; [lia|]. by apply after_call_closed.
Qed.

(** C9, as stated, fails.  With a negative [max_requests] the window
    that [check_limit] creates is empty and yet longer than
    [max_requests].  With a clock that steps back, a purge retains a
    timestamp later than its reading; and a stale timestamp recorded
    behind a fresh one survives the purge. *)
Lemma window_invariant_needs_limit_and_clock :
  (let rl := after_calls [CallCheckLimit "k" 0] (init (-1) 60) in
   _requests rl !! "k" = Some [] ∧
   ¬ Z.of_nat (length (window "k" rl)) ≤ max_requests rl) ∧
  (let rl := after_calls [CallRecordRequest "k" 100 100; CallCheckLimit "k" 50]
               (init 2 60) in
   window "k" rl = [100] ∧ ¬ (50 - 60 ≤ 100 ≤ 50)) ∧
  (let rl := after_calls [CallRecordRequest "k" 100 100;
                          CallRecordRequest "k" 10 10; CallCheckLimit "k" 105]
               (init 2 60) in
   window "k" rl = [100; 10] ∧ ¬ (105 - 60 ≤ 10 ≤ 105)).
Proof.
  split; [|split]; intros rl; (split; [reflexivity|]); [|lia..].
  intros Hle. vm_compute in Hle. by apply Hle.
Qed.

(** C9, amended: after every history of calls on a limiter built with a
    non-negative [max_requests], the window of every key holds at most
    [max_requests] timestamps, whatever the clock does; and when the clock
    never runs backwards, whatever [max_requests] is, the timestamps a
    purge at any later reading [now] retains all lie in
    [[now - time_window, now]]. *)
Theorem window_invariant
    (mx tw t0 : Z) (h : list call) (key : string) :
  let rl := after_calls h (init mx tw) in
  (0 ≤ mx → Z.of_nat (length (window key rl)) ≤ mx) ∧
  (clock_monotonic t0 h →
   ∀ now, last_reading t0 h ≤ now →
     Forall (fun t => now - tw ≤ t ≤ now)
       (window key (_clean_old_requests key now rl).2)).
Proof.
  intros rl. split.
  - intros Hmx. unfold window.
    destruct (_requests rl !! key) as [dq|] eqn:E; simpl; [|lia].
    apply (after_calls_length h (init mx tw) Hmx) with key; [|done].
    intros k d. simpl. by rewrite lookup_empty.
  - intros Hmono now Hnow. rewrite clean_old_requests_window.
    destruct (decide (0 ≤ mx)) as [Hmx|Hneg].
    + destruct (after_calls_inv h t0 (init mx tw) Hmx (window_inv_init _ _ _)
                  Hmono) as (Hinv & Hm & Ht).
      fold rl in Hinv, Hm, Ht. simpl in Hm, Ht.
      destruct (window_inv_window _ rl key ltac:(lia) Hinv) as (Hlen & Hs & Hall).
      rewrite Ht, popleft_while_sorted by done.
      apply Forall_forall. intros t [Ht1 Ht2]%list_elem_of_filter.
      rewrite Forall_forall in Hall. specialize (Hall t Ht2). simpl in *. lia.
    + unfold rl. rewrite (after_calls_closed h (init mx tw)); [done|simpl; lia|].
      intros k. unfold window. simpl. by rewrite lookup_empty.
Qed.

Lemma window_invariant_witness :
  let h := [CallRecordRequest "okx" 1 1; CallRecordRequest "okx" 2 3;
            CallRecordRequest "okx" 4 4; CallCheckLimit "okx" 50] in
  let rl := after_calls h (init 2 60) in
  Z.of_nat (length (window "okx" rl)) ≤ 2 ∧
  Forall (fun t => 62 - 60 ≤ t ≤ 62)
    (window "okx" (_clean_old_requests "okx" 62 rl).2).
Proof.
  intros h rl.
  destruct (window_invariant 2 60 0 h "okx") as [Hlen Hpurge].
  split; [apply Hlen; lia|]. apply Hpurge.
  - unfold clock_monotonic; simpl. lia.
  - vm_compute. discriminate.
Defined.

End RateLimiterProps.

(** * Properties of the key builder *)

Module BuildKeyProps.
Import CacheModel.

Lemma string_leb_iff (a b : string) :
  String.leb a b = true ↔ a = b ∨ OrderedTypeEx.String_as_OT.lt a b.
Proof.
  unfold String.leb.
  destruct (String.compare a b) eqn:E.
  - apply OrderedTypeEx.String_as_OT.cmp_eq in E. tauto.
  - apply OrderedTypeEx.String_as_OT.cmp_lt in E. tauto.
  - split; [done|]. intros [->|Hlt].
    + assert (String.compare b b = Eq) as Hb
        by by apply OrderedTypeEx.String_as_OT.cmp_eq.
      congruence.
    + apply OrderedTypeEx.String_as_OT.cmp_lt in Hlt.
      unfold OrderedTypeEx.String_as_OT.cmp in Hlt. congruence.
Qed.

Lemma string_leb_trans (a b c : string) :
  String.leb a b = true → String.leb b c = true → String.leb a c = true.
Proof.
  rewrite !string_leb_iff. intros [->|H1] [->|H2]; auto.
  right. by eapply OrderedTypeEx.String_as_OT.lt_trans.
Qed.

Lemma string_ltb_of_leb (a b : string) :
  String.leb a b = true → a ≠ b → String.ltb a b = true.
Proof.
  unfold String.leb, String.ltb. intros Hle Hne.
  destruct (String.compare a b) eqn:E; [|done..].
  by apply String.compare_eq_iff in E.
Qed.

Lemma item_le_trans : Transitive item_le.
Proof. intros p q r. unfold item_le. apply string_leb_trans. Qed.

Lemma item_le_total : Total item_le.
Proof. intros p q. unfold item_le. apply String.leb_total. Qed.

Lemma sorted_items_sorted kwargs : StronglySorted item_le (sorted_items kwargs).
Proof.
  pose proof item_le_trans. pose proof item_le_total.
  by apply StronglySorted_merge_sort.
Qed.

Lemma NoDup_fst_functional {A B} (l : list (A * B)) k v1 v2 :
  NoDup l.*1 → (k, v1) ∈ l → (k, v2) ∈ l → v1 = v2.
Proof.
  induction l as [|[k' v'] l IH]; simpl; [by intros _ ?%elem_of_nil|].
  intros [Hnot Hnd]%NoDup_cons.
  rewrite !elem_of_cons. intros [H1|H1] [H2|H2]; simplify_eq.
  - done.
  - exfalso. apply Hnot. apply list_elem_of_fmap. by exists (k', v2).
  - exfalso. apply Hnot. apply list_elem_of_fmap. by exists (k', v1).
  - by apply IH.
Qed.

Lemma sorted_items_perm_eq kwargs kwargs' :
  NoDup kwargs.*1 → kwargs ≡ₚ kwargs' →
  sorted_items kwargs = sorted_items kwargs'.
Proof.
  intros Hnd Hperm. unfold sorted_items.
  apply (StronglySorted_unique_strong item_le).
  - intros [k1 v1] [k2 v2] H1 H2 Hle1 Hle2.
    rewrite merge_sort_Permutation in H1, H2.
    rewrite <- Hperm in H2.
    unfold item_le in *; simpl in *.
    assert (k1 = k2) as -> by by apply String.leb_antisym.
    f_equal. by eapply NoDup_fst_functional.
  - apply sorted_items_sorted.
  - apply sorted_items_sorted.
  - by rewrite !merge_sort_Permutation.
Qed.

Lemma sorted_items_strict kwargs :
  NoDup kwargs.*1 →
  StronglySorted (fun p q => String.ltb p.1 q.1 = true) (sorted_items kwargs).
Proof.
  intros Hnd.
  assert (NoDup (sorted_items kwargs).*1) as Hnd'.
  { unfold sorted_items. by rewrite merge_sort_Permutation. }
  pose proof (sorted_items_sorted kwargs) as Hs.
  induction Hs as [|p l Hs IH Hall]; [constructor|].
  simpl in Hnd'. apply NoDup_cons in Hnd' as [Hnot Hnd'].
  constructor; [by apply IH|].
  apply Forall_forall. intros q Hq.
  rewrite Forall_forall in Hall.
  apply string_ltb_of_leb; [by apply Hall|].
  intros Heq. apply Hnot. rewrite Heq. by apply list_elem_of_fmap_2.
Qed.

(** C7: [build_key] joins with [":"] the positional arguments rendered by
    [str] in call order, followed by the named arguments rendered as
    [name=value] in strictly increasing order of name; and two calls that
    supply the same named arguments in a different order get the same
    key.  (Being a function of its arguments, [build_key] is
    deterministic.) *)
Theorem build_key_named_order_irrelevant
    (args : list value) (kwargs kwargs' : list (string * value)) :
  NoDup kwargs.*1 →
  kwargs ≡ₚ kwargs' →
  build_key args kwargs = build_key args kwargs' ∧
  ∃ named,
    named ≡ₚ kwargs ∧
    StronglySorted (fun p q => String.ltb p.1 q.1 = true) named ∧
    build_key args kwargs =
      String.concat ":"
        ((str <$> args) ++
         ((fun p : string * value => p.1 +:+ "=" +:+ str p.2) <$> named)).
Proof.
  intros Hnd Hperm. split.
  - unfold build_key, key_parts. by rewrite (sorted_items_perm_eq _ _ Hnd Hperm).
  - exists (sorted_items kwargs). split; [apply merge_sort_Permutation|].
    split; [by apply sorted_items_strict|done].
Qed.

Lemma build_key_named_order_irrelevant_witness :
  build_key [VStr "a"; VStr "b"] [("x", VInt 1); ("y", VInt 2)] =
  build_key [VStr "a"; VStr "b"] [("y", VInt 2); ("x", VInt 1)] ∧
  build_key [VStr "a"; VStr "b"] [("y", VInt 2); ("x", VInt 1)] = "a:b:x=1:y=2".
Proof.
  split; [|reflexivity].
  apply (build_key_named_order_irrelevant
           [VStr "a"; VStr "b"] [("x", VInt 1); ("y", VInt 2)]
           [("y", VInt 2); ("x", VInt 1)]).
  - simpl. apply NoDup_cons. split; [|apply NoDup_singleton].
    intros ?%list_elem_of_singleton. discriminate.
  - apply perm_swap.
Defined.

Import Invariants.

Lemma sep_free_not_app x y r : sep_free x → x ≠ y +:+ ":" +:+ r.
Proof.
  unfold sep_free. revert x. induction y as [|a y IH]; intros x Hx ->.
  - simpl in Hx. try case_decide; done.
  - simpl in Hx. case_decide; [done|]. by eapply IH.
Qed.

Lemma sep_free_split x x' r r' :
  sep_free x → sep_free x' →
  x +:+ ":" +:+ r = x' +:+ ":" +:+ r' → x = x' ∧ r = r'.
Proof.
  unfold sep_free. revert x'.
  induction x as [|a x IH]; intros [|a' x'] Hx Hx' Heq; simpl in *.
  - by simplify_eq.
  - injection Heq as <- Heq. try case_decide; done.
  - injection Heq as -> Heq. try case_decide; done.
  - injection Heq as -> Heq. repeat case_decide; try done.
    destruct (IH x' Hx Hx' Heq) as [-> ->]. done.
Qed.

Lemma concat_sep_free_inj (l1 l2 : list string) :
  Forall sep_free l1 → Forall sep_free l2 →
  l1 ≠ [] → l2 ≠ [] →
  String.concat ":" l1 = String.concat ":" l2 → l1 = l2.
Proof.
  revert l2. induction l1 as [|x l1 IH]; intros l2 H1 H2 Hn1 Hn2 Heq; [done|].
  destruct l2 as [|x' l2]; [done|].
  apply Forall_cons in H1 as [Hx H1]. apply Forall_cons in H2 as [Hx' H2].
  destruct l1 as [|y l1], l2 as [|y' l2].
  - simpl in Heq. by subst.
  - exfalso. by eapply (sep_free_not_app x x').
  - exfalso. symmetry in Heq. by eapply (sep_free_not_app x' x).
  - change (x +:+ ":" +:+ String.concat ":" (y :: l1) =
            x' +:+ ":" +:+ String.concat ":" (y' :: l2)) in Heq.
    apply sep_free_split in Heq as [-> Heq]; [|done..].
    f_equal. by apply IH.
Qed.

(** C8, as stated, fails: a positional argument that contains the
    separator gets the key of the two arguments it splits into. *)
Lemma build_key_collision :
  [VStr "a:b"] ≠ [VStr "a"; VStr "b"] ∧
  build_key [VStr "a:b"] [] = build_key [VStr "a"; VStr "b"] [].
Proof. split; [discriminate|reflexivity]. Qed.

(** C8, amended: [build_key] tells calls apart by their sequences of
    rendered parts.  Two calls, each with at least one argument and no
    rendered part containing [":"], get different keys whenever their
    sequences of parts differ. *)
Theorem build_key_injective_on_parts
    (args1 args2 : list value) (kwargs1 kwargs2 : list (string * value)) :
  Forall sep_free (key_parts args1 kwargs1) →
  Forall sep_free (key_parts args2 kwargs2) →
  key_parts args1 kwargs1 ≠ [] →
  key_parts args2 kwargs2 ≠ [] →
  key_parts args1 kwargs1 ≠ key_parts args2 kwargs2 →
  build_key args1 kwargs1 ≠ build_key args2 kwargs2.
Proof.
  intros H1 H2 Hn1 Hn2 Hne Heq. apply Hne.
  by apply concat_sep_free_inj.
Qed.

Lemma build_key_injective_on_parts_witness :
  build_key [VStr "BTC/USDT"; VInt 5] [("exchange", VStr "binance")] ≠
  build_key [VStr "BTC/USDT"] [("exchange", VStr "binance"); ("limit", VInt 5)].
Proof.
  apply build_key_injective_on_parts.
  - vm_compute. repeat constructor.
  - vm_compute. repeat constructor.
  - discriminate.
  - discriminate.
  - vm_compute. discriminate.
Defined.

End BuildKeyProps.

(** * Properties of the cache *)

Module CacheProps.
Import CacheModel.

Ltac run_m :=
  unfold bind, ret, raise, gets, modify, try_except, on_field, id; simpl.

(** ** The store operations as equations *)

Lemma cache_delitem_eq key c :
  cache_delitem key c =
    match data c !! key with
    | Some _ => (Ok tt, with_currsize (fun n => n - 1) (with_data (delete key) c))
    | None => (Raise (KeyError key), c)
    end.
Proof. unfold cache_delitem. run_m. by destruct (data c !! key). Qed.

Lemma links_pop_eq key c :
  links_pop key c =
    match assoc key (links c) with
    | Some e => (Ok e, with_links (drop_key key) c)
    | None => (Raise (KeyError key), c)
    end.
Proof. unfold links_pop. run_m. by destruct (assoc key (links c)). Qed.

Lemma TTLCache_get_eq time key c :
  TTLCache_get time key c =
    match assoc key (links c) with
    | Some e =>
        if bool_decide (time < e) then
          match data c !! key with
          | Some v => (Ok v, move_to_end key e c)
          | None => (Raise (KeyError key), move_to_end key e c)
          end
        else (Ok VNone, c)
    | None => (Ok VNone, c)
    end.
Proof.
  unfold TTLCache_get, contains, getitem, getlink, cache_getitem. run_m.
  destruct (assoc key (links c)) as [e|] eqn:E; run_m; [|done].
  case_bool_decide; run_m; [|done].
  rewrite E. run_m. rewrite bool_decide_true by done. simpl.
  by destruct (data c !! key).
Qed.

Import Invariants.

(** ** Rules for triples *)

Section Rules.
Context {S : Type}.
Implicit Types P : S → Prop.

Lemma hoare_conseq {A} P P' (m : M S A) (Q Q' : result A → S → Prop) :
  hoare P' m Q' →
  (∀ s, P s → P' s) →
  (∀ r s, Q' r s → Q r s) →
  hoare P m Q.
Proof. intros Hm HP HQ s Hs. apply HQ, Hm, HP, Hs. Qed.

Lemma hoare_bind {A B} P (m : M S A) (k : A → M S B)
    (R : result A → S → Prop) (Q : result B → S → Prop) :
  hoare P m R →
  (∀ a, hoare (R (Ok a)) (k a) Q) →
  (∀ e s, R (Raise e) s → Q (Raise e) s) →
  (∀ s, R Diverge s → Q Diverge s) →
  hoare P (bind m k) Q.
Proof.
  intros Hm Hk He Hd s Hs. specialize (Hm s Hs). unfold bind.
  destruct (m s) as [[a|e|] s1]; simpl in *; [by apply Hk|by apply He|by apply Hd].
Qed.

Lemma preserves_bind {A B} P (m : M S A) (k : A → M S B) :
  preserves P m → (∀ a, preserves P (k a)) → preserves P (bind m k).
Proof. intros Hm Hk. eapply hoare_bind; [exact Hm|exact Hk|done..]. Qed.

Lemma preserves_ret {A} P (a : A) : preserves P (ret a).
Proof. by intros s Hs. Qed.

Lemma preserves_raise {A} P e : preserves P (raise (A:=A) e).
Proof. by intros s Hs. Qed.

Lemma preserves_gets {A} P (f : S → A) : preserves P (gets f).
Proof. by intros s Hs. Qed.

Lemma preserves_modify P (f : S → S) :
  (∀ s, P s → P (f s)) → preserves P (modify f).
Proof. intros Hf s Hs. by apply Hf. Qed.

Lemma preserves_try_except {A} P (body : M S A) handler :
  preserves P body → (∀ e, preserves P (handler e)) →
  preserves P (try_except body handler).
Proof.
  intros Hb Hh s Hs. specialize (Hb s Hs). unfold try_except.
  destruct (body s) as [[a|e|] s1]; simpl in *; [done| |done].
  by apply Hh.
Qed.

Lemma preserves_diverge {A} P : preserves P (fun s => (Diverge (A:=A), s)).
Proof. by intros s Hs. Qed.

Lemma preserves_and {A} P1 P2 (m : M S A) :
  preserves P1 m → preserves P2 m → preserves (fun s => P1 s ∧ P2 s) m.
Proof. intros H1 H2 s [? ?]. split; [by apply H1|by apply H2]. Qed.

Lemma bind_Ok_inv {A B} (m : M S A) (k : A → M S B) s b s' :
  bind m k s = (Ok b, s') →
  ∃ a s1, m s = (Ok a, s1) ∧ k a s1 = (Ok b, s').
Proof.
  unfold bind. destruct (m s) as [[a|e|] s1]; [eauto|done..].
Qed.
End Rules.

(** Steps that only touch fields an invariant does not read. *)
Ltac preserves_steps :=
  repeat first
    [ apply preserves_bind
    | apply preserves_ret
    | apply preserves_raise
    | apply preserves_gets
    | apply preserves_diverge
    | apply preserves_try_except
    | intros ? ].

(** ** The configuration never changes *)

Lemma cache_delitem_config mx tl key : preserves (has_config mx tl) (cache_delitem key).
Proof. intros c H. rewrite cache_delitem_eq. by destruct (data c !! key). Qed.

Lemma links_pop_config mx tl key : preserves (has_config mx tl) (links_pop key).
Proof. intros c H. rewrite links_pop_eq. by destruct (assoc key (links c)). Qed.

Lemma getlink_config mx tl key : preserves (has_config mx tl) (getlink key).
Proof.
  unfold getlink. apply preserves_bind; [apply preserves_gets|]. intros c.
  destruct (assoc key (links c)); [|apply preserves_raise].
  apply preserves_bind; [by apply preserves_modify|]. intros _. apply preserves_ret.
Qed.

Lemma expire_from_config mx tl time r :
  preserves (has_config mx tl) (expire_from time r).
Proof.
  induction r as [|[k e] r IH]; simpl; [apply preserves_ret|].
  case_bool_decide; [apply preserves_ret|].
  apply preserves_bind; [apply cache_delitem_config|]. intros _.
  apply preserves_bind; [apply links_pop_config|]. intros _.
  apply preserves_bind; [by apply preserves_modify|]. intros _. done.
Qed.

Lemma expire_config mx tl time : preserves (has_config mx tl) (expire time).
Proof.
  unfold expire. apply preserves_bind; [apply preserves_gets|]. intros c.
  apply expire_from_config.
Qed.

Lemma getitem_config mx tl time key : preserves (has_config mx tl) (getitem time key).
Proof.
  unfold getitem. apply preserves_bind.
  - apply preserves_try_except; [|intros; apply preserves_ret].
    apply preserves_bind; [apply getlink_config|]. intros; apply preserves_ret.
  - intros [|]; [apply preserves_raise|].
    unfold cache_getitem. apply preserves_bind; [apply preserves_gets|].
    intros c. destruct (data c !! key); [apply preserves_ret|apply preserves_raise].
Qed.

Lemma delitem_config mx tl time key : preserves (has_config mx tl) (delitem time key).
Proof.
  unfold delitem.
  apply preserves_bind; [apply cache_delitem_config|]. intros _.
  apply preserves_bind; [apply links_pop_config|]. intros e.
  apply preserves_bind; [by apply preserves_modify|]. intros _.
  case_bool_decide; [apply preserves_ret|apply preserves_raise].
Qed.

Lemma popitem_config mx tl time : preserves (has_config mx tl) (popitem time).
Proof.
  unfold popitem. apply preserves_bind; [apply expire_config|]. intros _.
  apply preserves_bind; [apply preserves_gets|]. intros c.
  destruct (links c) as [|[key e] rest]; [apply preserves_raise|].
  apply preserves_bind; [|intros; apply preserves_ret].
  unfold pop, contains.
  apply preserves_bind.
  { apply preserves_bind; [apply preserves_gets|]. intros c'.
    destruct (assoc key (links c')); apply preserves_ret. }
  intros [|]; [|apply preserves_raise].
  apply preserves_bind; [apply getitem_config|]. intros v.
  apply preserves_bind; [apply delitem_config|]. intros; apply preserves_ret.
Qed.

Lemma evict_while_config mx tl fuel time :
  preserves (has_config mx tl) (evict_while fuel time).
Proof.
  induction fuel as [|fuel IH]; simpl.
  - apply preserves_bind; [apply preserves_gets|]. intros c.
    case_bool_decide; [apply preserves_diverge|apply preserves_ret].
  - apply preserves_bind; [apply preserves_gets|]. intros c.
    case_bool_decide; [|apply preserves_ret].
    apply preserves_bind; [apply popitem_config|]. by intros _.
Qed.

Lemma cache_setitem_config mx tl time key v :
  preserves (has_config mx tl) (cache_setitem time key v).
Proof.
  unfold cache_setitem. apply preserves_bind; [apply preserves_gets|]. intros c.
  case_bool_decide; [apply preserves_raise|].
  apply preserves_bind.
  { case_bool_decide; [apply evict_while_config|apply preserves_ret]. }
  intros _. apply preserves_bind; [apply preserves_gets|]. intros c'.
  apply preserves_bind; [by apply preserves_modify|]. intros _.
  by apply preserves_modify.
Qed.

Lemma setitem_config mx tl time key v :
  preserves (has_config mx tl) (setitem time key v).
Proof.
  unfold setitem. apply preserves_bind; [apply expire_config|]. intros _.
  apply preserves_bind; [apply cache_setitem_config|]. intros _.
  apply preserves_bind; [apply preserves_gets|]. intros c.
  apply preserves_bind.
  { apply preserves_try_except.
    - apply preserves_bind; [apply getlink_config|]. intros _.
      by apply preserves_modify.
    - intros _. by apply preserves_modify. }
  intros _. apply preserves_bind; [by apply preserves_modify|]. intros _.
  by apply preserves_modify.
Qed.

Lemma TTLCache_get_config mx tl time key :
  preserves (has_config mx tl) (TTLCache_get time key).
Proof.
  intros c H. rewrite TTLCache_get_eq.
  destruct (assoc key (links c)); [|done].
  case_bool_decide; [|done]. by destruct (data c !! key).
Qed.

(** ** Links looked up by key *)

Lemma assoc_app key l1 l2 :
  assoc key (l1 ++ l2) =
    match assoc key l1 with Some e => Some e | None => assoc key l2 end.
Proof.
  induction l1 as [|[k e] l1 IH]; simpl; [done|]. by case_decide.
Qed.

Lemma assoc_drop_key_eq key l : assoc key (drop_key key l) = None.
Proof.
  unfold drop_key. induction l as [|[k e] l IH]; [done|].
  destruct (decide (k = key)) as [->|Hne].
  - by rewrite filter_cons_False by (simpl; tauto).
  - rewrite filter_cons_True by done. simpl. by rewrite decide_False.
Qed.

Lemma assoc_drop_key_ne key key' l :
  key ≠ key' → assoc key' (drop_key key l) = assoc key' l.
Proof.
  intros Hne. unfold drop_key. induction l as [|[k e] l IH]; [done|].
  destruct (decide (k = key)) as [->|Hk].
  - rewrite filter_cons_False by (simpl; tauto). simpl. by rewrite decide_False.
  - rewrite filter_cons_True by done. simpl. by rewrite IH.
Qed.

Lemma set_expires_cons key E k e l :
  set_expires key E ((k, e) :: l) =
    (if decide (k = key) then (key, E) else (k, e)) :: set_expires key E l.
Proof. done. Qed.

Lemma assoc_set_expires_eq key E l :
  assoc key (set_expires key E l) =
    match assoc key l with Some _ => Some E | None => None end.
Proof.
  induction l as [|[k e] l IH]; [done|]. rewrite set_expires_cons.
  destruct (decide (k = key)) as [->|Hk]; cbn [assoc].
  - by rewrite !decide_True.
  - by rewrite !decide_False.
Qed.

Lemma assoc_set_expires_ne key key' E l :
  key ≠ key' → assoc key' (set_expires key E l) = assoc key' l.
Proof.
  intros Hne. induction l as [|[k e] l IH]; [done|]. rewrite set_expires_cons.
  destruct (decide (k = key)) as [->|Hk]; cbn [assoc].
  - by rewrite !decide_False.
  - by rewrite IH.
Qed.

Lemma assoc_move_to_end key e key' l :
  assoc key l = Some e →
  assoc key' (drop_key key l ++ [(key, e)]) = assoc key' l.
Proof.
  intros He. rewrite assoc_app. destruct (decide (key = key')) as [<-|Hne].
  - rewrite assoc_drop_key_eq. simpl. by rewrite decide_True.
  - rewrite assoc_drop_key_ne by done.
    destruct (assoc key' l); [done|]. simpl. by rewrite decide_False.
Qed.

(** ** The manager's methods as equations *)

Lemma get_eq key time m :
  get key time m =
    match TTLCache_get time key (_cache m) with
    | (Ok v, c') =>
        (Ok v, mkCacheManager c'
                 ((if is_not_None v then incr_hits else incr_misses) (_stats m)))
    | (Raise e, c') =>
        (Raise (CacheError "get" key e), mkCacheManager c' (incr_errors (_stats m)))
    | (Diverge, c') => (Diverge, mkCacheManager c' (_stats m))
    end.
Proof.
  unfold get, on_cache. run_m.
  destruct (TTLCache_get time key (_cache m)) as [[v|e|] c']; simpl; [|done..].
  by destruct (is_not_None v).
Qed.

Lemma set_eq key v time m :
  set key v time m =
    match setitem time key v (_cache m) with
    | (Ok u, c') => (Ok u, mkCacheManager c' (_stats m))
    | (Raise e, c') =>
        (Raise (CacheError "set" key e), mkCacheManager c' (incr_errors (_stats m)))
    | (Diverge, c') => (Diverge, mkCacheManager c' (_stats m))
    end.
Proof.
  unfold set, on_cache. run_m.
  by destruct (setitem time key v (_cache m)) as [[u|e|] c'].
Qed.

(** ** What a successful store leaves behind *)

Lemma cache_setitem_Ok time key v c c' :
  cache_setitem time key v c = (Ok tt, c') → data c' !! key = Some v.
Proof.
  unfold cache_setitem. intros H.
  apply bind_Ok_inv in H as (c0 & s0 & H0 & H). unfold gets in H0. simplify_eq.
  case_bool_decide; [done|].
  apply bind_Ok_inv in H as (u & c1 & _ & H).
  revert H. run_m. intros [= <-]. simpl. apply lookup_insert_eq.
Qed.

Lemma setitem_Ok time key v c c' :
  setitem time key v c = (Ok tt, c') →
  data c' !! key = Some v ∧
  assoc key (links c') = Some (time + ttl c) ∧
  ttl c' = ttl c ∧ maxsize c' = maxsize c.
Proof.
  intros H.
  pose proof (setitem_config (maxsize c) (ttl c) time key v c (conj eq_refl eq_refl))
    as [Hmx Htl]. rewrite H in Hmx, Htl. simpl in Hmx, Htl.
  unfold setitem in H.
  apply bind_Ok_inv in H as (u1 & c1 & H1 & H).
  apply bind_Ok_inv in H as (u2 & c2 & H2 & H).
  pose proof (expire_config (maxsize c) (ttl c) time c (conj eq_refl eq_refl))
    as [_ Htl1]. rewrite H1 in Htl1. simpl in Htl1.
  pose proof (cache_setitem_config (maxsize c) (ttl c) time key v c1) as Hc2.
  rewrite H2 in Hc2. destruct Hc2 as [_ Htl2]; [split; [|done]|].
  { pose proof (expire_config (maxsize c) (ttl c) time c (conj eq_refl eq_refl))
      as [Hm1 _]. by rewrite H1 in Hm1. }
  simpl in Htl2. destruct u2.
  apply cache_setitem_Ok in H2.
  revert H. unfold getlink. run_m.
  destruct (assoc key (links c2)) as [e|] eqn:E; simpl; intros [= <-]; simpl.
  - rewrite assoc_set_expires_eq, assoc_app, assoc_drop_key_eq. simpl.
    rewrite decide_True by done. rewrite Htl2. done.
  - rewrite assoc_set_expires_eq, assoc_app, E. simpl.
    rewrite decide_True by done. rewrite Htl2. done.
Qed.

(** ** Lookups leave values and expiry times alone *)

Lemma TTLCache_get_frame time key c :
  let c' := (TTLCache_get time key c).2 in
  data c' = data c ∧ ttl c' = ttl c ∧
  ∀ k, assoc k (links c') = assoc k (links c).
Proof.
  rewrite TTLCache_get_eq.
  destruct (assoc key (links c)) as [e|] eqn:E; [|done].
  case_bool_decide; [|done].
  destruct (data c !! key); simpl; repeat split; auto;
    intros k; by apply assoc_move_to_end.
Qed.

Lemma get_frame key time m :
  let m' := (get key time m).2 in
  data (_cache m') = data (_cache m) ∧ ttl (_cache m') = ttl (_cache m) ∧
  ∀ k, assoc k (links (_cache m')) = assoc k (links (_cache m)).
Proof.
  rewrite get_eq. pose proof (TTLCache_get_frame time key (_cache m)) as H.
  by destruct (TTLCache_get time key (_cache m)) as [[v|e|] c'].
Qed.

Lemma after_calls_cons c h m :
  after_calls (c :: h) m = after_calls h (do_call c m).2.
Proof. done. Qed.

Lemma lookups_frame (lookups : list (string * Z)) m :
  let m' := after_calls ((fun p => CallGet p.1 p.2) <$> lookups) m in
  data (_cache m') = data (_cache m) ∧ ttl (_cache m') = ttl (_cache m) ∧
  ∀ k, assoc k (links (_cache m')) = assoc k (links (_cache m)).
Proof.
  revert m. induction lookups as [|[k0 t0] lookups IH]; intros m; [done|].
  rewrite fmap_cons, after_calls_cons. cbn zeta. cbn [fst snd].
  destruct (IH (do_call (CallGet k0 t0) m).2) as (Hd & Ht & Ha).
  pose proof (get_frame k0 t0 m) as (Hd' & Ht' & Ha').
  assert ((do_call (CallGet k0 t0) m).2 = (get k0 t0 m).2) as Heq.
  { simpl. by destruct (get k0 t0 m). }
  rewrite Heq in *. rewrite Hd, Ht. repeat split; [done..|].
  intros k. by rewrite Ha.
Qed.

Lemma get_stored key time m v e :
  data (_cache m) !! key = Some v →
  assoc key (links (_cache m)) = Some e →
  (time < e → ∃ m', get key time m = (Ok v, m')) ∧
  (e ≤ time → ∃ m', get key time m = (Ok VNone, m') ∧
                    hits (_stats m') = hits (_stats m) ∧
                    misses (_stats m') = misses (_stats m) + 1).
Proof.
  intros Hv He. rewrite get_eq, TTLCache_get_eq, He, Hv. split; intros Ht.
  - rewrite bool_decide_true by done. eauto.
  - rewrite bool_decide_false by lia. eauto.
Qed.

(** C3: after [set] has stored a value at time [t], and after any further
    lookups of any keys, [get] on the key returns the value at every time
    before [t + ttl], and at every time from [t + ttl] on it returns
    [None] and counts a miss. *)
Theorem set_then_get_until_expiry
    (key : string) (v : value) (t t' : Z) (lookups : list (string * Z))
    (m m1 : CacheManager) :
  set key v t m = (Ok tt, m1) →
  let m2 := after_calls ((fun p => CallGet p.1 p.2) <$> lookups) m1 in
  (t' < t + ttl (_cache m) → ∃ m3, get key t' m2 = (Ok v, m3)) ∧
  (t + ttl (_cache m) ≤ t' →
     ∃ m3, get key t' m2 = (Ok VNone, m3) ∧
           hits (_stats m3) = hits (_stats m2) ∧
           misses (_stats m3) = misses (_stats m2) + 1).
Proof.
  intros Hset m2. rewrite set_eq in Hset.
  destruct (setitem t key v (_cache m)) as [[[]|e|] c1] eqn:Hs; simplify_eq.
  apply setitem_Ok in Hs as (Hv & He & _ & _).
  destruct (lookups_frame lookups (mkCacheManager c1 (_stats m))) as (Hd & _ & Ha).
  fold m2 in Hd, Ha. simpl in Hd, Ha.
  apply get_stored; [by rewrite Hd|by rewrite Ha].
Qed.

Lemma set_then_get_until_expiry_witness :
  let m := init 10 60 in
  let m1 := (set "ticker:BTC" (VInt 42) 100 m).2 in
  let m2 := after_calls [CallGet "ticker:ETH" 120; CallGet "ticker:BTC" 130] m1 in
  (∃ m3, get "ticker:BTC" 159 m2 = (Ok (VInt 42), m3)) ∧
  (∃ m3, get "ticker:BTC" 160 m2 = (Ok VNone, m3) ∧
         hits (_stats m3) = hits (_stats m2) ∧
         misses (_stats m3) = misses (_stats m2) + 1).
Proof.
  intros m m1 m2.
  split.
  - apply (set_then_get_until_expiry "ticker:BTC" (VInt 42) 100 159
             [("ticker:ETH", 120); ("ticker:BTC", 130)] m m1);
      [reflexivity|simpl; lia].
  - apply (set_then_get_until_expiry "ticker:BTC" (VInt 42) 100 160
             [("ticker:ETH", 120); ("ticker:BTC", 130)] m m1);
      [reflexivity|simpl; lia].
Defined.

(** ** Counters and statistics *)


(** ** Floats: how far rounding moves a value *)










(** The rate of 23 hits in 160 lookups: the exact rate 14.375 is a tie,
    the float product is just below it, and the report is 14.37. *)
Example hit_rate_below_a_tie :
  round2 (float_mul (true_divide 23 (23 + 137)) 100) = binary64 (1437 # 100) ∧
  (float_mul (true_divide 23 (23 + 137)) 100 < 14375 # 1000)%Q.
Proof. split; by vm_compute. Qed.

Lemma get_stats_eq time m :
  get_stats time m =
    let s := _stats m in
    let total := hits s + misses s in
    let hit_rate :=
      if bool_decide (total > 0)
      then float_mul (true_divide (hits s) total) 100 else 0%Q in
    match len time (_cache m) with
    | (Ok n, c') =>
        (Ok (mkStatsReport (hits s) (misses s) (errors s) total
               (round2 hit_rate) n (maxsize c')),
         mkCacheManager c' s)
    | (Raise e, c') => (Raise e, mkCacheManager c' s)
    | (Diverge, c') => (Diverge, mkCacheManager c' s)
    end.
Proof.
  unfold get_stats, on_cache. run_m.
  by destruct (len time (_cache m)) as [[n|e|] c'].
Qed.










(** ** The decorator *)

Lemma cached_eq {F} ttl_arg key_prefix (func : pyfunc F) :
  cached ttl_arg key_prefix func = sync_wrapper key_prefix func.
Proof. unfold cached. by destruct (iscoroutinefunction func). Qed.

Lemma sync_wrapper_eq {F} key_prefix (func : pyfunc F) args kwargs t_get t_set w :
  sync_wrapper key_prefix func args kwargs t_get t_set w =
    let key := cache_key_of key_prefix func args kwargs in
    match get key t_get (cache_manager w) with
    | (Ok v, m1) =>
        if is_not_None v
        then (Ok v, mkWorld m1 (func_state w) (invocations w))
        else
          match body func args kwargs (func_state w) with
          | (Ok r, f1) =>
              match set key r t_set m1 with
              | (Ok _, m2) => (Ok r, mkWorld m2 f1 (S (invocations w)))
              | (Raise e, m2) => (Raise e, mkWorld m2 f1 (S (invocations w)))
              | (Diverge, m2) => (Diverge, mkWorld m2 f1 (S (invocations w)))
              end
          | (Raise e, f1) => (Raise e, mkWorld m1 f1 (S (invocations w)))
          | (Diverge, f1) => (Diverge, mkWorld m1 f1 (S (invocations w)))
          end
    | (Raise e, m1) => (Raise e, mkWorld m1 (func_state w) (invocations w))
    | (Diverge, m1) => (Diverge, mkWorld m1 (func_state w) (invocations w))
    end.
Proof.
  unfold sync_wrapper, on_manager, invoke. run_m.
  destruct (get _ t_get (cache_manager w)) as [[v|e|] m1]; simpl; [|done..].
  destruct (is_not_None v); simpl; [done|].
  destruct (body func args kwargs (func_state w)) as [[r|e|] f1]; simpl; [|done..].
  by destruct (set _ r t_set m1) as [[u|e|] m2].
Qed.



(** ** A key that can only answer [None] *)

Section HoldsNone.
Variable key : string.

Lemma hn_del_pop {A} k (cont : Z → M TTLCache A) :
  (∀ e, preserves (holds_none key) (cont e)) →
  preserves (holds_none key)
    (bind (cache_delitem k) (fun _ => bind (links_pop k) cont)).
Proof.
  intros Hcont c Hc. unfold bind at 1. rewrite cache_delitem_eq.
  destruct (data c !! k) as [v|] eqn:Ek; [|done].
  unfold bind. rewrite links_pop_eq. simpl.
  destruct (assoc k (links c)) as [e|] eqn:El.
  - apply Hcont. unfold holds_none in *. simpl.
    destruct (decide (k = key)) as [->|Hne].
    + rewrite assoc_drop_key_eq. by intros [? ?].
    + rewrite assoc_drop_key_ne, lookup_delete_ne by done. exact Hc.
  - simpl. unfold holds_none in *. simpl.
    destruct (decide (k = key)) as [->|Hne].
    + rewrite El. by intros [? ?].
    + by rewrite lookup_delete_ne.
Qed.

Lemma hn_links_only (f : list (string * Z) → list (string * Z)) c :
  (∀ l, is_Some (assoc key (f l)) → is_Some (assoc key l)) →
  holds_none key c → holds_none key (with_links f c).
Proof. intros Hf Hc Hl. apply Hc. by apply Hf. Qed.

Lemma hn_getlink k : preserves (holds_none key) (getlink k).
Proof.
  intros c Hc. unfold getlink. run_m.
  destruct (assoc k (links c)) as [e|] eqn:E; simpl; [|done].
  unfold holds_none, move_to_end. simpl. by rewrite assoc_move_to_end.
Qed.

Lemma hn_getitem time k : preserves (holds_none key) (getitem time k).
Proof.
  unfold getitem. apply preserves_bind.
  - apply preserves_try_except; [|intros; apply preserves_ret].
    apply preserves_bind; [apply hn_getlink|]. intros; apply preserves_ret.
  - intros [|]; [apply preserves_raise|].
    unfold cache_getitem. apply preserves_bind; [apply preserves_gets|].
    intros c. destruct (data c !! k); [apply preserves_ret|apply preserves_raise].
Qed.

Lemma hn_expire_from time r : preserves (holds_none key) (expire_from time r).
Proof.
  induction r as [|[k e] r IH]; simpl; [apply preserves_ret|].
  case_bool_decide; [apply preserves_ret|].
  apply hn_del_pop. intros _.
  apply preserves_bind; [by apply preserves_modify|]. by intros _.
Qed.

Lemma hn_expire time : preserves (holds_none key) (expire time).
Proof.
  unfold expire. apply preserves_bind; [apply preserves_gets|]. intros c.
  apply hn_expire_from.
Qed.

Lemma hn_delitem time k : preserves (holds_none key) (delitem time k).
Proof.
  unfold delitem. apply hn_del_pop. intros e.
  apply preserves_bind; [by apply preserves_modify|]. intros _.
  case_bool_decide; [apply preserves_ret|apply preserves_raise].
Qed.

Lemma hn_popitem time : preserves (holds_none key) (popitem time).
Proof.
  unfold popitem. apply preserves_bind; [apply hn_expire|]. intros _.
  apply preserves_bind; [apply preserves_gets|]. intros c.
  destruct (links c) as [|[k e] rest]; [apply preserves_raise|].
  apply preserves_bind; [|intros; apply preserves_ret].
  unfold pop, contains.
  apply preserves_bind.
  { apply preserves_bind; [apply preserves_gets|]. intros c'.
    destruct (assoc k (links c')); apply preserves_ret. }
  intros [|]; [|apply preserves_raise].
  apply preserves_bind; [apply hn_getitem|]. intros v.
  apply preserves_bind; [apply hn_delitem|]. intros; apply preserves_ret.
Qed.

Lemma hn_evict_while fuel time : preserves (holds_none key) (evict_while fuel time).
Proof.
  induction fuel as [|fuel IH]; simpl.
  - apply preserves_bind; [apply preserves_gets|]. intros c.
    case_bool_decide; [apply preserves_diverge|apply preserves_ret].
  - apply preserves_bind; [apply preserves_gets|]. intros c.
    case_bool_decide; [|apply preserves_ret].
    apply preserves_bind; [apply hn_popitem|]. by intros _.
Qed.

Lemma hn_cache_setitem time :
  hoare (holds_none key) (cache_setitem time key VNone)
    (fun r c => match r with
                | Ok _ => data c !! key = Some VNone
                | _ => holds_none key c
                end).
Proof.
  unfold cache_setitem.
  eapply hoare_bind; [apply (preserves_gets (holds_none key))| |done..].
  intros c. case_bool_decide; [by intros s Hs|].
  eapply hoare_bind with (R := fun _ => holds_none key); [| |done..].
  { case_bool_decide; [apply hn_evict_while|apply preserves_ret]. }
  intros _ s _. run_m. apply lookup_insert_eq.
Qed.

Lemma hn_setitem time : preserves (holds_none key) (setitem time key VNone).
Proof.
  unfold setitem. apply preserves_bind; [apply hn_expire|]. intros _.
  eapply hoare_bind; [apply hn_cache_setitem| |done..].
  intros _ s Hs. run_m.
  assert (∀ f g, holds_none key (with_ring g (with_links f s))) as Hany.
  { intros f g _. exact Hs. }
  unfold getlink. run_m.
  destruct (assoc key (links s)); simpl; by intros _.
Qed.

Lemma hn_get k time m :
  holds_none key (_cache m) → holds_none key (_cache (get k time m).2).
Proof.
  intros Hm. pose proof (get_frame k time m) as (Hd & _ & Ha).
  unfold holds_none. by rewrite Hd, Ha.
Qed.

Lemma hn_set time m :
  holds_none key (_cache m) → holds_none key (_cache (set key VNone time m).2).
Proof.
  intros Hm. rewrite set_eq. pose proof (hn_setitem time (_cache m) Hm) as H.
  by destruct (setitem time key VNone (_cache m)) as [[u|e|] c'].
Qed.

Lemma get_holds_none time m :
  holds_none key (_cache m) →
  ∃ m', get key time m = (Ok VNone, m') ∧
        hits (_stats m') = hits (_stats m) ∧
        misses (_stats m') = misses (_stats m) + 1.
Proof.
  intros Hm. rewrite get_eq, TTLCache_get_eq.
  destruct (assoc key (links (_cache m))) as [e|] eqn:E; [|eauto].
  case_bool_decide; [|eauto].
  rewrite Hm by (by rewrite E). eauto.
Qed.
End HoldsNone.

Lemma sync_wrapper_none {F} key_prefix (func : pyfunc F) args kwargs t_get t_set w :
  (∀ f, (body func args kwargs f).1 = Ok VNone) →
  let key := cache_key_of key_prefix func args kwargs in
  let w' := (sync_wrapper key_prefix func args kwargs t_get t_set w).2 in
  holds_none key (_cache (cache_manager w)) →
  invocations w' = S (invocations w) ∧
  holds_none key (_cache (cache_manager w')).
Proof.
  intros Hbody key w' Hw. unfold w'. rewrite sync_wrapper_eq. cbn zeta. fold key.
  destruct (get_holds_none key t_get _ Hw) as (m1 & Hget & _).
  pose proof (hn_get key key t_get _ Hw) as Hm1.
  rewrite Hget in Hm1 |- *. simpl in Hm1 |- *.
  specialize (Hbody (func_state w)).
  destruct (body func args kwargs (func_state w)) as [[r|e|] f1];
    simpl in Hbody; simplify_eq.
  pose proof (hn_set key t_set m1 Hm1) as Hm2.
  by destruct (set key VNone t_set m1) as [[u|e|] m2].
Qed.

(** C10: a [None] stored under a key is in the store, yet [get] on the key
    returns [None] and counts a miss at every time; and a wrapped function
    that returns [None], once its [None] is in the store, is invoked again
    by every later call of the wrapper with the same arguments. *)
Theorem none_stored_never_served {F}
    (key_prefix : string) (func : pyfunc F)
    (args : list value) (kwargs : list (string * value)) :
  (∀ key t m m1, set key VNone t m = (Ok tt, m1) →
     data (_cache m1) !! key = Some VNone ∧
     ∀ t', ∃ m2, get key t' m1 = (Ok VNone, m2) ∧
                 hits (_stats m2) = hits (_stats m1) ∧
                 misses (_stats m2) = misses (_stats m1) + 1) ∧
  ((∀ f, (body func args kwargs f).1 = Ok VNone) →
   ∀ (w : World F) (times : list (Z * Z)),
     data (_cache (cache_manager w)) !! cache_key_of key_prefix func args kwargs
       = Some VNone →
     invocations (repeat_wrapper key_prefix func args kwargs times w) =
       (invocations w + length times)%nat).
Proof.
  split.
  - intros key t m m1 Hset. rewrite set_eq in Hset.
    destruct (setitem t key VNone (_cache m)) as [[[]|e|] c1] eqn:Hs; simplify_eq.
    apply setitem_Ok in Hs as (Hv & _). split; [exact Hv|].
    intros t'. apply (get_holds_none key t'). by intros _.
  - intros Hbody w times Hw.
    assert (holds_none (cache_key_of key_prefix func args kwargs)
              (_cache (cache_manager w))) as Hn by (by intros _).
    clear Hw. revert w Hn.
    induction times as [|[t1 t2] times IH]; intros w Hn; [simpl; lia|].
    unfold repeat_wrapper in *. simpl.
    destruct (sync_wrapper_none key_prefix func args kwargs t1 t2 w Hbody Hn)
      as [Hinv Hn'].
    rewrite (IH _ Hn'), Hinv. lia.
Qed.

Lemma none_stored_never_served_witness :
  let returns_none := mkFunc unit "get_status" false (fun _ _ => ret VNone) in
  let w := (sync_wrapper "api" returns_none [] [] 0 0
              (mkWorld (init 10 60) tt 0%nat)).2 in
  invocations (repeat_wrapper "api" returns_none [] [] [(1, 1); (2, 2); (3, 3)] w)
    = 4%nat.
Proof.
  intros returns_none w.
  destruct (none_stored_never_served "api" returns_none [] []) as [_ H].
  rewrite H; [reflexivity|done|reflexivity].
Defined.

(** ** Capacity *)

Lemma wc_cache_delitem k : preserves within_capacity (cache_delitem k).
Proof.
  intros c [H1 H2]. rewrite cache_delitem_eq.
  destruct (data c !! k) as [v|] eqn:E; [|done].
  unfold within_capacity. simpl.
  rewrite map_size_delete_Some by eauto.
  assert (size (data c) ≠ 0%nat) by (by eapply map_size_ne_0_lookup_2).
  lia.
Qed.

Lemma wc_links_ring (f g : list (string * Z) → list (string * Z)) c :
  within_capacity c → within_capacity (with_ring g (with_links f c)).
Proof. done. Qed.

Lemma wc_links_pop k : preserves within_capacity (links_pop k).
Proof. intros c H. rewrite links_pop_eq. by destruct (assoc k (links c)). Qed.

Lemma wc_getlink k : preserves within_capacity (getlink k).
Proof.
  intros c H. unfold getlink. run_m. by destruct (assoc k (links c)).
Qed.

Lemma wc_expire_from time r : preserves within_capacity (expire_from time r).
Proof.
  induction r as [|[k e] r IH]; simpl; [apply preserves_ret|].
  case_bool_decide; [apply preserves_ret|].
  apply preserves_bind; [apply wc_cache_delitem|]. intros _.
  apply preserves_bind; [apply wc_links_pop|]. intros _.
  apply preserves_bind; [by apply preserves_modify|]. by intros _.
Qed.

Lemma wc_expire time : preserves within_capacity (expire time).
Proof.
  unfold expire. apply preserves_bind; [apply preserves_gets|]. intros c.
  apply wc_expire_from.
Qed.

Lemma wc_getitem time k : preserves within_capacity (getitem time k).
Proof.
  unfold getitem. apply preserves_bind.
  - apply preserves_try_except; [|intros; apply preserves_ret].
    apply preserves_bind; [apply wc_getlink|]. intros; apply preserves_ret.
  - intros [|]; [apply preserves_raise|].
    unfold cache_getitem. apply preserves_bind; [apply preserves_gets|].
    intros c. destruct (data c !! k); [apply preserves_ret|apply preserves_raise].
Qed.

Lemma wc_delitem time k : preserves within_capacity (delitem time k).
Proof.
  unfold delitem.
  apply preserves_bind; [apply wc_cache_delitem|]. intros _.
  apply preserves_bind; [apply wc_links_pop|]. intros e.
  apply preserves_bind; [by apply preserves_modify|]. intros _.
  case_bool_decide; [apply preserves_ret|apply preserves_raise].
Qed.

Lemma wc_popitem time : preserves within_capacity (popitem time).
Proof.
  unfold popitem. apply preserves_bind; [apply wc_expire|]. intros _.
  apply preserves_bind; [apply preserves_gets|]. intros c.
  destruct (links c) as [|[k e] rest]; [apply preserves_raise|].
  apply preserves_bind; [|intros; apply preserves_ret].
  unfold pop, contains.
  apply preserves_bind.
  { apply preserves_bind; [apply preserves_gets|]. intros c'.
    destruct (assoc k (links c')); apply preserves_ret. }
  intros [|]; [|apply preserves_raise].
  apply preserves_bind; [apply wc_getitem|]. intros v.
  apply preserves_bind; [apply wc_delitem|]. intros; apply preserves_ret.
Qed.

(** The eviction loop keeps the store within capacity and, when it
    returns, has made room for one more value. *)
Lemma wc_evict_while fuel time :
  hoare within_capacity (evict_while fuel time)
    (fun r c => within_capacity c ∧
                (r = Ok tt → currsize c + 1 ≤ maxsize c)).
Proof.
  induction fuel as [|fuel IH]; intros c Hc; simpl; run_m.
  - case_bool_decide; simpl; [done|]. split; [done|]. lia.
  - case_bool_decide; simpl; [|split; [done|lia]].
    pose proof (wc_popitem time c Hc) as Hp.
    destruct (popitem time c) as [[kv|e|] c1]; simpl in *; [|done..].
    by apply IH.
Qed.

Lemma wc_cache_setitem time key v :
  preserves within_capacity (cache_setitem time key v).
Proof.
  intros c Hc. unfold cache_setitem. unfold bind at 1, gets, id. simpl.
  case_bool_decide as Hmx; [done|].
  assert (∀ c1, within_capacity c1 →
            (currsize c1 + 1 ≤ maxsize c1 ∨ data c1 !! key ≠ None) →
            within_capacity
              (with_currsize
                 (fun n => n + (if bool_decide (data c1 !! key = None) then 1 else 0))
                 (with_data <[key := v]> c1))) as Htail.
  { intros c1 [H1 H2] Hroom. unfold within_capacity. simpl.
    case_bool_decide as Hk.
    - rewrite map_size_insert_None by done. destruct Hroom; [lia|done].
    - rewrite map_size_insert_Some by (by apply not_eq_None_Some). lia. }
  case_bool_decide as Hnew.
  - pose proof (wc_evict_while (Z.to_nat (currsize c + 1 - maxsize c)) time c Hc)
      as [Hwc Hroom].
    unfold bind at 1.
    destruct (evict_while _ time c) as [[[]|e|] c1]; simpl in *; [|done..].
    run_m. apply Htail; [done|]. left. by apply Hroom.
  - run_m. apply Htail; [done|]. by right.
Qed.

Lemma wc_setitem time key v : preserves within_capacity (setitem time key v).
Proof.
  unfold setitem. apply preserves_bind; [apply wc_expire|]. intros _.
  apply preserves_bind; [apply wc_cache_setitem|]. intros _.
  apply preserves_bind; [apply preserves_gets|]. intros c.
  apply preserves_bind.
  { apply preserves_try_except.
    - apply preserves_bind; [apply wc_getlink|]. intros _.
      by apply preserves_modify.
    - intros _. by apply preserves_modify. }
  intros _. apply preserves_bind; [by apply preserves_modify|]. intros _.
  by apply preserves_modify.
Qed.

Lemma wc_TTLCache_get time key : preserves within_capacity (TTLCache_get time key).
Proof.
  intros c H. rewrite TTLCache_get_eq.
  destruct (assoc key (links c)); [|done].
  case_bool_decide; [|done]. by destruct (data c !! key).
Qed.

Lemma wc_len time : preserves within_capacity (len time).
Proof.
  unfold len. apply preserves_bind; [apply wc_expire|]. intros _.
  apply preserves_bind; [apply preserves_gets|]. intros; apply preserves_ret.
Qed.

Lemma do_call_cache c m :
  _cache (do_call c m).2 =
    match c with
    | CallGet key t => (TTLCache_get t key (_cache m)).2
    | CallSet key v t => (setitem t key v (_cache m)).2
    | CallGetStats t => (len t (_cache m)).2
    end.
Proof.
  destruct c as [key t|key v t|t]; simpl.
  - rewrite get_eq. by destruct (TTLCache_get t key (_cache m)) as [[?|?|] ?].
  - rewrite set_eq. by destruct (setitem t key v (_cache m)) as [[?|?|] ?].
  - rewrite get_stats_eq. cbn zeta. by destruct (len t (_cache m)) as [[?|?|] ?].
Qed.

Lemma wc_do_call c m :
  within_capacity (_cache m) → within_capacity (_cache (do_call c m).2).
Proof.
  intros H. rewrite do_call_cache. destruct c.
  - by apply wc_TTLCache_get.
  - by apply wc_setitem.
  - by apply wc_len.
Qed.

Lemma config_do_call mx tl c m :
  has_config mx tl (_cache m) → has_config mx tl (_cache (do_call c m).2).
Proof.
  intros H. rewrite do_call_cache. destruct c.
  - by apply TTLCache_get_config.
  - by apply setitem_config.
  - unfold len. revert H. generalize (_cache m).
    apply preserves_bind; [apply expire_config|]. intros _.
    apply preserves_bind; [apply preserves_gets|]. intros; apply preserves_ret.
Qed.

(** ** The representation invariant of the store *)

Import ListFacts.

Lemma assoc_None_iff key (l : list (string * Z)) :
  assoc key l = None ↔ key ∉ l.*1.
Proof.
  induction l as [|[k e] l IH]; simpl.
  - split; [intros _ ?%elem_of_nil; done|done].
  - rewrite not_elem_of_cons. case_decide as Hk.
    + split; [done|]. intros [Hne _]. by subst.
    + rewrite IH. split; [|tauto]. intros Hl. split; [congruence|done].
Qed.

Lemma assoc_Some_elem key e (l : list (string * Z)) :
  assoc key l = Some e → (key, e) ∈ l.
Proof.
  induction l as [|[k e'] l IH]; simpl; [done|].
  case_decide; [intros [= ->]; subst; apply list_elem_of_here|].
  intros Hl. apply list_elem_of_further. by apply IH.
Qed.

Lemma assoc_NoDup key e (l : list (string * Z)) :
  NoDup l.*1 → (key, e) ∈ l → assoc key l = Some e.
Proof.
  induction l as [|[k e'] l IH]; simpl; [by intros _ ?%elem_of_nil|].
  intros [Hnot Hnd]%NoDup_cons [Hhd|Htl]%elem_of_cons.
  - simplify_eq. by rewrite decide_True.
  - case_decide; [|by apply IH]. subst. exfalso. apply Hnot.
    apply list_elem_of_fmap. by exists (key, e).
Qed.

Lemma assoc_is_Some key (l : list (string * Z)) :
  is_Some (assoc key l) ↔ key ∈ l.*1.
Proof.
  rewrite <- not_eq_None_Some, assoc_None_iff.
  destruct (decide (key ∈ l.*1)); naive_solver.
Qed.

Lemma drop_key_fst key (l : list (string * Z)) :
  (drop_key key l).*1 = filter (fun k => k ≠ key) l.*1.
Proof.
  unfold drop_key. induction l as [|[k e] l IH]; [done|].
  rewrite fmap_cons. cbn [fst].
  destruct (decide (k ≠ key)).
  - rewrite !filter_cons_True by done. rewrite fmap_cons. cbn [fst]. by rewrite IH.
  - by rewrite !filter_cons_False.
Qed.

Lemma elem_of_drop_key_fst key k (l : list (string * Z)) :
  k ∈ (drop_key key l).*1 ↔ k ≠ key ∧ k ∈ l.*1.
Proof. by rewrite drop_key_fst, list_elem_of_filter. Qed.

Lemma drop_key_notin key (l : list (string * Z)) :
  key ∉ l.*1 → drop_key key l = l.
Proof.
  intros Hnot. apply filter_Forall_id. apply Forall_forall.
  intros [k e] Hin. simpl. intros ->.
  apply Hnot. apply list_elem_of_fmap. by exists (key, e).
Qed.

Lemma drop_key_head key e (l : list (string * Z)) :
  NoDup ((key, e) :: l).*1 → drop_key key ((key, e) :: l) = l.
Proof.
  simpl. intros [Hnot _]%NoDup_cons. unfold drop_key.
  rewrite filter_cons_False by (simpl; tauto). by apply drop_key_notin.
Qed.

Lemma set_expires_notin key E (l : list (string * Z)) :
  key ∉ l.*1 → set_expires key E l = l.
Proof.
  induction l as [|[k e] l IH]; [done|].
  rewrite fmap_cons, not_elem_of_cons. cbn [fst]. intros [Hk Hl].
  rewrite set_expires_cons, decide_False by congruence. by rewrite IH.
Qed.

Lemma set_expires_app key E (l1 l2 : list (string * Z)) :
  set_expires key E (l1 ++ l2) = set_expires key E l1 ++ set_expires key E l2.
Proof. unfold set_expires. apply fmap_app. Qed.

Lemma drop_key_not_elem key (l : list (string * Z)) :
  key ∉ (drop_key key l).*1.
Proof. rewrite elem_of_drop_key_fst. tauto. Qed.

Lemma NoDup_drop_key key (l : list (string * Z)) :
  NoDup l.*1 → NoDup (drop_key key l).*1.
Proof. intros H. rewrite drop_key_fst. by apply NoDup_filter. Qed.

Lemma wf_links_NoDup T c : wf T c → NoDup (links c).*1.
Proof. intros (H1 & H2 & _). by rewrite H2. Qed.

Lemma wf_links_elem T c k :
  wf T c → (k ∈ (links c).*1 ↔ is_Some (data c !! k)).
Proof. intros (H1 & H2 & H3 & _). by rewrite H3, H2. Qed.

Lemma wf_mono T T' c : T ≤ T' → wf T c → wf T' c.
Proof.
  intros HT (H1 & H2 & H3 & H4 & H5 & H6). repeat split; try done; try apply H3.
  eapply Forall_impl; [exact H6|]. simpl. lia.
Qed.

Lemma wf_init T mx tl : wf T (TTLCache_init mx tl).
Proof.
  unfold wf, TTLCache_init; simpl. repeat split; try constructor.
  - by intros [? ?%lookup_empty_Some].
  - by intros ?%elem_of_nil.
Qed.

Lemma wf_move_to_end T c key e :
  wf T c → assoc key (links c) = Some e → wf T (move_to_end key e c).
Proof.
  intros Hwf He. pose proof (wf_links_NoDup _ _ Hwf) as Hnd.
  destruct Hwf as (H1 & H2 & H3 & H4 & H5 & H6).
  unfold wf, move_to_end. simpl. repeat split; try done; try apply H3.
  rewrite <- H2. apply assoc_Some_elem in He as Hin.
  apply elem_of_Permutation in Hin as [l' Hl'].
  rewrite Hl' in Hnd. unfold drop_key. rewrite Hl' at 1.
  fold (drop_key key ((key, e) :: l')). rewrite (drop_key_head _ _ _ Hnd).
  rewrite Hl'. symmetry. apply Permutation_cons_append.
Qed.

Lemma wf_removed T c k :
  wf T c → is_Some (data c !! k) → wf T (removed k c).
Proof.
  intros (H1 & H2 & H3 & H4 & H5 & H6) Hk. unfold wf, removed. simpl.
  split; [by apply NoDup_drop_key|].
  split; [unfold drop_key; by rewrite H2|].
  split.
  { intros k'. rewrite elem_of_drop_key_fst, <- H3.
    destruct (decide (k = k')) as [->|Hne].
    - rewrite lookup_delete_eq. split; [by intros [? ?]|tauto].
    - rewrite lookup_delete_ne by done.
      split; [intros ?; split; [congruence|done]|tauto]. }
  split.
  { rewrite map_size_delete_Some by done.
    destruct Hk as [v Hv].
    assert (size (data c) ≠ 0%nat) by (by eapply map_size_ne_0_lookup_2). lia. }
  split; [by apply StronglySorted_filter|by apply Forall_filter_weak].
Qed.

Lemma wf_all_live_head T time c k e next :
  wf T c → ring c = (k, e) :: next → time < e → all_live time c.
Proof.
  intros (_ & _ & _ & _ & H5 & _) Hr Ht. unfold all_live. rewrite Hr in *.
  apply StronglySorted_cons in H5 as [Hall _].
  constructor; [done|]. eapply Forall_impl; [exact Hall|]. simpl. lia.
Qed.

Lemma expire_from_wf T time r : ∀ c,
  wf T c → ring c = r →
  ∃ c', expire_from time r c = (Ok tt, c') ∧
        wf T c' ∧ all_live time c' ∧
        maxsize c' = maxsize c ∧ ttl c' = ttl c ∧
        data c' ⊆ data c ∧
        (all_live time c → c' = c) ∧
        (¬ all_live time c → currsize c' < currsize c).
Proof.
  induction r as [|[k e] next IH]; intros c Hwf Hr.
  - exists c. simpl. unfold all_live. rewrite Hr.
    split_and!; try done. intros H. destruct H. constructor.
  - simpl. case_bool_decide as Ht.
    + exists c. pose proof (wf_all_live_head _ _ _ _ _ _ Hwf Hr Ht).
      split_and!; done.
    + assert (is_Some (data c !! k)) as Hk.
      { destruct Hwf as (_ & _ & H3 & _). apply H3. rewrite Hr. simpl.
        apply list_elem_of_here. }
      assert (is_Some (assoc k (links c))) as Hl.
      { apply assoc_is_Some. by apply (wf_links_elem T). }
      destruct Hk as [v Hv]. destruct Hl as [e' He'].
      assert (removed k c =
              with_ring (fun _ => next)
                (with_links (drop_key k)
                   (with_currsize (fun n => n - 1) (with_data (delete k) c))))
        as Hrem.
      { unfold removed, with_ring. simpl. f_equal. rewrite Hr.
        apply drop_key_head. destruct Hwf as (H1 & _). by rewrite Hr in H1. }
      destruct (IH (removed k c)) as (c' & Hex & Hwf' & Hlive & Hmx & Htl & Hsub & _ & Hlt).
      { apply wf_removed; [done|by eauto]. }
      { by rewrite Hrem. }
      exists c'. split.
      { unfold bind at 1. rewrite cache_delitem_eq, Hv.
        unfold bind at 1. rewrite links_pop_eq. simpl. rewrite He'.
        unfold bind at 1, modify. rewrite <- Hrem. exact Hex. }
      assert (currsize c' ≤ currsize (removed k c)) as Hle.
      { destruct (decide (Forall (fun p : string * Z => time < p.2)
                            (ring (removed k c)))) as [Hal|Hal].
        - destruct (IH (removed k c)) as (c'' & Hex' & _ & _ & _ & _ & _ & Heq & _).
          { apply wf_removed; [done|by eauto]. }
          { by rewrite Hrem. }
          rewrite Hex in Hex'. injection Hex' as <-. rewrite (Heq Hal). lia.
        - specialize (Hlt Hal). lia. }
      split_and!; try done.
      * etransitivity; [exact Hsub|]. apply delete_subseteq.
      * intros Hal. exfalso. unfold all_live in Hal. rewrite Hr in Hal.
        apply Forall_cons in Hal as [Hal _]. simpl in Hal. lia.
      * intros _. simpl in Hle. lia.
Qed.

Lemma expire_wf T time c :
  wf T c →
  ∃ c', expire time c = (Ok tt, c') ∧
        wf T c' ∧ all_live time c' ∧
        maxsize c' = maxsize c ∧ ttl c' = ttl c ∧
        data c' ⊆ data c ∧
        (all_live time c → c' = c) ∧
        (¬ all_live time c → currsize c' < currsize c).
Proof. intros Hwf. by apply (expire_from_wf T time (ring c) c). Qed.

Lemma all_live_removed time c k :
  all_live time c → all_live time (removed k c).
Proof. unfold all_live, removed. simpl. apply Forall_filter_weak. Qed.

Lemma getitem_live time key c e v :
  assoc key (links c) = Some e → time < e → data c !! key = Some v →
  getitem time key c = (Ok v, move_to_end key e c).
Proof.
  intros Ha Ht Hv. unfold getitem, getlink, cache_getitem. run_m.
  rewrite Ha. run_m. rewrite bool_decide_true by done. simpl. by rewrite Hv.
Qed.

Lemma delitem_live time key c e v :
  assoc key (links c) = Some e → time < e → data c !! key = Some v →
  delitem time key c = (Ok tt, removed key c).
Proof.
  intros Ha Ht Hv. unfold delitem. unfold bind at 1.
  rewrite cache_delitem_eq, Hv. unfold bind at 1. rewrite links_pop_eq. simpl.
  rewrite Ha. run_m. by rewrite bool_decide_true.
Qed.

Lemma pop_live time key c e v :
  assoc key (links c) = Some e → time < e → data c !! key = Some v →
  pop time key c = (Ok v, removed key (move_to_end key e c)).
Proof.
  intros Ha Ht Hv. unfold pop, contains. run_m. rewrite Ha. run_m.
  rewrite bool_decide_true by done.
  rewrite (getitem_live time key c e v) by done.
  rewrite (delitem_live time key (move_to_end key e c) e v); [done| |done..].
  unfold move_to_end. simpl. by rewrite assoc_move_to_end.
Qed.

(** With no link expired, [popitem] removes the least recently used key. *)
Lemma popitem_live T time c lru e0 rest :
  wf T c → all_live time c → links c = (lru, e0) :: rest →
  ∃ v, popitem time c = (Ok (lru, v), removed lru (move_to_end lru e0 c)) ∧
       wf T (removed lru (move_to_end lru e0 c)) ∧
       all_live time (removed lru (move_to_end lru e0 c)).
Proof.
  intros Hwf Hlive Hl.
  destruct (expire_wf T time c Hwf) as (c' & Hex & _ & _ & _ & _ & _ & Heq & _).
  rewrite (Heq Hlive) in Hex. clear c' Heq.
  assert (assoc lru (links c) = Some e0) as Ha.
  { rewrite Hl. simpl. by rewrite decide_True. }
  assert (time < e0) as Ht.
  { destruct Hwf as (_ & H2 & _). unfold all_live in Hlive.
    rewrite Forall_forall in Hlive. apply (Hlive (lru, e0)).
    rewrite <- H2, Hl. apply list_elem_of_here. }
  assert (is_Some (data c !! lru)) as [v Hv].
  { apply (wf_links_elem T); [done|]. rewrite Hl. simpl. apply list_elem_of_here. }
  pose proof (wf_move_to_end T c lru e0 Hwf Ha) as Hwf1.
  exists v. split; [|split].
  - unfold popitem. unfold bind at 1. rewrite Hex.
    unfold bind at 1, gets, id. rewrite Hl.
    unfold bind. by rewrite (pop_live time lru c e0 v).
  - apply wf_removed; [done|]. simpl. eauto.
  - apply all_live_removed. exact Hlive.
Qed.

Lemma wf_links_nonempty T c :
  wf T c → 1 ≤ currsize c → links c ≠ [].
Proof.
  intros (H1 & H2 & H3 & H4 & _) Hpos Hnil.
  rewrite Hnil in H2. apply Permutation_nil_l in H2.
  assert (data c = ∅) as Hd.
  { apply map_empty. intros k. apply eq_None_not_Some.
    rewrite H3, <- H2. by intros ?%elem_of_nil. }
  rewrite Hd, map_size_empty in H4. lia.
Qed.

(** On a well-formed store within capacity with no link expired, the
    eviction loop returns: at once when there is room, after evicting the
    least recently used key when the store is full. *)
Lemma evict_while_wf T time c :
  wf T c → within_capacity c → all_live time c → 1 ≤ maxsize c →
  ∃ c2, evict_while (Z.to_nat (currsize c + 1 - maxsize c)) time c = (Ok tt, c2) ∧
        wf T c2 ∧
        ((currsize c + 1 ≤ maxsize c ∧ c2 = c) ∨
         (currsize c = maxsize c ∧
          ∃ lru e0 rest, links c = (lru, e0) :: rest ∧
                         c2 = removed lru (move_to_end lru e0 c))).
Proof.
  intros Hwf [Hsz Hcap] Hlive Hmx.
  destruct (decide (currsize c + 1 ≤ maxsize c)) as [Hroom|Hfull].
  - exists c. split; [|split; [done|by left]].
    replace (Z.to_nat (currsize c + 1 - maxsize c)) with 0%nat by lia.
    simpl. run_m. by rewrite bool_decide_false by lia.
  - assert (currsize c = maxsize c) as Heq by lia.
    destruct (links c) as [|[lru e0] rest] eqn:Hl.
    { exfalso. apply (wf_links_nonempty T c); [done|lia|done]. }
    destruct (popitem_live T time c lru e0 rest Hwf Hlive Hl) as (v & Hpop & Hwf2 & _).
    exists (removed lru (move_to_end lru e0 c)).
    split; [|split; [done|right; eauto 10]].
    replace (Z.to_nat (currsize c + 1 - maxsize c)) with 1%nat by lia.
    simpl. unfold bind at 1, gets, id. rewrite bool_decide_true by lia.
    unfold bind at 1. rewrite Hpop. run_m.
    by rewrite bool_decide_false by lia.
Qed.

Lemma cache_setitem_eq time key v c :
  cache_setitem time key v c =
    if bool_decide (1 > maxsize c) then (Raise (ValueError "value too large"), c)
    else
      match (if bool_decide (data c !! key = None)
             then evict_while (Z.to_nat (currsize c + 1 - maxsize c)) time c
             else (Ok tt, c)) with
      | (Ok _, c2) => (Ok tt, stored key v c2)
      | (Raise e, c2) => (Raise e, c2)
      | (Diverge, c2) => (Diverge, c2)
      end.
Proof.
  unfold cache_setitem. unfold bind at 1, gets at 1, id.
  case_bool_decide; [done|]. unfold bind at 1.
  case_bool_decide; [|done].
  by destruct (evict_while _ time c) as [[[]|e|] c2].
Qed.

Lemma setitem_eq time key v c :
  setitem time key v c =
    match expire time c with
    | (Ok _, c1) =>
        match cache_setitem time key v c1 with
        | (Ok _, c3) => (Ok tt, linked time key c3)
        | (Raise e, c3) => (Raise e, c3)
        | (Diverge, c3) => (Diverge, c3)
        end
    | (Raise e, c1) => (Raise e, c1)
    | (Diverge, c1) => (Diverge, c1)
    end.
Proof.
  unfold setitem. unfold bind at 1.
  destruct (expire time c) as [[[]|e|] c1]; [|done..].
  unfold bind at 1.
  destruct (cache_setitem time key v c1) as [[[]|e|] c3]; [|done..].
  unfold linked, getlink. run_m.
  by destruct (assoc key (links c3)).
Qed.

Lemma wf_linked_stored T time key v c :
  wf T c → T ≤ time → wf time (linked time key (stored key v c)).
Proof.
  intros Hwf HT. pose proof (wf_links_NoDup _ _ Hwf) as Hnd.
  pose proof (wf_links_elem T c key Hwf) as Hkey.
  destruct Hwf as (H1 & H2 & H3 & H4 & H5 & H6).
  assert (ring (linked time key (stored key v c)) =
            drop_key key (ring c) ++ [(key, time + ttl c)] ∧
          links (linked time key (stored key v c)) =
            drop_key key (links c) ++ [(key, time + ttl c)]) as [Hr Hl].
  { unfold linked, stored. simpl.
    destruct (assoc key (links c)) as [e|] eqn:E; simpl.
    - split; [done|].
      rewrite set_expires_app, set_expires_notin by apply drop_key_not_elem.
      rewrite set_expires_cons. by rewrite decide_True.
    - apply assoc_None_iff in E as Hnot.
      assert (key ∉ (ring c).*1) as Hnot' by (by rewrite <- H2).
      rewrite !drop_key_notin by done. split; [done|].
      rewrite set_expires_app, set_expires_notin by done.
      rewrite set_expires_cons. by rewrite decide_True. }
  unfold wf. rewrite Hr, Hl.
  assert (data (linked time key (stored key v c)) = <[key := v]> (data c)) as Hd.
  { unfold linked, stored. simpl. by destruct (assoc key (links c)). }
  assert (currsize (linked time key (stored key v c)) =
          currsize c + (if bool_decide (data c !! key = None) then 1 else 0)) as Hc.
  { unfold linked, stored. simpl. by destruct (assoc key (links c)). }
  assert (ttl (linked time key (stored key v c)) = ttl c) as Ht.
  { unfold linked, stored. simpl. by destruct (assoc key (links c)). }
  rewrite Hd, Hc, Ht. split_and!.
  - rewrite fmap_app. simpl. apply NoDup_app. split_and!.
    + by apply NoDup_drop_key.
    + intros k Hk ->%list_elem_of_singleton. by apply drop_key_not_elem in Hk.
    + apply NoDup_singleton.
  - unfold drop_key. by rewrite H2.
  - intros k. rewrite fmap_app, elem_of_app, elem_of_drop_key_fst. simpl.
    rewrite list_elem_of_singleton, <- H3.
    destruct (decide (key = k)) as [->|Hne].
    + rewrite lookup_insert_eq. split; [tauto|eauto].
    + rewrite lookup_insert_ne by done.
      split; [intros ?; left; split; [congruence|done]|].
      intros [[_ ?]|?]; [done|congruence].
  - case_bool_decide as Hk.
    + rewrite map_size_insert_None by done. lia.
    + rewrite map_size_insert_Some by (by apply not_eq_None_Some). lia.
  - apply StronglySorted_app. split_and!.
    + intros p q Hp ->%list_elem_of_singleton. simpl.
      apply list_elem_of_filter in Hp as [_ Hp].
      rewrite Forall_forall in H6. specialize (H6 p Hp). simpl in H6. lia.
    + by apply StronglySorted_filter.
    + repeat constructor.
  - apply Forall_app. split.
    + apply Forall_filter_weak. eapply Forall_impl; [exact H6|]. simpl. lia.
    + repeat constructor. simpl. lia.
Qed.

(** [setitem] on a well-formed store within capacity: the store stays
    well formed, and with [maxsize >= 1] the call returns, storing the
    value in the store [c2] left by the purge and, for a new key on a full
    store, by the eviction of the least recently used key. *)
Lemma setitem_wf T time key v c :
  wf T c → within_capacity c → T ≤ time →
  wf time (setitem time key v c).2 ∧
  (1 ≤ maxsize c →
   ∃ c1 c2,
     expire time c = (Ok tt, c1) ∧ wf T c1 ∧ within_capacity c1 ∧
     data c1 ⊆ data c ∧
     (all_live time c → c1 = c) ∧
     (¬ all_live time c → currsize c1 < currsize c) ∧
     setitem time key v c = (Ok tt, linked time key (stored key v c2)) ∧
     wf T c2 ∧
     ((data c1 !! key ≠ None ∨ currsize c1 + 1 ≤ maxsize c1) ∧ c2 = c1 ∨
      (data c1 !! key = None ∧ currsize c1 = maxsize c1 ∧
       ∃ lru e0 rest, links c1 = (lru, e0) :: rest ∧
                      c2 = removed lru (move_to_end lru e0 c1)))).
Proof.
  intros Hwf Hwc HT.
  destruct (expire_wf T time c Hwf)
    as (c1 & Hex & Hwf1 & Hlive1 & Hmx1 & Htl1 & Hsub & Hsame & Hless).
  pose proof (wc_expire time c Hwc) as Hwc1. rewrite Hex in Hwc1. simpl in Hwc1.
  rewrite setitem_eq, Hex, cache_setitem_eq.
  case_bool_decide as Hsmall.
  { split; [by apply (wf_mono T)|]. intros ?. lia. }
  case_bool_decide as Hnew.
  - destruct (evict_while_wf T time c1 Hwf1 Hwc1 Hlive1) as (c2 & Hev & Hwf2 & Hcase);
      [lia|].
    rewrite Hev. split; [by apply (wf_linked_stored T)|].
    intros _. exists c1, c2. split_and!; try done.
    destruct Hcase as [[? ->]|[? ?]]; [left; split; [by right|done]|by right].
  - split; [by apply (wf_linked_stored T)|].
    intros _. exists c1, c1. split_and!; try done. left. split; [by left|done].
Qed.

Lemma TTLCache_get_wf T time key c :
  wf T c →
  wf T (TTLCache_get time key c).2 ∧ ∃ v, (TTLCache_get time key c).1 = Ok v.
Proof.
  intros Hwf. rewrite TTLCache_get_eq.
  destruct (assoc key (links c)) as [e|] eqn:E; [|eauto].
  case_bool_decide; [|eauto].
  assert (is_Some (data c !! key)) as [v Hv].
  { apply (wf_links_elem T); [done|]. apply assoc_is_Some. by rewrite E. }
  rewrite Hv. simpl. split; [by apply wf_move_to_end|eauto].
Qed.

Lemma len_wf T time c :
  wf T c → wf T (len time c).2 ∧ ∃ n, (len time c).1 = Ok n.
Proof.
  intros Hwf. destruct (expire_wf T time c Hwf) as (c1 & Hex & Hwf1 & _).
  unfold len. run_m. rewrite Hex. simpl. split; [done|eauto].
Qed.

Lemma do_call_wf T c m :
  wf T (_cache m) → within_capacity (_cache m) → T ≤ reading c →
  wf (reading c) (_cache (do_call c m).2).
Proof.
  intros Hwf Hwc HT. rewrite do_call_cache. destruct c as [key t|key v t|t]; simpl in *.
  - apply (wf_mono T); [done|]. by apply TTLCache_get_wf.
  - by apply (setitem_wf T).
  - apply (wf_mono T); [done|]. by apply len_wf.
Qed.

Lemma after_calls_wf h : ∀ T m mx tl,
  wf T (_cache m) → within_capacity (_cache m) → has_config mx tl (_cache m) →
  timer_monotonic T h →
  wf (last_reading T h) (_cache (after_calls h m)) ∧
  within_capacity (_cache (after_calls h m)) ∧
  has_config mx tl (_cache (after_calls h m)).
Proof.
  induction h as [|c h IH]; intros T m mx tl Hwf Hwc Hcfg Hmono; [done|].
  destruct Hmono as [Hc Hh]. rewrite after_calls_cons.
  unfold last_reading. rewrite fmap_cons.
  rewrite (last_cons_default (reading <$> h) (reading c) T).
  apply (IH (reading c)); [by apply (do_call_wf T)|by apply wc_do_call|
                          by apply config_do_call|done].
Qed.

Lemma within_capacity_init mx tl :
  0 ≤ mx → within_capacity (TTLCache_init mx tl).
Proof. intros H. unfold within_capacity, TTLCache_init. simpl. by rewrite map_size_empty. Qed.

Lemma submap_smaller_misses (m1 m2 : gmap string value) :
  m1 ⊆ m2 → (size m1 < size m2)%nat →
  ∃ k, is_Some (m2 !! k) ∧ m1 !! k = None.
Proof.
  intros Hsub Hlt.
  destruct (decide (m2 ∖ m1 = ∅)) as [Hempty|Hne].
  - exfalso. assert (m1 = m2) as ->; [|lia].
    apply map_eq. intros k. destruct (m2 !! k) as [x|] eqn:E2.
    + destruct (m1 !! k) as [y|] eqn:E1.
      * by rewrite (lookup_weaken _ _ _ _ E1 Hsub) in E2.
      * assert ((m2 ∖ m1) !! k = Some x) as Hd
          by (by apply lookup_difference_Some).
        by rewrite Hempty, lookup_empty in Hd.
    + by eapply lookup_weaken_None.
  - apply map_choose in Hne as (k & x & [H2 H1]%lookup_difference_Some). eauto.
Qed.

Lemma after_calls_capacity h : ∀ m mx tl,
  within_capacity (_cache m) → has_config mx tl (_cache m) →
  within_capacity (_cache (after_calls h m)) ∧
  has_config mx tl (_cache (after_calls h m)).
Proof.
  induction h as [|c h IH]; intros m mx tl Hwc Hcfg; [done|].
  rewrite after_calls_cons. apply IH; [by apply wc_do_call|by apply config_do_call].
Qed.

Lemma data_linked_stored time key v c :
  data (linked time key (stored key v c)) = <[key := v]> (data c).
Proof. unfold linked, stored. simpl. by destruct (assoc key (links c)). Qed.

(** C4: on a manager built with a capacity [mx >= 0], after any history
    of calls the store holds at most [mx] values.  When moreover the timer
    is monotonic and [mx >= 1], a [set] of a new key on a store that holds
    [mx] values returns, stores the value, keeps the store within [mx], and
    has removed at least one of the values that were stored; when no
    stored value has expired, what it removes is exactly the least
    recently used key. *)
Theorem set_keeps_within_capacity (mx tl t0 : Z) (h : list call) :
  0 ≤ mx →
  let m := after_calls h (init mx tl) in
  Z.of_nat (size (data (_cache m))) ≤ mx ∧
  (timer_monotonic t0 h →
   ∀ key v time,
     0 < mx → last_reading t0 h ≤ time →
     data (_cache m) !! key = None →
     Z.of_nat (size (data (_cache m))) = mx →
     ∃ m', set key v time m = (Ok tt, m') ∧
           data (_cache m') !! key = Some v ∧
           Z.of_nat (size (data (_cache m'))) ≤ mx ∧
           (∃ k, is_Some (data (_cache m) !! k) ∧ data (_cache m') !! k = None) ∧
           (all_live time (_cache m) →
              ∃ lru e rest,
                links (_cache m) = (lru, e) :: rest ∧
                data (_cache m') = <[key := v]> (delete lru (data (_cache m))))).
Proof.
  intros Hmx m. split.
  - destruct (after_calls_capacity h (init mx tl) mx tl) as [[Hsz Hcap] [Hm _]];
      [by apply within_capacity_init|done|].
    fold m in Hsz, Hcap, Hm. lia.
  - intros Hmono key v time Hpos Htime Hnew Hfull.
    destruct (after_calls_wf h t0 (init mx tl) mx tl) as (Hwf & Hwc & [Hcm Hct]);
      [apply wf_init|by apply within_capacity_init|done|done|].
    fold m in Hwf, Hwc, Hcm, Hct.
    set (c := _cache m) in *.
    destruct (setitem_wf _ time key v c Hwf Hwc Htime) as [_ Hset].
    destruct Hset as (c1 & c2 & Hex & Hwf1 & Hwc1 & Hsub & Hsame & Hless & Hset & Hwf2 & Hcase);
      [lia|].
    pose proof (wc_setitem time key v c Hwc) as Hwc'.
    pose proof (setitem_config mx tl time key v c (conj Hcm Hct)) as [Hcm' _].
    rewrite Hset in Hwc', Hcm'. cbn [fst snd] in Hwc', Hcm'.
    destruct Hwc' as [Hsz' Hcap']. rewrite data_linked_stored in Hsz'.
    exists (mkCacheManager (linked time key (stored key v c2)) (_stats m)).
    rewrite set_eq. fold c. rewrite Hset. cbn [_cache].
    rewrite !data_linked_stored.
    assert (data c1 !! key = None) as Hnew1 by (by eapply lookup_weaken_None).
    destruct Hwc as [Hsz Hcap]. destruct Hwc1 as [Hsz1 Hcap1].
    assert (maxsize c1 = mx) as Hcm1.
    { pose proof (expire_config mx tl time c (conj Hcm Hct)) as [H _].
      by rewrite Hex in H. }
    assert (all_live time c →
            ∃ lru e rest, links c = (lru, e) :: rest ∧
                          data c2 = delete lru (data c)) as Hlru.
    { intros Hlive. specialize (Hsame Hlive). subst c1.
      destruct Hcase as [[[?|?] _]|(_ & _ & lru & e0 & rest & Hl & ->)];
        [done|lia|]. eauto 10. }
    split_and!; [done|apply lookup_insert_eq|lia| |].
    + destruct (decide (Forall (fun p : string * Z => time < p.2) (ring c)))
        as [Hlive|Hdead].
      * destruct (Hlru Hlive) as (lru & e & rest & Hl & Hd2).
        exists lru.
        assert (is_Some (data c !! lru)) as Hin.
        { apply (wf_links_elem _ c lru Hwf). rewrite Hl. simpl.
          apply list_elem_of_here. }
        split; [done|].
        rewrite lookup_insert_ne by (intros ->; rewrite Hnew in Hin; by destruct Hin).
        rewrite Hd2. apply lookup_delete_eq.
      * specialize (Hless Hdead).
        destruct (submap_smaller_misses (data c1) (data c) Hsub) as (k & Hk & Hk1);
          [lia|].
        exists k. split; [done|].
        rewrite lookup_insert_ne by (intros ->; rewrite Hnew in Hk; by destruct Hk).
        destruct Hcase as [[_ ->]|(_ & _ & lru & e0 & rest & Hl & ->)]; [done|].
        simpl. destruct (decide (lru = k)) as [->|Hne];
          [apply lookup_delete_eq|by rewrite lookup_delete_ne].
    + intros Hlive. destruct (Hlru Hlive) as (lru & e & rest & Hl & Hd2).
      exists lru, e, rest. by rewrite Hd2.
Qed.

Lemma set_keeps_within_capacity_witness :
  let h := [CallSet "k1" (VInt 1) 0; CallSet "k2" (VInt 2) 1;
            CallSet "k3" (VInt 3) 2; CallGet "k1" 3] in
  let m := after_calls h (init 3 60) in
  ∃ m', set "k4" (VInt 4) 4 m = (Ok tt, m') ∧
        data (_cache m') !! "k4" = Some (VInt 4) ∧
        Z.of_nat (size (data (_cache m'))) ≤ 3 ∧
        data (_cache m') = <[ "k4" := VInt 4 ]> (delete "k2" (data (_cache m))).
Proof.
  intros h m.
  destruct (set_keeps_within_capacity 3 60 0 h) as [_ H]; [lia|].
  destruct (H ltac:(simpl; lia) "k4" (VInt 4) 4)
    as (m' & Hset & Hk & Hsz & _ & Hlru);
    [lia|vm_compute; discriminate|reflexivity|reflexivity|].
  exists m'. split_and!; [done..|].
  destruct Hlru as (lru & e & rest & Hl & Hd).
  - vm_compute. repeat constructor.
  - vm_compute in Hl. injection Hl as <- _ _. exact Hd.
Defined.

(** ** The loop budget is never exhausted *)

Lemma nd_cache_delitem mx n k :
  hoare (bounded mx n) (cache_delitem k) (ends_lowered mx n).
Proof.
  intros c [Hn Hm]. rewrite cache_delitem_eq.
  destruct (data c !! k); unfold ends_lowered, bounded; simpl;
    split_and!; try done; try lia.
Qed.

Lemma nd_links_pop mx n k :
  hoare (bounded mx n) (links_pop k) (ends_bounded mx n).
Proof.
  intros c H. rewrite links_pop_eq. by destruct (assoc k (links c)).
Qed.

Lemma nd_getitem mx n time k :
  hoare (bounded mx n) (getitem time k) (ends_bounded mx n).
Proof.
  intros c H. unfold getitem, getlink, cache_getitem. run_m.
  destruct (assoc k (links c)); run_m.
  - case_bool_decide; simpl; [|done]. by destruct (data c !! k).
  - by destruct (data c !! k).
Qed.

Ltac nd_side :=
  intros; unfold ends_bounded, ends_lowered in *;
  repeat match goal with H : _ ∧ _ |- _ => destruct H end;
  first [congruence | split; [discriminate|assumption]].

Lemma nd_expire_from mx n time r :
  hoare (bounded mx n) (expire_from time r) (ends_bounded mx n).
Proof.
  induction r as [|[k e] r IH]; simpl; [by intros c Hc|].
  case_bool_decide; [by intros c Hc|].
  eapply hoare_bind; [apply nd_cache_delitem| |nd_side..].
  intros ?. eapply hoare_conseq; [|by intros ? (_ & ? & _)|done].
  eapply hoare_bind; [apply nd_links_pop| |nd_side..].
  intros ?. eapply hoare_conseq; [|by intros ? [_ ?]|done].
  eapply hoare_bind with (R := ends_bounded mx n); [by intros c Hc| |nd_side..].
  intros ?. eapply hoare_conseq; [apply IH|by intros ? [_ ?]|done].
Qed.

Lemma nd_expire mx n time :
  hoare (bounded mx n) (expire time) (ends_bounded mx n).
Proof. intros c H. by apply (nd_expire_from mx n time (ring c)). Qed.

Ltac nd_done :=
  intros; unfold ends_lowered, ends_bounded, bounded in *; simpl in *;
  repeat match goal with H : _ ∧ _ |- _ => destruct H end;
  repeat split; intros; first [discriminate | congruence | lia].

Lemma nd_delitem mx n time k :
  hoare (bounded mx n) (delitem time k) (ends_lowered mx n).
Proof.
  intros c [Hn Hm]. unfold delitem. run_m. rewrite cache_delitem_eq.
  destruct (data c !! k); simpl; [|nd_done].
  rewrite links_pop_eq. simpl.
  destruct (assoc k (links c)); simpl; [|nd_done].
  case_bool_decide; nd_done.
Qed.

Lemma nd_popitem mx n time :
  hoare (bounded mx n) (popitem time) (ends_lowered mx n).
Proof.
  unfold popitem.
  eapply hoare_bind with (R := ends_bounded mx n); [apply nd_expire| |nd_done..].
  intros ?. eapply hoare_conseq; [|by intros ? [_ ?]|done].
  intros c Hc. unfold pop, contains. run_m.
  destruct (links c) as [|[k e] rest]; [nd_done|].
  destruct (assoc k (links c)); simpl; [|nd_done].
  case_bool_decide; simpl; [|nd_done].
  pose proof (nd_getitem mx n time k c Hc) as [Hnd Hg].
  destruct (getitem time k c) as [[v|e'|] c1]; simpl in *; [|nd_done|done].
  pose proof (nd_delitem mx n time k c1 Hg) as (Hnd' & Hb & Hlow).
  destruct (delitem time k c1) as [[[]|e'|] c2]; simpl in *; [|nd_done|done].
  specialize (Hlow tt eq_refl). nd_done.
Qed.

Lemma nd_evict_while mx time fuel : ∀ n,
  n + 1 - mx ≤ Z.of_nat fuel →
  hoare (bounded mx n) (evict_while fuel time) (ends_bounded mx n).
Proof.
  induction fuel as [|fuel IH]; intros n Hfuel c [Hn Hm]; simpl; run_m.
  - by rewrite bool_decide_false by lia.
  - case_bool_decide; [|done].
    pose proof (nd_popitem mx n time c (conj Hn Hm)) as (Hnd & Hb & Hlow).
    destruct (popitem time c) as [[kv|e|] c1]; simpl in *; [|done..].
    destruct (IH (n - 1) ltac:(lia) c1 (Hlow kv eq_refl)) as [Hnd' [Hn' Hm']].
    split; [done|]. split; [lia|done].
Qed.

(** [setitem] never exhausts the budget of the eviction loop: the model
    of [TTLCache.__setitem__] always returns or raises. *)
Lemma setitem_ends time key v c : (setitem time key v c).1 ≠ Diverge.
Proof.
  rewrite setitem_eq.
  pose proof (nd_expire (maxsize c) (currsize c) time c (conj (Z.le_refl _) eq_refl))
    as [Hnd _].
  destruct (expire time c) as [[[]|e|] c1]; [|done..].
  rewrite cache_setitem_eq. case_bool_decide; [done|].
  case_bool_decide; [|done].
  pose proof (nd_evict_while (maxsize c1) time
                (Z.to_nat (currsize c1 + 1 - maxsize c1)) (currsize c1)
                ltac:(lia) c1 (conj (Z.le_refl _) eq_refl)) as [Hnd' _].
  by destruct (evict_while _ time c1) as [[[]|e|] c2].
Qed.

End CacheProps.

(** * More properties of the rate limiter *)

Module RateLimiterExtra.
Import RateLimiterModel RateLimiterHistory Invariants ListFacts RateLimiterProps.

(** X1: at one clock reading, [check_limit] answers [True] exactly when
    [get_remaining_requests] is positive, and [record_request] is admitted
    exactly then. *)
Theorem admission_matches_remaining (key : string) (t now : Z) (rl : RateLimiter) :
  ∃ n, (get_remaining_requests key t rl).1 = Ok n ∧
       ((check_limit key t rl).1 = Ok true ↔ 0 < n) ∧
       ((record_request key t now rl).1 = Ok tt ↔ 0 < n).
Proof.
  rewrite get_remaining_requests_eq, check_limit_eq, record_request_eq.
  unfold window. destruct (_requests rl !! key) as [dq|]; simpl.
  - eexists. split; [done|].
    set (purged := popleft_while (t - time_window rl) dq).
    split.
    + split; [intros [= ?%bool_decide_eq_true]; lia|].
      intros ?. rewrite bool_decide_true by lia. done.
    + case_bool_decide; simpl;
        (split; [intros ?; try done; lia|intros ?; try done; exfalso; lia]).
  - eexists. split; [done|]. split.
    + split; [intros [= ?%bool_decide_eq_true]; lia|].
      intros ?. rewrite bool_decide_true by lia. done.
    + case_bool_decide; simpl;
        (split; [intros ?; try done; lia|intros ?; try done; exfalso; lia]).
Qed.

Lemma popleft_while_snoc_live bound dq x :
  bound ≤ x →
  popleft_while bound (popleft_while bound dq ++ [x]) = popleft_while bound dq ++ [x].
Proof.
  intros Hx. destruct (popleft_while bound dq) as [|t rest] eqn:E; simpl.
  - by rewrite bool_decide_false by lia.
  - apply popleft_while_head in E. by rewrite bool_decide_false by lia.
Qed.

(** X2: with a non-negative [time_window], a [record_request] that is
    admitted lowers [get_remaining_requests] of its key by exactly one, all
    read at the same instant. *)
Theorem admitted_request_uses_one
    (key : string) (t n : Z) (rl rl' : RateLimiter) :
  0 ≤ time_window rl →
  (get_remaining_requests key t rl).1 = Ok n →
  record_request key t t rl = (Ok tt, rl') →
  (get_remaining_requests key t rl').1 = Ok (n - 1).
Proof.
  intros Htw Hn Hrec. rewrite record_request_eq in Hrec.
  case_bool_decide as Hlen; [|done]. injection Hrec as <-.
  rewrite get_remaining_requests_eq in Hn |- *.
  destruct rl as [mx tw reqs]. unfold window, set_requests in *. simpl in *.
  rewrite lookup_insert_eq. simpl.
  rewrite popleft_while_snoc_live by lia. rewrite length_app. simpl.
  destruct (reqs !! key) as [dq|]; simpl in *; injection Hn as <-;
    do 2 f_equal; lia.
Qed.

Lemma admitted_request_uses_one_witness :
  let rl := (record_request "binance" 10 10 (init 3 60)).2 in
  (get_remaining_requests "binance" 20 (record_request "binance" 20 20 rl).2).1
    = Ok (2 - 1).
Proof.
  intros rl.
  apply (admitted_request_uses_one "binance" 20 2 rl
           (record_request "binance" 20 20 rl).2);
    [by vm_compute|reflexivity|reflexivity].
Defined.

Lemma after_call_other key c rl :
  on_other_key key c →
  _requests (after_call c rl) !! key = _requests rl !! key.
Proof.
  intros (k & Hk & Hne).
  destruct c as [k0 t|k0 t1 t2|k0 t|k0|]; simpl in Hk; simplify_eq; simpl.
  - rewrite check_limit_eq. simpl. by rewrite lookup_insert_ne.
  - rewrite record_request_eq. case_bool_decide; simpl; by rewrite lookup_insert_ne.
  - rewrite get_remaining_requests_eq.
    destruct (_requests rl !! k); simpl; [by rewrite lookup_insert_ne|done].
  - unfold reset. run_m.
    destruct (_requests rl !! k); simpl; [by rewrite lookup_insert_ne|done].
Qed.

Lemma after_calls_config h rl :
  max_requests (after_calls h rl) = max_requests rl ∧
  time_window (after_calls h rl) = time_window rl.
Proof.
  revert rl. induction h as [|c h IH]; intros rl; [done|]. simpl.
  destruct (IH (after_call c rl)) as [-> ->]. apply after_call_config.
Qed.

Lemma after_calls_other key h rl :
  Forall (on_other_key key) h →
  _requests (after_calls h rl) !! key = _requests rl !! key.
Proof.
  intros Hh. revert rl. induction Hh as [|c h Hc Hh IH]; intros rl; [done|].
  simpl. rewrite IH. by apply after_call_other.
Qed.

(** X3: calls about other keys never change what the limiter answers for
    a key: after any history of [check_limit], [record_request],
    [get_remaining_requests] and [reset] calls on other keys, the window of
    the key, its remaining quota and the answer of [check_limit] are what
    they were. *)
Theorem keys_are_independent
    (key : string) (h : list call) (t : Z) (rl : RateLimiter) :
  Forall (on_other_key key) h →
  window key (after_calls h rl) = window key rl ∧
  (get_remaining_requests key t (after_calls h rl)).1 =
    (get_remaining_requests key t rl).1 ∧
  (check_limit key t (after_calls h rl)).1 = (check_limit key t rl).1.
Proof.
  intros Hh. pose proof (after_calls_other key h rl Hh) as Hl.
  destruct (after_calls_config h rl) as [Hm Ht].
  assert (window key (after_calls h rl) = window key rl) as Hw
    by (unfold window; by rewrite Hl).
  split; [done|]. split.
  - rewrite !get_remaining_requests_eq, Hl, Hm, Ht.
    by destruct (_requests rl !! key).
  - rewrite !check_limit_eq. simpl. by rewrite Hw, Hm, Ht.
Qed.

Lemma keys_are_independent_witness :
  let h := [CallRecordRequest "binance" 1 1; CallRecordRequest "binance" 2 2;
            CallRecordRequest "binance" 3 3; CallReset "okx"] in
  (get_remaining_requests "kraken" 4 (after_calls h (init 2 60))).1 = Ok 2.
Proof.
  intros h.
  destruct (keys_are_independent "kraken" h 4 (init 2 60)) as (_ & -> & _);
    [|reflexivity].
  repeat constructor; eexists; (split; [reflexivity|discriminate]).
Defined.

(** X4: [reset(key)] gives the key its full quota back and touches no
    other key; [reset_all()] gives every key its full quota back. *)
Theorem reset_restores_quota (key other : string) (t : Z) (rl : RateLimiter) :
  0 ≤ max_requests rl →
  (get_remaining_requests key t (reset key rl).2).1 = Ok (max_requests rl) ∧
  (other ≠ key → _requests (reset key rl).2 !! other = _requests rl !! other) ∧
  (get_remaining_requests other t (reset_all rl).2).1 = Ok (max_requests rl).
Proof.
  intros Hmx. split; [|split].
  - rewrite get_remaining_requests_eq. unfold reset. run_m.
    destruct (_requests rl !! key) as [dq|] eqn:E; simpl.
    + rewrite lookup_insert_eq. simpl. do 2 f_equal. lia.
    + by rewrite E.
  - intros Hne. unfold reset. run_m.
    destruct (_requests rl !! key); simpl; [by rewrite lookup_insert_ne|done].
  - rewrite get_remaining_requests_eq. unfold reset_all. run_m.
    by rewrite lookup_empty.
Qed.

Lemma reset_restores_quota_witness :
  let rl := after_calls [CallRecordRequest "binance" 1 1;
                         CallRecordRequest "binance" 2 2] (init 2 60) in
  (get_remaining_requests "binance" 3 rl).1 = Ok 0 ∧
  (get_remaining_requests "binance" 3 (reset "binance" rl).2).1 = Ok 2.
Proof.
  intros rl. split; [reflexivity|].
  by destruct (reset_restores_quota "binance" "okx" 3 rl) as (-> & _); [by vm_compute|].
Defined.

Lemma popleft_while_all_stale bound dq :
  Forall (fun t => t < bound) dq → popleft_while bound dq = [].
Proof.
  induction 1 as [|t dq Ht Hdq IH]; simpl; [done|].
  by rewrite bool_decide_true by done.
Qed.

(** X6: on a limiter built with [max_requests >= 0] and driven by a clock
    that never runs backwards, once more than [time_window] has passed since
    the last call, every key has its full quota: [get_remaining_requests]
    returns [max_requests], and a request is admitted when [max_requests] is
    positive. *)
Theorem full_quota_after_idle_window
    (mx tw t0 : Z) (h : list call) (key : string) (now now' : Z) :
  0 ≤ mx →
  clock_monotonic t0 h →
  last_reading t0 h + tw < now →
  let rl := after_calls h (init mx tw) in
  (get_remaining_requests key now rl).1 = Ok mx ∧
  (0 < mx → (record_request key now now' rl).1 = Ok tt).
Proof.
  intros Hmx Hmono Hidle rl.
  destruct (after_calls_inv h t0 (init mx tw) Hmx (window_inv_init _ _ _) Hmono)
    as (Hinv & Hm & Ht). fold rl in Hinv, Hm, Ht. simpl in Hm, Ht.
  destruct (window_inv_window _ rl key ltac:(lia) Hinv) as (_ & _ & Hall).
  assert (popleft_while (now - time_window rl) (window key rl) = []) as Hp.
  { apply popleft_while_all_stale. eapply Forall_impl; [exact Hall|].
    simpl. lia. }
  split.
  - rewrite get_remaining_requests_eq.
    destruct (_requests rl !! key) as [dq|] eqn:E; simpl.
    + unfold window in Hp. rewrite E in Hp. simpl in Hp. rewrite Hp. simpl.
      do 2 f_equal. lia.
    + by rewrite Hm.
  - intros Hpos. rewrite record_request_eq. cbn zeta. rewrite Hp. simpl.
    by rewrite bool_decide_true by lia.
Qed.

Lemma full_quota_after_idle_window_witness :
  let h := [CallRecordRequest "binance" 1 1; CallRecordRequest "binance" 2 2;
            CallRecordRequest "binance" 3 3] in
  (get_remaining_requests "binance" 3 (after_calls h (init 2 60))).1 = Ok 0 ∧
  (get_remaining_requests "binance" 64 (after_calls h (init 2 60))).1 = Ok 2.
Proof.
  intros h. split; [reflexivity|].
  apply (full_quota_after_idle_window 2 60 0 h "binance" 64 64);
    [lia|unfold clock_monotonic; simpl; lia|by vm_compute].
Defined.

Lemma filter_none_in (P : Z → Prop) `{!∀ t, Decision (P t)} (l : list Z) :
  Forall (fun t => ¬ P t) l → filter P l = [].
Proof.
  induction 1 as [|t l Ht Hl IH]; [done|].
  by rewrite filter_cons_False.
Qed.

Lemma admission_inv_purge key T now rl acc :
  T ≤ now →
  admission_inv key T rl acc →
  admission_inv key now
    (set_requests
       <[key := popleft_while (now - time_window rl) (window key rl)]> rl) acc.
Proof.
  intros HT [(dropped & Hacc & Hdr) Hcnt]. split; [|done].
  destruct (popleft_while_split (now - time_window rl) (window key rl))
    as (stale & Hw & Hst).
  exists (dropped ++ stale). rewrite window_set_requests_eq. simpl. split.
  - by rewrite <- app_assoc, <- Hw.
  - apply Forall_app. split; [|done].
    eapply Forall_impl; [exact Hdr|]. simpl. lia.
Qed.

Lemma admission_inv_frame key k T T' w rl acc :
  k ≠ key → T ≤ T' →
  admission_inv key T rl acc →
  admission_inv key T' (set_requests <[k := w]> rl) acc.
Proof.
  intros Hne HT [(dropped & Hacc & Hdr) Hcnt]. split; [|done].
  exists dropped. rewrite window_set_requests_ne by done. simpl.
  split; [done|]. eapply Forall_impl; [exact Hdr|]. simpl. lia.
Qed.

Lemma admission_inv_mono key T T' rl acc :
  T ≤ T' → admission_inv key T rl acc → admission_inv key T' rl acc.
Proof.
  intros HT [(dropped & Hacc & Hdr) Hcnt]. split; [|done].
  exists dropped. split; [done|].
  eapply Forall_impl; [exact Hdr|]. simpl. lia.
Qed.

Lemma admission_inv_admit key T t1 t2 rl acc :
  T ≤ t1 → t1 ≤ t2 →
  let purged := popleft_while (t1 - time_window rl) (window key rl) in
  Z.of_nat (length purged) < max_requests rl →
  admission_inv key T rl acc →
  admission_inv key t2 (set_requests <[key := purged ++ [t2]]> rl)
    (acc ++ [t2]).
Proof.
  intros H1 H2 purged Hlt [(dropped & Hacc & Hdr) Hcnt].
  destruct (popleft_while_split (t1 - time_window rl) (window key rl))
    as (stale & Hw & Hst). fold purged in Hw.
  split.
  - exists (dropped ++ stale). rewrite window_set_requests_eq. simpl. split.
    + rewrite Hacc, Hw. by rewrite <- !app_assoc.
    + apply Forall_app. split.
      * eapply Forall_impl; [exact Hdr|]. simpl. lia.
      * eapply Forall_impl; [exact Hst|]. simpl. lia.
  - intros a. simpl. rewrite filter_app.
    destruct (decide (a ≤ t2 ≤ a + time_window rl)) as [Hin|Hout].
    + rewrite Hacc, Hw, !filter_app.
      rewrite (filter_none_in _ dropped), (filter_none_in _ stale).
      * rewrite filter_cons_True by done. simpl.
        rewrite !length_app. simpl.
        pose proof (length_filter (fun t => a ≤ t ≤ a + time_window rl) purged).
        lia.
      * eapply Forall_impl; [exact Hst|]. simpl. lia.
      * eapply Forall_impl; [exact Hdr|]. simpl. lia.
    + rewrite filter_cons_False by done. rewrite filter_nil, app_nil_r.
      apply Hcnt.
Qed.

Lemma admission_inv_empty key T rl :
  0 ≤ max_requests rl →
  window key rl = [] → admission_inv key T rl [].
Proof.
  intros Hmx Hw. split.
  - exists []. by rewrite Hw.
  - intros a. rewrite filter_nil. simpl. lia.
Qed.

Lemma admitted_step_inv key T c rl acc :
  0 ≤ max_requests rl →
  monotonic_from T (readings c) →
  admission_inv key T rl acc →
  admission_inv key (List.last (readings c) T) (after_call c rl)
    (admitted_step key c rl acc).
Proof.
  intros Hmx Hmono Hinv.
  destruct c as [k t|k t1 t2|k t|k|]; simpl in *.
  - destruct Hmono as [H1 _]. rewrite check_limit_eq. simpl.
    destruct (decide (k = key)) as [->|Hne].
    + by apply (admission_inv_purge key T).
    + by apply (admission_inv_frame key k T).
  - destruct Hmono as (H1 & H2 & _). rewrite record_request_eq.
    destruct (decide (k = key)) as [->|Hne].
    + case_bool_decide as Hlt; simpl.
      * by apply (admission_inv_admit key T t1 t2).
      * apply (admission_inv_mono key t1); [done|].
        by apply (admission_inv_purge key T).
    + case_bool_decide; simpl; apply (admission_inv_frame key k T); (done || lia).
  - destruct Hmono as [H1 _]. rewrite get_remaining_requests_eq.
    destruct (_requests rl !! k) as [dq|] eqn:E; simpl.
    + destruct (decide (k = key)) as [->|Hne].
      * replace dq with (window key rl) by (unfold window; by rewrite E).
        by apply (admission_inv_purge key T).
      * by apply (admission_inv_frame key k T).
    + by apply (admission_inv_mono key T).
  - unfold reset. run_m.
    destruct (decide (k = key)) as [->|Hne].
    + destruct (_requests rl !! key) as [dq|] eqn:E; simpl.
      * apply admission_inv_empty; [done|]. by rewrite window_set_requests_eq.
      * apply admission_inv_empty; [done|]. unfold window. by rewrite E.
    + destruct (_requests rl !! k) as [dq|] eqn:E; simpl; [|done].
      by apply (admission_inv_frame key k T).
  - apply admission_inv_empty; [done|]. unfold window, reset_all. run_m.
    by rewrite lookup_empty.
Qed.

Lemma admitted_inv key h : ∀ T rl acc,
  0 ≤ max_requests rl →
  clock_monotonic T h →
  admission_inv key T rl acc →
  admission_inv key (last_reading T h) (after_calls h rl)
    (admitted key h rl acc).
Proof.
  induction h as [|c h IH]; intros T rl acc Hmx Hmono Hinv; [done|].
  unfold clock_monotonic, last_reading in *. simpl in *.
  apply monotonic_from_app in Hmono as [Hc Hh].
  rewrite last_app_default.
  destruct (after_call_config c rl) as [Hm Ht].
  apply IH; [lia|exact Hh|by apply admitted_step_inv].
Qed.

(** X5: the sliding-window guarantee.  On a limiter built with
    [max_requests >= 0] and driven by a clock that never runs backwards,
    whatever calls are made, no interval of length [time_window] holds more
    than [max_requests] of the timestamps that [record_request] recorded for
    a key since the key was last reset; and these timestamps are the window
    of the key preceded by timestamps older than the current window. *)
Theorem sliding_window_guarantee
    (mx tw t0 : Z) (h : list call) (key : string) (a : Z) :
  0 ≤ mx →
  clock_monotonic t0 h →
  let recorded := admitted key h (init mx tw) [] in
  Z.of_nat (length (filter (fun t => a ≤ t ≤ a + tw) recorded)) ≤ mx ∧
  ∃ dropped,
    recorded = dropped ++ window key (after_calls h (init mx tw)) ∧
    Forall (fun t => t < last_reading t0 h - tw) dropped.
Proof.
  intros Hmx Hmono recorded.
  destruct (admitted_inv key h t0 (init mx tw) [] Hmx Hmono) as [Hd Hcnt].
  { by apply admission_inv_empty. }
  destruct (after_calls_config h (init mx tw)) as [Hm Ht]. simpl in Hm, Ht.
  rewrite Hm, Ht in Hcnt. rewrite Ht in Hd. split; [apply Hcnt|apply Hd].
Qed.

Lemma sliding_window_guarantee_witness :
  let h := [CallRecordRequest "binance" 1 1; CallRecordRequest "binance" 2 2;
            CallRecordRequest "binance" 3 3; CallRecordRequest "binance" 62 62;
            CallRecordRequest "binance" 63 63] in
  admitted "binance" h (init 2 60) [] = [1; 2; 62; 63] ∧
  Z.of_nat (length (filter (fun t => 2 ≤ t ≤ 2 + 60)
                      (admitted "binance" h (init 2 60) []))) ≤ 2.
Proof.
  intros h. split; [reflexivity|].
  apply (sliding_window_guarantee 2 60 0 h "binance" 2);
    [lia|unfold clock_monotonic; simpl; lia].
Defined.

End RateLimiterExtra.

(** * More of cache.py: [delete], [clear], error accounting and
      memoisation *)

Module CacheExtra.
Import CacheModel Invariants ListFacts CacheProps.

Lemma contains_eq time key c :
  contains time key c =
    (Ok (match assoc key (links c) with
         | Some e => bool_decide (time < e)
         | None => false
         end), c).
Proof. unfold contains. run_m. by destruct (assoc key (links c)). Qed.

Lemma delitem_eq time key c e v :
  assoc key (links c) = Some e → data c !! key = Some v →
  delitem time key c =
    (if bool_decide (time < e) then Ok tt else Raise (KeyError key),
     removed key c).
Proof.
  intros Ha Hv. unfold delitem. unfold bind at 1.
  rewrite cache_delitem_eq, Hv. unfold bind at 1. rewrite links_pop_eq. simpl.
  rewrite Ha. run_m. by case_bool_decide.
Qed.

Lemma wf_linked_has_value T c key e :
  wf T c → assoc key (links c) = Some e → is_Some (data c !! key).
Proof.
  intros Hwf Ha. apply (wf_links_elem T); [done|].
  apply assoc_is_Some. eauto.
Qed.

Lemma delete_eq T key t_in t_del m :
  wf T (_cache m) →
  CacheOps.delete key t_in t_del m =
    match assoc key (links (_cache m)) with
    | Some e =>
        if bool_decide (t_in < e) then
          if bool_decide (t_del < e)
          then (Ok tt, mkCacheManager (removed key (_cache m)) (_stats m))
          else (Raise (CacheError "delete" key (KeyError key)),
                mkCacheManager (removed key (_cache m))
                  (incr_errors (_stats m)))
        else (Ok tt, m)
    | None => (Ok tt, m)
    end.
Proof.
  intros Hwf. destruct m as [c st]. simpl in *.
  unfold CacheOps.delete, on_cache. run_m.
  rewrite contains_eq. simpl.
  destruct (assoc key (links c)) as [e|] eqn:Ha; [|done].
  destruct (wf_linked_has_value T c key e Hwf Ha) as [v Hv].
  case_bool_decide; simpl; [|done].
  rewrite (delitem_eq t_del key c e v Ha Hv).
  by case_bool_decide.
Qed.

Lemma wf_links_length T c : wf T c → length (links c) = size (data c).
Proof.
  intros (Hnd & Hperm & Hkeys & _).
  rewrite Hperm. rewrite <- (length_fmap fst (ring c)).
  rewrite <- (size_list_to_set (C:=gset string) _ Hnd), <- size_dom.
  f_equal. apply leibniz_equiv. intros k.
  by rewrite elem_of_dom, elem_of_list_to_set.
Qed.

Lemma wf_no_links T c :
  wf T c → links c = [] → c = TTLCache_init (maxsize c) (ttl c).
Proof.
  intros Hwf Hnil. pose proof (wf_links_length T c Hwf) as Hlen.
  destruct Hwf as (_ & Hperm & _ & Hsz & _).
  rewrite Hnil in Hperm, Hlen. apply Permutation_nil_l in Hperm.
  simpl in Hlen. symmetry in Hlen. apply map_size_empty_inv in Hlen.
  destruct c as [mx tl d n l r]. simpl in *. subst.
  by rewrite map_size_empty.
Qed.

(** [popitem] on a well-formed store: it raises on a store that is empty
    once purged, and otherwise returns and leaves fewer links. *)
Lemma popitem_wf T time c :
  wf T c →
  ∃ r c', popitem time c = (r, c') ∧ wf T c' ∧
          maxsize c' = maxsize c ∧ ttl c' = ttl c ∧
          ((∃ msg, r = Raise (KeyError msg)) ∧ links c' = [] ∨
           (∃ kv, r = Ok kv) ∧ (length (links c') < length (links c))%nat).
Proof.
  intros Hwf.
  destruct (expire_wf T time c Hwf)
    as (c1 & Hex & Hwf1 & Hlive & Hmx & Htl & Hsub & _).
  assert (length (links c1) ≤ length (links c))%nat as Hle.
  { rewrite (wf_links_length T c Hwf), (wf_links_length T c1 Hwf1).
    by apply map_subseteq_size. }
  destruct (links c1) as [|[lru e0] rest] eqn:Hl.
  - exists (Raise (KeyError "TTLCache is empty")), c1.
    split; [|split_and!; eauto].
    unfold popitem. unfold bind at 1. rewrite Hex.
    unfold bind, gets, id. by rewrite Hl.
  - assert (assoc lru (links c1) = Some e0) as Ha.
    { rewrite Hl. simpl. by rewrite decide_True. }
    assert (time < e0) as Ht.
    { destruct Hwf1 as (_ & H2 & _). unfold all_live in Hlive.
      rewrite Forall_forall in Hlive. apply (Hlive (lru, e0)).
      rewrite <- H2, Hl. apply list_elem_of_here. }
    destruct (wf_linked_has_value T c1 lru e0 Hwf1 Ha) as [v Hv].
    pose proof (wf_move_to_end T c1 lru e0 Hwf1 Ha) as Hwf2.
    assert (wf T (removed lru (move_to_end lru e0 c1))) as Hwf3.
    { apply wf_removed; [done|]. simpl. eauto. }
    exists (Ok (lru, v)), (removed lru (move_to_end lru e0 c1)).
    split; [|split_and!; [done..|right; split; [eauto|]]].
    + unfold popitem. unfold bind at 1. rewrite Hex.
      unfold bind at 1, gets, id. rewrite Hl.
      unfold bind. by rewrite (pop_live time lru c1 e0 v).
    + rewrite (wf_links_length T _ Hwf3). simpl.
      rewrite map_size_delete_Some by eauto.
      pose proof (wf_links_length T c1 Hwf1) as Hl1. rewrite Hl in Hl1.
      simpl in Hl1. simpl in Hle. lia.
Qed.

Lemma popitem_loop_wf T clock fuel : ∀ i c,
  wf T c → (length (links c) < fuel)%nat →
  ∃ msg, CacheOps.popitem_loop fuel clock i c =
           (Raise (KeyError msg), TTLCache_init (maxsize c) (ttl c)).
Proof.
  induction fuel as [|fuel IH]; intros i c Hwf Hlt; [lia|]. simpl.
  destruct (popitem_wf T (clock i) c Hwf)
    as (r & c' & Hp & Hwf' & Hmx & Htl & [[[msg ->] Hnil]|[[kv ->] Hlen]]).
  - exists msg. unfold bind. rewrite Hp. f_equal.
    rewrite (wf_no_links T c' Hwf' Hnil). by rewrite Hmx, Htl.
  - unfold bind. rewrite Hp.
    destruct (IH (S i) c' Hwf') as [msg Hm]; [lia|].
    exists msg. by rewrite Hm, Hmx, Htl.
Qed.

Lemma TTLCache_clear_wf T clock c :
  wf T c →
  CacheOps.TTLCache_clear clock c = (Ok tt, TTLCache_init (maxsize c) (ttl c)).
Proof.
  intros Hwf.
  destruct (popitem_loop_wf T clock (S (length (links c))) 0%nat c Hwf)
    as [msg Hm]; [lia|].
  unfold CacheOps.TTLCache_clear, bind, gets, id, try_except. cbv beta.
  by rewrite Hm.
Qed.

Lemma clear_eq T clock m :
  wf T (_cache m) →
  CacheOps.clear clock m =
    (Ok tt, mkCacheManager
              (TTLCache_init (maxsize (_cache m)) (ttl (_cache m)))
              (_stats m)).
Proof.
  intros Hwf. unfold CacheOps.clear, on_cache. run_m.
  by rewrite (TTLCache_clear_wf T clock _ Hwf).
Qed.

(** ** The store stays well formed under all five operations *)

Lemma do_op_inv T mx tl o m :
  wf T (_cache m) → within_capacity (_cache m) →
  has_config mx tl (_cache m) →
  RateLimiterModel.monotonic_from T (CacheOps.op_readings o) →
  let m' := (CacheOps.do_op o m).2 in
  wf (List.last (CacheOps.op_readings o) T) (_cache m') ∧
  within_capacity (_cache m') ∧ has_config mx tl (_cache m').
Proof.
  intros Hwf Hwc Hcfg Hmono. destruct o as [c|key t_in t_del|clock]; simpl in *.
  - destruct Hmono as [Hc _]. split_and!.
    + by apply (do_call_wf T).
    + by apply wc_do_call.
    + by apply config_do_call.
  - destruct Hmono as (H1 & H2 & _).
    rewrite (delete_eq T) by done.
    assert (wf t_del (_cache m)) as Hwf' by (apply (wf_mono T); [lia|done]).
    destruct (assoc key (links (_cache m))) as [e|] eqn:Ha; [|done].
    destruct (wf_linked_has_value T _ key e Hwf Ha) as [v Hv].
    assert (wf t_del (removed key (_cache m)) ∧
            within_capacity (removed key (_cache m)) ∧
            has_config mx tl (removed key (_cache m))) as Hrem.
    { split_and!; [apply wf_removed; [done|eauto]| |done].
      pose proof (wc_delitem t_del key (_cache m) Hwc) as Hd.
      by rewrite (delitem_eq t_del key _ e v Ha Hv) in Hd. }
    case_bool_decide; [|done]. by case_bool_decide.
  - rewrite (clear_eq T) by done. simpl. destruct Hcfg as [Hm Ht].
    rewrite Hm, Ht. split_and!; [apply wf_init| |done].
    apply within_capacity_init. destruct Hwc as [Hsz Hle]. lia.
Qed.

Lemma after_ops_cons o h m :
  CacheOps.after_ops (o :: h) m = CacheOps.after_ops h (CacheOps.do_op o m).2.
Proof. done. Qed.

Lemma after_ops_inv mx tl h : ∀ T m,
  wf T (_cache m) → within_capacity (_cache m) →
  has_config mx tl (_cache m) →
  CacheOps.ops_monotonic T h →
  let m' := CacheOps.after_ops h m in
  wf (CacheOps.ops_last_reading T h) (_cache m') ∧
  within_capacity (_cache m') ∧ has_config mx tl (_cache m').
Proof.
  induction h as [|o h IH]; intros T m Hwf Hwc Hcfg Hmono; [done|].
  unfold CacheOps.ops_monotonic, CacheOps.ops_last_reading in *.
  rewrite fmap_cons in *. simpl mjoin in *.
  apply RateLimiterProps.monotonic_from_app in Hmono as [Ho Hh].
  rewrite last_app_default, after_ops_cons.
  destruct (do_op_inv T mx tl o m Hwf Hwc Hcfg Ho) as (? & ? & ?).
  by apply IH.
Qed.

Lemma init_inv T mx tl :
  0 ≤ mx →
  wf T (_cache (init mx tl)) ∧ within_capacity (_cache (init mx tl)) ∧
  has_config mx tl (_cache (init mx tl)).
Proof.
  intros Hmx. split_and!; [apply wf_init|by apply within_capacity_init|done].
Qed.

(** ** No operation fails on a manager with room for a value *)

Lemma do_call_ok T mx tl c m :
  wf T (_cache m) → within_capacity (_cache m) →
  has_config mx tl (_cache m) → 1 ≤ mx → T ≤ reading c →
  (do_call c m).1 = Ok tt ∧
  errors (_stats (do_call c m).2) = errors (_stats m).
Proof.
  intros Hwf Hwc [Hmx Htl] Hpos HT. destruct c as [key t|key v t|t]; simpl in *.
  - rewrite get_eq.
    destruct (TTLCache_get_wf T t key _ Hwf) as (_ & v & Hv).
    destruct (TTLCache_get t key (_cache m)) as [r c']. simpl in Hv. subst r.
    simpl. by destruct (is_not_None v).
  - rewrite set_eq.
    destruct (setitem_wf T t key v _ Hwf Hwc HT) as (_ & Hok).
    destruct Hok as (c1 & c2 & _ & _ & _ & _ & _ & _ & Hs & _); [lia|].
    by rewrite Hs.
  - rewrite get_stats_eq. cbn zeta.
    destruct (len_wf T t _ Hwf) as (_ & n & Hn).
    destruct (len t (_cache m)) as [r c']. simpl in Hn. by subst r.
Qed.

Lemma do_op_ends_well T mx tl o m :
  wf T (_cache m) → within_capacity (_cache m) →
  has_config mx tl (_cache m) → 1 ≤ mx →
  RateLimiterModel.monotonic_from T (CacheOps.op_readings o) →
  CacheOps.ends_well o (CacheOps.do_op o m).1 ∧
  errors (_stats (CacheOps.do_op o m).2) =
    errors (_stats m) + CacheOps.count_raised [(CacheOps.do_op o m).1].
Proof.
  intros Hwf Hwc Hcfg Hpos Hmono.
  destruct o as [c|key t_in t_del|clock]; simpl in *.
  - destruct Hmono as [Hc _].
    destruct (do_call_ok T mx tl c m Hwf Hwc Hcfg Hpos Hc) as [-> ->].
    split; [by left|simpl; lia].
  - rewrite (delete_eq T) by done.
    destruct (assoc key (links (_cache m))) as [e|];
      [|split; [by left|simpl; lia]].
    case_bool_decide; [|split; [by left|simpl; lia]].
    case_bool_decide; simpl; (split; [|lia]); [by left|right; eauto].
  - rewrite (clear_eq T) by done. split; [by left|simpl; lia].
Qed.

Lemma outcomes_end_well mx tl h : ∀ T m,
  wf T (_cache m) → within_capacity (_cache m) →
  has_config mx tl (_cache m) → 1 ≤ mx →
  CacheOps.ops_monotonic T h →
  Forall2 CacheOps.ends_well h (CacheOps.outcomes h m) ∧
  errors (_stats (CacheOps.after_ops h m)) =
    errors (_stats m) + CacheOps.count_raised (CacheOps.outcomes h m).
Proof.
  induction h as [|o h IH]; intros T m Hwf Hwc Hcfg Hpos Hmono.
  { split; [constructor|simpl; lia]. }
  unfold CacheOps.ops_monotonic in *. rewrite fmap_cons in Hmono.
  simpl mjoin in Hmono.
  apply RateLimiterProps.monotonic_from_app in Hmono as [Ho Hh].
  destruct (do_op_inv T mx tl o m Hwf Hwc Hcfg Ho) as (Hwf' & Hwc' & Hcfg').
  destruct (do_op_ends_well T mx tl o m Hwf Hwc Hcfg Hpos Ho) as [He Hn].
  destruct (IH _ _ Hwf' Hwc' Hcfg' Hpos Hh) as [Hall Hcnt].
  rewrite after_ops_cons. simpl CacheOps.outcomes. split; [by constructor|].
  rewrite Hcnt, Hn. simpl. destruct (CacheOps.do_op o m).1; lia.
Qed.

(** X7: on a manager built with [maxsize >= 1] and a timer that never
    runs backwards, in every history of [get], [set], [delete], [clear]
    and [get_stats] calls, every [get], [set], [clear] and [get_stats]
    returns; a [delete] returns or raises the [CacheError] that wraps
    the store's [KeyError] for its key; and [errors] counts exactly the
    calls that raised. *)
Theorem cache_operations_end_well (mx tl t0 : Z) (h : list CacheOps.op) :
  1 ≤ mx →
  CacheOps.ops_monotonic t0 h →
  Forall2 CacheOps.ends_well h (CacheOps.outcomes h (init mx tl)) ∧
  errors (_stats (CacheOps.after_ops h (init mx tl))) =
    CacheOps.count_raised (CacheOps.outcomes h (init mx tl)).
Proof.
  intros Hmx Hmono.
  destruct (init_inv t0 mx tl) as (Hwf & Hwc & Hcfg); [lia|].
  destruct (outcomes_end_well mx tl h t0 (init mx tl) Hwf Hwc Hcfg Hmx Hmono)
    as [Hall Hcnt].
  split; [done|]. rewrite Hcnt. simpl. lia.
Qed.

Lemma cache_operations_end_well_witness :
  let h := [CacheOps.OpBase (CallSet "k1" (VInt 1) 0);
            CacheOps.OpBase (CallSet "k2" (VInt 2) 1);
            CacheOps.OpBase (CallGet "k1" 2);
            CacheOps.OpDelete "k1" 3 10;
            CacheOps.OpDelete "k2" 10 11;
            CacheOps.OpBase (CallGetStats 12);
            CacheOps.OpClear (fun _ => 13)] in
  Forall2 CacheOps.ends_well h (CacheOps.outcomes h (init 1 10)) ∧
  errors (_stats (CacheOps.after_ops h (init 1 10))) = 1.
Proof.
  intros h.
  destruct (cache_operations_end_well 1 10 0 h) as [H1 H2];
    [lia|unfold CacheOps.ops_monotonic; simpl; lia|].
  split; [exact H1|]. rewrite H2. reflexivity.
Defined.

(** ** [delete] *)

Lemma reachable_wf mx tl t0 h :
  0 ≤ mx → CacheOps.ops_monotonic t0 h →
  let m := CacheOps.after_ops h (init mx tl) in
  wf (CacheOps.ops_last_reading t0 h) (_cache m) ∧
  within_capacity (_cache m) ∧ has_config mx tl (_cache m).
Proof.
  intros Hmx Hmono.
  destruct (init_inv t0 mx tl Hmx) as (Hwf & Hwc & Hcfg).
  by apply after_ops_inv.
Qed.

Lemma get_unlinked key time m :
  assoc key (links (_cache m)) = None →
  get key time m =
    (Ok VNone, mkCacheManager (_cache m) (incr_misses (_stats m))).
Proof. intros Ha. by rewrite get_eq, TTLCache_get_eq, Ha. Qed.

Lemma get_expired key time m e :
  assoc key (links (_cache m)) = Some e → e ≤ time →
  get key time m =
    (Ok VNone, mkCacheManager (_cache m) (incr_misses (_stats m))).
Proof.
  intros Ha He. rewrite get_eq, TTLCache_get_eq, Ha.
  by rewrite bool_decide_false by lia.
Qed.

(** X8: [delete(key)] on a manager reached by any history (timer never
    running backwards, [maxsize >= 0]).  It raises [CacheError], and adds
    one to [errors], exactly when the entry was live at the membership
    test and has expired when the store deletes it; in every other case
    it returns and leaves [errors] as it was.  However it ends, [get(key)]
    is a miss at every reading from the membership test on, the values and
    expiry times of the other keys are untouched, and [hits] and [misses]
    are unchanged. *)
Theorem delete_removes_key
    (mx tl t0 : Z) (h : list CacheOps.op) (key : string) (t_in t_del : Z) :
  0 ≤ mx →
  CacheOps.ops_monotonic t0 h →
  let m := CacheOps.after_ops h (init mx tl) in
  let r := (CacheOps.delete key t_in t_del m).1 in
  let m' := (CacheOps.delete key t_in t_del m).2 in
  let expires_between :=
    ∃ e, assoc key (links (_cache m)) = Some e ∧ t_in < e ∧ e ≤ t_del in
  (expires_between →
   r = Raise (CacheError "delete" key (KeyError key)) ∧
   errors (_stats m') = errors (_stats m) + 1) ∧
  (¬ expires_between →
   r = Ok tt ∧ errors (_stats m') = errors (_stats m)) ∧
  (∀ t, t_in ≤ t → (get key t m').1 = Ok VNone) ∧
  (∀ k, k ≠ key →
     data (_cache m') !! k = data (_cache m) !! k ∧
     assoc k (links (_cache m')) = assoc k (links (_cache m))) ∧
  hits (_stats m') = hits (_stats m) ∧
  misses (_stats m') = misses (_stats m).
Proof.
  intros Hmx Hmono m r m' expires_between.
  destruct (reachable_wf mx tl t0 h Hmx Hmono) as (Hwf & _). fold m in Hwf.
  unfold r, m', expires_between.
  rewrite (delete_eq _ key t_in t_del m Hwf).
  destruct (assoc key (links (_cache m))) as [e|] eqn:Ha.
  - case_bool_decide as Hin.
    + assert (∀ t, (get key t
                 (mkCacheManager (removed key (_cache m)) (_stats m))).1
               = Ok VNone) as Hgone.
      { intros t. rewrite get_unlinked; [done|]. simpl.
        apply assoc_drop_key_eq. }
      assert (∀ k, k ≠ key →
                data (removed key (_cache m)) !! k = data (_cache m) !! k ∧
                assoc k (links (removed key (_cache m)))
                  = assoc k (links (_cache m))) as Hframe.
      { intros k Hne. simpl. split; [by apply lookup_delete_ne|].
        by apply assoc_drop_key_ne. }
      case_bool_decide as Hdel; simpl.
      * split_and!; [|done|by intros; apply Hgone|done..].
        intros (e' & [= <-] & _ & He). lia.
      * split_and!; [done| | |done..].
        -- intros Hno. exfalso. apply Hno. exists e. split_and!; [done..|lia].
        -- intros t _. rewrite get_eq. simpl.
           pose proof (Hgone t) as Hg. rewrite get_eq in Hg. simpl in Hg.
           by destruct (TTLCache_get t key (removed key (_cache m)))
             as [[?|?|] ?].
    + simpl. split_and!; [|done| |done..].
      * intros (e' & [= <-] & He & _). lia.
      * intros t Ht. rewrite (get_expired key t m e); [done..|lia].
  - simpl. split_and!; [by intros (e' & [=] & _)|done| |done..].
    intros t _. by rewrite get_unlinked.
Qed.

Lemma delete_removes_key_witness :
  let h := [CacheOps.OpBase (CallSet "a" (VInt 1) 0);
            CacheOps.OpBase (CallSet "b" (VInt 2) 1)] in
  let m := CacheOps.after_ops h (init 5 10) in
  (get "a" 3 m).1 = Ok (VInt 1) ∧
  (CacheOps.delete "a" 9 10 m).1 =
    Raise (CacheError "delete" "a" (KeyError "a")) ∧
  (CacheOps.delete "a" 2 2 m).1 = Ok tt ∧
  (get "a" 3 (CacheOps.delete "a" 2 2 m).2).1 = Ok VNone ∧
  (get "b" 3 (CacheOps.delete "a" 2 2 m).2).1 = Ok (VInt 2).
Proof.
  intros h m. split; [reflexivity|].
  destruct (delete_removes_key 5 10 0 h "a" 9 10) as (Hraise & _);
    [lia|unfold CacheOps.ops_monotonic; simpl; lia|].
  destruct (delete_removes_key 5 10 0 h "a" 2 2) as (_ & Hret & Hgone & _);
    [lia|unfold CacheOps.ops_monotonic; simpl; lia|].
  split_and!.
  - apply Hraise. exists 10. split_and!; [reflexivity|lia..].
  - apply Hret. intros (e & He & _ & Hle). vm_compute in He.
    injection He as <-. lia.
  - apply Hgone. lia.
  - reflexivity.
Defined.

(** ** [clear] *)

(** X9: [clear()] on a manager reached by any history (timer never
    running backwards, [maxsize >= 0]) returns and leaves the store as
    the constructor made it: no value, no link, entry count 0.  The
    counters are unchanged; afterwards every [get] is a miss and
    [get_stats] reports [current_size = 0]. *)
Theorem clear_empties_store
    (mx tl t0 : Z) (h : list CacheOps.op) (clock : nat → Z) :
  0 ≤ mx →
  CacheOps.ops_monotonic t0 h →
  let m := CacheOps.after_ops h (init mx tl) in
  ∃ m', CacheOps.clear clock m = (Ok tt, m') ∧
        _cache m' = TTLCache_init mx tl ∧
        _stats m' = _stats m ∧
        (∀ key t, (get key t m').1 = Ok VNone) ∧
        (∀ t, ∃ rep, (get_stats t m').1 = Ok rep ∧ current_size rep = 0).
Proof.
  intros Hmx Hmono m.
  destruct (reachable_wf mx tl t0 h Hmx Hmono) as (Hwf & _ & [Hm Ht]).
  fold m in Hwf, Hm, Ht.
  rewrite (clear_eq _ clock m Hwf), Hm, Ht.
  exists (mkCacheManager (TTLCache_init mx tl) (_stats m)).
  split_and!; [done..| |].
  - intros key t. by rewrite get_unlinked.
  - intros t. rewrite get_stats_eq. simpl. eauto.
Qed.

Lemma clear_empties_store_witness :
  let h := [CacheOps.OpBase (CallSet "a" (VInt 1) 0);
            CacheOps.OpBase (CallSet "b" (VInt 2) 1);
            CacheOps.OpBase (CallGet "a" 2)] in
  let m := CacheOps.after_ops h (init 5 10) in
  (get "a" 3 m).1 = Ok (VInt 1) ∧
  ∃ m', CacheOps.clear (fun i => 3 + Z.of_nat i) m = (Ok tt, m') ∧
        (get "a" 3 m').1 = Ok VNone ∧ hits (_stats m') = 1.
Proof.
  intros h m. split; [reflexivity|].
  destruct (clear_empties_store 5 10 0 h (fun i => 3 + Z.of_nat i))
    as (m' & Hc & _ & Hst & Hget & _);
    [lia|unfold CacheOps.ops_monotonic; simpl; lia|].
  exists m'. split; [exact Hc|]. split; [apply Hget|]. by rewrite Hst.
Defined.

(** ** A manager without room for a value *)

Lemma do_op_no_room mx tl o m :
  mx < 1 → _cache m = TTLCache_init mx tl →
  _cache (CacheOps.do_op o m).2 = TTLCache_init mx tl.
Proof.
  intros Hmx Hc. destruct o as [c|key t_in t_del|clock]; simpl.
  - rewrite do_call_cache, Hc. destruct c as [key t|key v t|t].
    + by rewrite TTLCache_get_eq.
    + rewrite setitem_eq. unfold expire. run_m.
      rewrite cache_setitem_eq. simpl. by rewrite bool_decide_true by lia.
    + unfold len, expire. by run_m.
  - rewrite (delete_eq 0); [|rewrite Hc; apply wf_init]. by rewrite Hc.
  - rewrite (clear_eq 0); [|rewrite Hc; apply wf_init]. by rewrite Hc.
Qed.

Lemma after_ops_no_room mx tl h : ∀ m,
  mx < 1 → _cache m = TTLCache_init mx tl →
  _cache (CacheOps.after_ops h m) = TTLCache_init mx tl.
Proof.
  induction h as [|o h IH]; intros m Hmx Hc; [done|].
  rewrite after_ops_cons. apply IH; [done|]. by apply do_op_no_room.
Qed.

(** X10: a manager built with [maxsize < 1] never stores anything.  After
    any history of calls its store is as the constructor made it; every
    [set] raises the [CacheError] wrapping the store's
    [ValueError("value too large")], adds one to [errors] and stores
    nothing; every [get] returns [None]. *)
Theorem nothing_stored_without_room
    (mx tl : Z) (h : list CacheOps.op) (key : string) (v : value) (t : Z) :
  mx < 1 →
  let m := CacheOps.after_ops h (init mx tl) in
  _cache m = TTLCache_init mx tl ∧
  set key v t m =
    (Raise (CacheError "set" key (ValueError "value too large")),
     mkCacheManager (_cache m) (incr_errors (_stats m))) ∧
  (get key t m).1 = Ok VNone.
Proof.
  intros Hmx m.
  assert (_cache m = TTLCache_init mx tl) as Hc
    by (by apply after_ops_no_room).
  split_and!; [done| |].
  - rewrite set_eq, Hc, setitem_eq. unfold expire. run_m.
    rewrite cache_setitem_eq. simpl. by rewrite bool_decide_true by lia.
  - rewrite get_unlinked; [done|]. by rewrite Hc.
Qed.

Lemma nothing_stored_without_room_witness :
  let h := [CacheOps.OpBase (CallSet "a" (VInt 1) 0);
            CacheOps.OpBase (CallGet "a" 1)] in
  (set "b" (VInt 2) 2 (CacheOps.after_ops h (init 0 60))).1 =
    Raise (CacheError "set" "b" (ValueError "value too large")) ∧
  errors (_stats (CacheOps.after_ops h (init 0 60))) = 1.
Proof.
  intros h. split; [|reflexivity].
  destruct (nothing_stored_without_room 0 60 h "b" (VInt 2) 2) as (_ & -> & _);
    [lia|done].
Defined.

(** ** Memoisation by the decorator *)

(** X11: a wrapper made by [cached] memoises.  When a call computed its
    result [v] (the function was invoked, [v] is not [None], the store
    accepted it at reading [t_set]), a later call with the same arguments
    whose lookup is read before [t_set + ttl] returns [v] without invoking
    the function and without touching its state; a later call whose lookup
    is read at or after [t_set + ttl] invokes the function again. *)
Theorem cached_wrapper_memoizes {F}
    (ttl_arg : option Z) (key_prefix : string) (func : pyfunc F)
    (args : list value) (kwargs : list (string * value))
    (t_get t_set t_get' t_set' : Z) (w w1 : World F) (v : value) :
  let wrapper := cached ttl_arg key_prefix func args kwargs in
  wrapper t_get t_set w = (Ok v, w1) →
  invocations w1 = S (invocations w) →
  v ≠ VNone →
  let expiry := t_set + ttl (_cache (cache_manager w)) in
  (t_get' < expiry →
     ∃ w2, wrapper t_get' t_set' w1 = (Ok v, w2) ∧
           invocations w2 = invocations w1 ∧
           func_state w2 = func_state w1) ∧
  (expiry ≤ t_get' →
     invocations (wrapper t_get' t_set' w1).2 = S (invocations w1)).
Proof.
  intros wrapper Hfirst Hinv Hv expiry. unfold wrapper in *.
  rewrite cached_eq in *. rewrite sync_wrapper_eq in Hfirst. cbn zeta in Hfirst.
  set (key := cache_key_of key_prefix func args kwargs) in *.
  pose proof (get_frame key t_get (cache_manager w)) as (_ & Httl & _).
  destruct (get key t_get (cache_manager w)) as [[v0|e|] m1]; [|done..].
  cbn zeta in Httl. simpl in Httl.
  destruct (is_not_None v0).
  { simplify_eq. simpl in Hinv. lia. }
  destruct (body func args kwargs (func_state w)) as [[r|e|] f1]; [|done..].
  rewrite set_eq in Hfirst.
  destruct (setitem t_set key r (_cache m1)) as [[[]|e|] c2] eqn:Hs;
    [|done..].
  simplify_eq. apply setitem_Ok in Hs as (Hd & Ha & _).
  rewrite Httl in Ha. fold expiry in Ha.
  set (m2 := mkCacheManager c2 (_stats m1)).
  destruct (get_stored key t_get' m2 v expiry Hd Ha) as [Hlive Hdead].
  rewrite sync_wrapper_eq. cbn zeta. fold key. simpl cache_manager.
  split.
  - intros Ht. destruct (Hlive Ht) as [m3 ->].
    destruct v; [done|..]; simpl; eauto.
  - intros Ht. destruct (Hdead Ht) as (m3 & -> & _). simpl.
    destruct (body func args kwargs f1) as [[r|e|] f2]; [|done..].
    by destruct (set key r t_set' m3) as [[?|?|] ?].
Qed.

Lemma cached_wrapper_memoizes_witness :
  let ticker := mkFunc nat "get_ticker" false
                  (fun _ _ n => (Ok (VInt (Z.of_nat n)), S n)) in
  let w := mkWorld (init 10 60) 7%nat 0%nat in
  let w1 := (cached None "exchange" ticker [VStr "BTC/USDT"] [] 5 6 w).2 in
  (∃ w2, cached None "exchange" ticker [VStr "BTC/USDT"] [] 65 65 w1
           = (Ok (VInt 7), w2) ∧
         invocations w2 = 1%nat ∧ func_state w2 = 8%nat) ∧
  invocations (cached None "exchange" ticker [VStr "BTC/USDT"] [] 66 66 w1).2
    = 2%nat.
Proof.
  intros ticker w w1.
  destruct (cached_wrapper_memoizes None "exchange" ticker
              [VStr "BTC/USDT"] [] 5 6 65 65 w w1 (VInt 7))
    as [Hhit _]; [reflexivity|reflexivity|done|].
  destruct (cached_wrapper_memoizes None "exchange" ticker
              [VStr "BTC/USDT"] [] 5 6 66 66 w w1 (VInt 7))
    as [_ Hmiss]; [reflexivity|reflexivity|done|].
  split; [apply Hhit; simpl; lia|apply Hmiss; simpl; lia].
Defined.

(** ** What [get_stats] counts *)

Lemma expire_from_ring T time r : ∀ c,
  wf T c → ring c = r →
  ring (expire_from time r c).2 = filter (fun p : string * Z => time < p.2) r.
Proof.
  induction r as [|[k e] next IH]; intros c Hwf Hr; [done|].
  simpl. case_bool_decide as Ht.
  - simpl. rewrite Hr. symmetry. apply filter_Forall_id.
    pose proof (wf_all_live_head _ _ _ _ _ _ Hwf Hr Ht) as Hlive.
    unfold all_live in Hlive. by rewrite Hr in Hlive.
  - assert (is_Some (data c !! k)) as [v Hv].
    { destruct Hwf as (_ & _ & H3 & _). apply H3. rewrite Hr. simpl.
      apply list_elem_of_here. }
    assert (is_Some (assoc k (links c))) as [e' He'].
    { apply assoc_is_Some. apply (wf_links_elem T); [done|eauto]. }
    assert (removed k c =
            with_ring (fun _ => next)
              (with_links (drop_key k)
                 (with_currsize (fun n => n - 1) (with_data (delete k) c))))
      as Hrem.
    { unfold removed, with_ring. simpl. f_equal. rewrite Hr.
      apply drop_key_head. destruct Hwf as (H1 & _). by rewrite Hr in H1. }
    rewrite filter_cons_False by done.
    rewrite <- (IH (removed k c)); [|apply wf_removed; [done|eauto]|by rewrite Hrem].
    unfold bind at 1. rewrite cache_delitem_eq, Hv.
    unfold bind at 1. rewrite links_pop_eq. simpl. rewrite He'.
    unfold bind at 1, modify. by rewrite <- Hrem.
Qed.

Lemma len_live T time c :
  wf T c →
  let live := filter (fun p : string * Z => time < p.2) (ring c) in
  ∃ c', len time c = (Ok (Z.of_nat (length live)), c') ∧
        wf T c' ∧ size (data c') = length live.
Proof.
  intros Hwf live.
  destruct (expire_wf T time c Hwf) as (c1 & Hex & Hwf1 & _).
  pose proof (expire_from_ring T time (ring c) c Hwf eq_refl) as Hring.
  unfold expire, bind, gets, id in Hex. rewrite Hex in Hring.
  simpl in Hring. fold live in Hring.
  assert (size (data c1) = length live) as Hsize.
  { rewrite <- (wf_links_length T c1 Hwf1), <- Hring.
    destruct Hwf1 as (_ & Hperm & _). by rewrite Hperm. }
  exists c1. split_and!; [|done..].
  unfold len, expire. run_m. rewrite Hex. simpl. by rewrite Hsize.
Qed.

(** X12: [get_stats()] on a manager reached by any history (timer never
    running backwards, [maxsize >= 0]) returns; [current_size] is the
    number of stored entries that have not expired at the reading of the
    call and is at most [max_size], which is the [maxsize] the manager was
    built with; [total_requests] is [hits + misses]; and the counters are
    reported as they are and left unchanged. *)
Theorem get_stats_reports_live_entries
    (mx tl t0 : Z) (h : list CacheOps.op) (t : Z) :
  0 ≤ mx →
  CacheOps.ops_monotonic t0 h →
  let m := CacheOps.after_ops h (init mx tl) in
  ∃ rep m', get_stats t m = (Ok rep, m') ∧
    current_size rep =
      Z.of_nat (length (filter (fun p : string * Z => t < p.2)
                          (ring (_cache m)))) ∧
    current_size rep ≤ max_size rep ∧
    max_size rep = mx ∧
    total_requests rep = hits (_stats m) + misses (_stats m) ∧
    r_hits rep = hits (_stats m) ∧
    r_misses rep = misses (_stats m) ∧
    r_errors rep = errors (_stats m) ∧
    _stats m' = _stats m.
Proof.
  intros Hmx Hmono m.
  destruct (reachable_wf mx tl t0 h Hmx Hmono) as (Hwf & Hwc & Hcfg).
  fold m in Hwf, Hwc, Hcfg.
  destruct (len_live _ t (_cache m) Hwf) as (c' & Hlen & Hwf' & Hsize).
  pose proof (wc_len t (_cache m) Hwc) as Hwc'.
  rewrite Hlen in Hwc'. destruct Hwc' as [Hsz Hle].
  pose proof (config_do_call mx tl (CallGetStats t) m Hcfg) as [Hm' _].
  rewrite do_call_cache, Hlen in Hm'. simpl in Hsz, Hle, Hm'.
  rewrite get_stats_eq. cbn zeta. rewrite Hlen.
  eexists _, _. split; [done|]. simpl. split_and!; try done.
  rewrite <- Hsize. lia.
Qed.

Lemma get_stats_reports_live_entries_witness :
  let h := [CacheOps.OpBase (CallSet "a" (VInt 1) 0);
            CacheOps.OpBase (CallSet "b" (VInt 2) 5);
            CacheOps.OpBase (CallGet "a" 6)] in
  ∃ rep m', get_stats 12 (CacheOps.after_ops h (init 5 10)) = (Ok rep, m') ∧
            current_size rep = 1 ∧ max_size rep = 5 ∧ r_hits rep = 1.
Proof.
  intros h.
  destruct (get_stats_reports_live_entries 5 10 0 h 12)
    as (rep & m' & Hg & Hsz & _ & Hmx & _ & Hh & _);
    [lia|unfold CacheOps.ops_monotonic; simpl; lia|].
  exists rep, m'. split; [exact Hg|]. rewrite Hsz, Hmx, Hh. by vm_compute.
Defined.

(** ** The cache tool of the server *)

(** X13: [_handle_clear_cache] on a manager reached by any history (timer
    never running backwards, [maxsize >= 0]) returns.  Its ["after"]
    report has [current_size = 0] and the same counters, request total,
    hit rate and [max_size] as its ["before"] report, whose [current_size]
    is the number of entries not expired at its reading; the manager is
    left with an empty store and unchanged counters. *)
Theorem handle_clear_cache_reports
    (mx tl t0 : Z) (h : list CacheOps.op)
    (t_before : Z) (clock : nat → Z) (t_after : Z) :
  0 ≤ mx →
  CacheOps.ops_monotonic t0 h →
  let m := CacheOps.after_ops h (init mx tl) in
  ∃ before after m',
    CacheOps._handle_clear_cache t_before clock t_after m
      = (Ok (before, after), m') ∧
    current_size before =
      Z.of_nat (length (filter (fun p : string * Z => t_before < p.2)
                          (ring (_cache m)))) ∧
    current_size after = 0 ∧
    r_hits after = r_hits before ∧
    r_misses after = r_misses before ∧
    r_errors after = r_errors before ∧
    total_requests after = total_requests before ∧
    hit_rate_percent after = hit_rate_percent before ∧
    max_size after = max_size before ∧
    max_size before = mx ∧
    _cache m' = TTLCache_init mx tl ∧
    _stats m' = _stats m.
Proof.
  intros Hmx Hmono m.
  destruct (reachable_wf mx tl t0 h Hmx Hmono) as (Hwf & Hwc & Hcfg).
  fold m in Hwf, Hwc, Hcfg.
  destruct (len_live _ t_before (_cache m) Hwf) as (c1 & Hlen & Hwf1 & _).
  pose proof (config_do_call mx tl (CallGetStats t_before) m Hcfg) as [Hm1 Ht1].
  rewrite do_call_cache, Hlen in Hm1, Ht1. simpl in Hm1, Ht1.
  unfold CacheOps._handle_clear_cache. unfold bind at 1.
  rewrite get_stats_eq. cbn zeta. rewrite Hlen.
  unfold bind at 1.
  rewrite (clear_eq _ clock (mkCacheManager c1 (_stats m)) Hwf1).
  simpl _cache. simpl _stats. rewrite Hm1, Ht1.
  unfold bind at 1. rewrite get_stats_eq. cbn zeta. simpl.
  eexists _, _, _. split; [reflexivity|]. simpl. by split_and!.
Qed.

Lemma handle_clear_cache_reports_witness :
  let h := [CacheOps.OpBase (CallSet "a" (VInt 1) 0);
            CacheOps.OpBase (CallSet "b" (VInt 2) 5);
            CacheOps.OpBase (CallGet "a" 6)] in
  ∃ before after m',
    CacheOps._handle_clear_cache 7 (fun _ => 8) 9
      (CacheOps.after_ops h (init 5 10)) = (Ok (before, after), m') ∧
    current_size before = 2 ∧ current_size after = 0 ∧
    r_hits after = 1.
Proof.
  intros h.
  destruct (handle_clear_cache_reports 5 10 0 h 7 (fun _ => 8) 9)
    as (before & after & m' & Hr & Hb & Ha & Hh & _);
    [lia|unfold CacheOps.ops_monotonic; simpl; lia|].
  exists before, after, m'. split; [exact Hr|].
  split; [rewrite Hb; by vm_compute|]. split; [exact Ha|].
  rewrite Hh. vm_compute in Hr. by injection Hr as <- _ _.
Defined.

End CacheExtra.

(** * The exchange connector *)

Module ExchangeProps.
Import RateLimiterModel ExchangeModel ListFacts.

Ltac run_x :=
  unfold xbind, xret, xthrow, xgets, xmodify, xtry, on_limiter, on_world,
    of_core, of_library, set_exchanges, id; simpl.

Section Connector.
Context {W Class Exchange : Type}.
Context (lower : string → string).
Context (getattr_ccxt : string → option Class).
Context (new_exchange :
           Class → list (string * value) → W → (error + Exchange) * W).
Context (load_markets : Exchange → W → (error + unit) * W).
Context (fetch_ticker :
           Exchange → string → W → (error + gmap string value) * W).
Context (config : Config).

Local Notation "'get_exchange'" :=
  (_get_exchange W Class Exchange lower getattr_ccxt new_exchange
     load_markets config).
Local Notation "'ticker_sync'" :=
  (get_ticker_sync W Class Exchange lower getattr_ccxt new_exchange
     load_markets fetch_ticker config).
Local Notation "'close_exchange'" := (close W Exchange).
Local Notation "'App'" := (ExchangeModel.App W Exchange).

(** What [_get_exchange] can do: return the stored connection and change
    nothing; connect and store the new connection; or raise one of its two
    errors and store nothing.  It never touches the limiter. *)
Lemma get_exchange_cases name (app : App) :
  let r := get_exchange name app in
  rate_limiter r.2 = rate_limiter app ∧
  ((∃ ex, r.1 = Return ex ∧ lower name ∈ SUPPORTED_EXCHANGES ∧
          (_exchanges app !! lower name = Some ex ∧ r.2 = app ∨
           _exchanges app !! lower name = None ∧
           _exchanges r.2 = <[lower name := ex]> (_exchanges app))) ∨
   (∃ msg, (r.1 = Throw (ExchangeNotSupportedError msg) ∨
            r.1 = Throw (ExchangeConnectionError msg)) ∧
           _exchanges r.2 = _exchanges app)).
Proof.
  unfold _get_exchange. case_bool_decide as Hsup.
  { run_x. split; [done|]. right. eauto. }
  run_x. destruct (_exchanges app !! lower name) as [ex|] eqn:Hl.
  { simpl. split; [done|]. left. exists ex. eauto. }
  destruct (getattr_ccxt (lower name)) as [c|]; simpl.
  2:{ split; [done|]. right. eauto. }
  destruct (new_exchange c _ (world app)) as [[e|ex] w1]; simpl.
  { split; [by destruct e|]. right. destruct e; simpl; eauto. }
  destruct (load_markets ex w1) as [[e|[]] w2]; simpl.
  { split; [by destruct e|]. right. destruct e; simpl; eauto. }
  split; [done|]. left. exists ex. split_and!; [done..|]. right. done.
Qed.

Lemma get_exchange_stored name ex (app : App) :
  lower name ∈ SUPPORTED_EXCHANGES →
  _exchanges app !! lower name = Some ex →
  get_exchange name app = (Return ex, app).
Proof.
  intros Hsup Hl. unfold _get_exchange.
  rewrite bool_decide_false by (by intros H; apply H).
  run_x. by rewrite Hl.
Qed.

Lemma ticker_sync_eq symbol name t_check now (app : App) :
  ticker_sync symbol name t_check now app =
    let rl := rate_limiter app in
    let purged := popleft_while (t_check - time_window rl) (window name rl) in
    if bool_decide (Z.of_nat (length purged) < max_requests rl) then
      match get_exchange name
              (mkApp (set_requests <[name := purged ++ [now]]> rl)
                 (_exchanges app) (world app)) with
      | (Return ex, app2) =>
          match fetch_ticker ex symbol (world app2) with
          | (inr ticker, w) =>
              (Return (ticker_dict symbol name ticker),
               mkApp (rate_limiter app2) (_exchanges app2) w)
          | (inl e, w) =>
              (Throw (ticker_error symbol name e),
               mkApp (rate_limiter app2) (_exchanges app2) w)
          end
      | (Throw e, app2) => (Throw (ticker_error symbol name e), app2)
      | (Stuck, app2) => (Stuck, app2)
      end
    else
      (Throw (DataFetchError
                ("Failed to fetch ticker: " +:+ rate_limit_message name rl)),
       mkApp (set_requests <[name := purged]> rl)
         (_exchanges app) (world app)).
Proof.
  unfold get_ticker_sync, xtry, xbind, on_limiter.
  rewrite RateLimiterProps.record_request_eq. cbn zeta.
  case_bool_decide as Hlt; simpl; [|done].
  destruct (get_exchange name _) as [[ex|e|] app2]; [|done..].
  unfold on_world, xret.
  by destruct (fetch_ticker ex symbol (world app2)) as [[e|ticker] w].
Qed.

Lemma ticker_error_cases symbol name e :
  (∃ msg, ticker_error symbol name e = InvalidSymbolError msg) ∨
  (∃ msg, ticker_error symbol name e = DataFetchError msg).
Proof. destruct e; simpl; eauto. Qed.

(** What [get_ticker_sync] does, by the outcome of [record_request]. *)
Lemma ticker_sync_spec symbol name t_check now (app : App) :
  let rr := record_request name t_check now (rate_limiter app) in
  let r := ticker_sync symbol name t_check now app in
  rate_limiter r.2 = rr.2 ∧
  (_exchanges r.2 = _exchanges app ∨
   ∃ ex, lower name ∈ SUPPORTED_EXCHANGES ∧
         _exchanges r.2 = <[lower name := ex]> (_exchanges app)) ∧
  match rr.1 with
  | Ok _ =>
      (∃ d ex, r.1 = Return d ∧ lower name ∈ SUPPORTED_EXCHANGES ∧
               _exchanges r.2 !! lower name = Some ex) ∨
      (∃ msg, r.1 = Throw (InvalidSymbolError msg)) ∨
      (∃ msg, r.1 = Throw (DataFetchError msg))
  | _ =>
      r.1 = Throw (DataFetchError
                     ("Failed to fetch ticker: " +:+
                      rate_limit_message name (rate_limiter app))) ∧
      _exchanges r.2 = _exchanges app ∧ world r.2 = world app
  end.
Proof.
  intros rr r. unfold rr, r.
  rewrite ticker_sync_eq, RateLimiterProps.record_request_eq. cbn zeta.
  case_bool_decide as Hlt; simpl; [|split_and!; [done|by left|done..]].
  set (app1 := mkApp _ (_exchanges app) (world app)).
  pose proof (get_exchange_cases name app1) as [Hrl Hcases].
  cbn zeta in Hrl, Hcases.
  destruct (get_exchange name app1) as [r1 app2]. simpl in Hrl, Hcases.
  destruct Hcases as [(ex & -> & Hsup & Hst)|(msg & [->| ->] & Hst)].
  - assert (_exchanges app2 !! lower name = Some ex) as Hl.
    { destruct Hst as [[Hl ->]|[_ ->]]; [done|]. apply lookup_insert_eq. }
    assert (_exchanges app2 = _exchanges app ∨
            ∃ ex, lower name ∈ SUPPORTED_EXCHANGES ∧
                  _exchanges app2 = <[lower name := ex]> (_exchanges app))
      as Hex.
    { destruct Hst as [[_ ->]|[_ ->]]; [by left|right; eauto]. }
    destruct (fetch_ticker ex symbol (world app2)) as [[e|ticker] w]; simpl.
    + split_and!; [done..|]. right.
      destruct (ticker_error_cases symbol name e) as [[msg ->]|[msg ->]]; eauto.
    + split_and!; [done..|]. left. eauto.
  - simpl. split_and!; [done|by left; rewrite Hst|eauto].
  - simpl. split_and!; [done|by left; rewrite Hst|eauto].
Qed.

(** X14: [get_ticker_sync] ends in one of three ways: it returns the
    ticker dict, it raises [InvalidSymbolError], or it raises
    [DataFetchError].  No other exception escapes it: not the limiter's
    [RateLimitError], not [ExchangeNotSupportedError] or
    [ExchangeConnectionError] of [_get_exchange], not an error of the
    exchange library. *)
Theorem get_ticker_sync_error_contract
    (symbol name : string) (t_check now : Z) (app : App) :
  let r := (ticker_sync symbol name t_check now app).1 in
  (∃ d, r = Return d) ∨
  (∃ msg, r = Throw (InvalidSymbolError msg)) ∨
  (∃ msg, r = Throw (DataFetchError msg)).
Proof.
  pose proof (ticker_sync_spec symbol name t_check now app) as (_ & _ & H).
  cbn zeta in *.
  destruct (record_request name t_check now (rate_limiter app)).1;
    [|destruct H as (-> & _); eauto..].
  destruct H as [(d & ex & -> & _)|H]; eauto.
Qed.

(** X15: [get_ticker_sync] charges the limiter exactly as
    [record_request(exchange_name)] does, whether or not the exchange is
    supported, the connection succeeds or the fetch succeeds; the windows
    of the other keys are untouched. *)
Theorem get_ticker_sync_counts_every_request
    (symbol name : string) (t_check now : Z) (app : App) :
  let app' := (ticker_sync symbol name t_check now app).2 in
  rate_limiter app' =
    (record_request name t_check now (rate_limiter app)).2 ∧
  ∀ key, key ≠ name →
    window key (rate_limiter app') = window key (rate_limiter app).
Proof.
  pose proof (ticker_sync_spec symbol name t_check now app) as (Hrl & _).
  cbn zeta in *. split; [done|]. intros key Hne. rewrite Hrl.
  rewrite RateLimiterProps.record_request_eq. cbn zeta.
  case_bool_decide; simpl;
    by apply RateLimiterProps.window_set_requests_ne.
Qed.

(** X16: when the limiter has no quota left for the exchange name,
    [get_ticker_sync] raises [DataFetchError] with the limiter's message
    after ["Failed to fetch ticker: "]; no connection is made or looked
    up, the exchange library is not called, and no timestamp is
    recorded. *)
Theorem rate_limited_ticker_contacts_nothing
    (symbol name : string) (t_check now : Z) (app : App) :
  (check_limit name t_check (rate_limiter app)).1 = Ok false →
  let r := ticker_sync symbol name t_check now app in
  r.1 = Throw (DataFetchError
                 ("Failed to fetch ticker: " +:+
                  rate_limit_message name (rate_limiter app))) ∧
  _exchanges r.2 = _exchanges app ∧
  world r.2 = world app ∧
  rate_limiter r.2 = (check_limit name t_check (rate_limiter app)).2.
Proof.
  intros Hcheck.
  pose proof (ticker_sync_spec symbol name t_check now app) as (Hrl & _ & H).
  cbn zeta in *. rewrite Hrl. clear Hrl.
  rewrite RateLimiterProps.record_request_eq in *.
  rewrite RateLimiterProps.check_limit_eq in *. cbn zeta in *.
  simpl in Hcheck. injection Hcheck as Hcheck.
  rewrite Hcheck in *. simpl in *. by destruct H as (-> & -> & ->).
Qed.

(** X17: [_get_exchange] connects at most once per exchange.  Once it
    has returned a connection, a call with any name that has the same
    lowercase returns that connection and changes nothing, so the library
    is not called again.  When it raises, the error is
    [ExchangeNotSupportedError] or [ExchangeConnectionError] and no
    connection is stored. *)
Theorem get_exchange_connects_once (name name' : string) (app : App) :
  lower name' = lower name →
  match get_exchange name app with
  | (Return ex, app') => get_exchange name' app' = (Return ex, app')
  | (Throw e, app') =>
      _exchanges app' = _exchanges app ∧
      ∃ msg, e = ExchangeNotSupportedError msg ∨
             e = ExchangeConnectionError msg
  | (Stuck, _) => False
  end.
Proof.
  intros Hlow.
  pose proof (get_exchange_cases name app) as [_ Hcases]. cbn zeta in Hcases.
  destruct (get_exchange name app) as [r app']. simpl in Hcases.
  destruct Hcases as [(ex & -> & Hsup & Hst)|(msg & [->| ->] & Hst)];
    [|eauto..].
  apply get_exchange_stored; rewrite Hlow; [done|].
  destruct Hst as [[Hl ->]|[_ ->]]; [done|]. apply lookup_insert_eq.
Qed.

(** ** The connections held *)

Local Notation "'ex_after_call'" :=
  (ExchangeModel.after_call W Class Exchange lower getattr_ccxt new_exchange
     load_markets fetch_ticker config).
Local Notation "'ex_after_calls'" :=
  (ExchangeModel.after_calls W Class Exchange lower getattr_ccxt new_exchange
     load_markets fetch_ticker config).

Lemma after_call_supported c (app : App) :
  (∀ k, is_Some (_exchanges app !! k) → k ∈ SUPPORTED_EXCHANGES) →
  ∀ k, is_Some (_exchanges (ex_after_call c app) !! k) →
       k ∈ SUPPORTED_EXCHANGES.
Proof.
  intros Hinv k. destruct c as [name|symbol name t1 t2|name]; simpl.
  - pose proof (get_exchange_cases name app) as [_ Hcases].
    cbn zeta in Hcases.
    destruct Hcases as [(ex & _ & Hsup & [[_ ->]|[_ ->]])|(msg & _ & ->)];
      [by apply Hinv| |by apply Hinv].
    rewrite lookup_insert_is_Some. intros [<-|[_ Hk]]; [done|by apply Hinv].
  - pose proof (ticker_sync_spec symbol name t1 t2 app) as (_ & Hex & _).
    cbn zeta in Hex. destruct Hex as [->|(ex & Hsup & ->)]; [by apply Hinv|].
    rewrite lookup_insert_is_Some. intros [<-|[_ Hk]]; [done|by apply Hinv].
  - unfold close. destruct name as [name|]; [|by run_x; rewrite lookup_empty; intros []].
    case_decide; [by run_x; rewrite lookup_empty; intros []|].
    run_x. destruct (_exchanges app !! name) eqn:E; simpl; [|by apply Hinv].
    rewrite lookup_delete_is_Some. intros [_ Hk]. by apply Hinv.
Qed.

Lemma after_calls_supported h : ∀ app : App,
  (∀ k, is_Some (_exchanges app !! k) → k ∈ SUPPORTED_EXCHANGES) →
  ∀ k, is_Some (_exchanges (ex_after_calls h app) !! k) →
       k ∈ SUPPORTED_EXCHANGES.
Proof.
  induction h as [|c h IH]; intros app Hinv; [done|].
  simpl. apply IH. by apply after_call_supported.
Qed.

(** X18: after any history of [_get_exchange], [get_ticker_sync] and
    [close] calls from start-up, every connection held is stored under a
    name of [SUPPORTED_EXCHANGES].  Hence [close(name)], which looks the
    name up as given, changes nothing when the name is not empty and not
    in that list, whatever connection was made under its lowercase. *)
Theorem connections_only_under_supported_names
    (mx tw : Z) (w : W) (h : list ExchangeModel.call) (name : string) :
  let app := ex_after_calls h (start W Exchange mx tw w) in
  (∀ k, is_Some (_exchanges app !! k) → k ∈ SUPPORTED_EXCHANGES) ∧
  (name ≠ "" → name ∉ SUPPORTED_EXCHANGES →
   close_exchange (Some name) app = (Return tt, app)).
Proof.
  intros app.
  assert (∀ k, is_Some (_exchanges app !! k) → k ∈ SUPPORTED_EXCHANGES)
    as Hinv.
  { apply after_calls_supported. intros k. simpl. rewrite lookup_empty.
    by intros []. }
  split; [done|]. intros Hne Hns. unfold close.
  rewrite decide_False by done. run_x.
  destruct (_exchanges app !! name) eqn:E; [|done].
  exfalso. apply Hns, Hinv. eauto.
Qed.

(** X19: two spellings of an exchange name that differ only in case share
    the connection but not the quota: after [get_ticker_sync] has returned
    for one spelling, [_get_exchange] returns a stored connection for the
    other without calling the library, and the limiter's window of the
    other spelling is what it was. *)
Theorem case_variants_share_connection_not_quota
    (symbol name name' : string) (t_check now : Z) (app : App)
    (d : list (string * value)) :
  name' ≠ name →
  lower name' = lower name →
  (ticker_sync symbol name t_check now app).1 = Return d →
  let app' := (ticker_sync symbol name t_check now app).2 in
  window name' (rate_limiter app') = window name' (rate_limiter app) ∧
  ∃ ex, get_exchange name' app' = (Return ex, app').
Proof.
  intros Hne Hlow Hret app'.
  pose proof (ticker_sync_spec symbol name t_check now app) as (Hrl & _ & H).
  cbn zeta in *. fold app' in Hrl, H. split.
  - rewrite Hrl, RateLimiterProps.record_request_eq. cbn zeta.
    case_bool_decide; simpl;
      by apply RateLimiterProps.window_set_requests_ne.
  - rewrite Hret in H.
    destruct (record_request name t_check now (rate_limiter app)).1;
      [|by destruct H..].
    destruct H as [(d' & ex & _ & Hsup & Hl)|[[msg [=]]|[msg [=]]]].
    exists ex. apply get_exchange_stored; by rewrite Hlow.
Qed.

(** X20: [validate_exchange] against [SUPPORTED_EXCHANGES] accepts
    exactly the names that pass the support check of [_get_exchange]:
    when it returns, the result is the lowercase of the name and is in
    the list; when it raises [ValidationError], [_get_exchange] raises
    [ExchangeNotSupportedError] for the name and changes nothing. *)
Theorem validate_exchange_agrees_with_connector (name : string) (app : App) :
  validate_exchange lower name SUPPORTED_EXCHANGES = Return (lower name) ∧
  lower name ∈ SUPPORTED_EXCHANGES ∨
  (∃ msg, validate_exchange lower name SUPPORTED_EXCHANGES
            = Throw (ValidationError msg)) ∧
  (∃ msg, get_exchange name app = (Throw (ExchangeNotSupportedError msg), app)).
Proof.
  unfold validate_exchange, _get_exchange.
  case_bool_decide as Hsup; [right|left]; eauto.
Qed.

End Connector.

Lemma rate_limited_ticker_contacts_nothing_witness :
  let app := demo_after_calls
               [CallGetTickerSync "BTC/USDT" "binance" 1 1;
                CallGetTickerSync "ETH/USDT" "binance" 2 2]
               (demo_start 2 60) in
  let r := demo_ticker_sync "BTC/USDT" "binance" 3 3 app in
  r.1 = Throw (DataFetchError
                 "Failed to fetch ticker: Rate limit exceeded for binance. Maximum 2 requests per 60s") ∧
  world r.2 = world app.
Proof.
  intros app r.
  destruct (rate_limited_ticker_contacts_nothing ascii_lower demo_getattr
              demo_new demo_load demo_fetch demo_config
              "BTC/USDT" "binance" 3 3 app) as (H1 & _ & H2 & _);
    [reflexivity|].
  split; [exact H1|exact H2].
Defined.

Lemma get_exchange_connects_once_witness :
  let app := (demo_get_exchange "Binance" (demo_start 10 60)).2 in
  world app = 2%nat ∧
  demo_get_exchange "BINANCE" app = (Return "binance", app).
Proof.
  intros app. split; [reflexivity|].
  pose proof (get_exchange_connects_once ascii_lower demo_getattr demo_new
                demo_load demo_config "Binance" "BINANCE" (demo_start 10 60)
                eq_refl) as H.
  exact H.
Defined.

Lemma connections_only_under_supported_names_witness :
  let app := demo_after_calls [CallGetExchange "Binance"] (demo_start 10 60) in
  _exchanges app !! "binance" = Some "binance" ∧
  close nat string (Some "Binance") app = (Return tt, app).
Proof.
  intros app. split; [reflexivity|].
  destruct (connections_only_under_supported_names ascii_lower demo_getattr
              demo_new demo_load demo_fetch demo_config 10 60 0%nat
              [CallGetExchange "Binance"] "Binance") as [_ H].
  apply H; [done|].
  apply (bool_decide_unpack ("Binance" ∉ SUPPORTED_EXCHANGES)).
  vm_compute. exact I.
Defined.

Lemma case_variants_share_connection_not_quota_witness :
  let app := demo_start 1 60 in
  let app' := (demo_ticker_sync "BTC/USDT" "Binance" 1 1 app).2 in
  window "binance" (rate_limiter app') = [] ∧
  window "Binance" (rate_limiter app') = [1] ∧
  ∃ ex, demo_get_exchange "binance" app' = (Return ex, app').
Proof.
  intros app app'.
  destruct (case_variants_share_connection_not_quota ascii_lower demo_getattr
              demo_new demo_load demo_fetch demo_config
              "BTC/USDT" "Binance" "binance" 1 1 app
              (ticker_dict "BTC/USDT" "Binance" {[ "last" := VInt 42 ]}))
    as [Hw Hex]; [done|reflexivity|reflexivity|].
  split; [exact Hw|]. split; [reflexivity|exact Hex].
Defined.

End ExchangeProps.
